(** * UnLua reflection cache: [FClassDesc] (ClassDesc.cpp)

    A shallow embedding of the class descriptor of UnLua's reflection
    layer: construction and inheritance-chain resolution, lazy
    [Load]/[UnLoad] of the underlying [UStruct], [FindField], and the
    field-registration algorithm [RegisterField] with its redirection
    to the declaring class and its name-recovery fallback for
    user-defined structs.

    Objects that the C++ code reaches through pointers ([FClassDesc*],
    [FFieldDesc*], [FPropertyDesc*], [FFunctionDesc*]) live in heaps
    keyed by addresses; [new] picks an address that is not live.  The
    engine's reflection data ([UStruct], [FProperty], [UFunction],
    [FindObject], ...) is an explicit [Host] record that every
    operation receives.

    Names are compared the way the engine compares them, without
    regard to the case of letters: an [FName] is identified by its
    [FName.key], the maps keyed by [FName] ([Fields], the
    default-parameter tables) are looked up through it, and
    [FString::operator==] is [FString.Equals].  The empty [FName] is
    [NAME_None] and prints as ["None"]. *)

From Stdlib Require Import ZArith Ascii String List Lia.
From stdpp Require Import gmap strings list fin_maps.

(** ** Handles of engine objects and addresses of UnLua objects *)

Abbreviation UStruct := nat (only parsing).
Abbreviation FProperty := nat (only parsing).
Abbreviation UFunction := nat (only parsing).
Abbreviation FParameterCollection := nat (only parsing).
Abbreviation FName := string (only parsing).
Abbreviation ClassPtr := nat (only parsing).
Abbreviation FieldPtr := nat (only parsing).
Abbreviation PropDescPtr := nat (only parsing).
Abbreviation FuncDescPtr := nat (only parsing).

(** ** [int32] arithmetic *)

Definition INT32_MAX : Z := 2147483647.

(** Two's-complement reduction of an integer to [int32]. *)
Definition wrap32 (z : Z) : Z := ((z + 2 ^ 31) mod 2 ^ 32 - 2 ^ 31)%Z.

(** ** The [FString] operations the file uses *)

Module FString.

Definition Len (s : string) : Z := Z.of_nat (String.length s).

(** [Left(Count)]: the leftmost [Count] characters. *)
Fixpoint Left (Count : nat) (s : string) : string :=
  match Count, s with
  | S n, String a r => String a (Left n r)
  | _, _ => EmptyString
  end.

(** [LeftChop(Count)]: the string without its last [Count]
    characters, [Left(Len() - Count)] with the length clamped at 0. *)
Definition LeftChop (Count : Z) (s : string) : string :=
  Left (Z.to_nat (Z.max 0 (Len s - Count))) s.

(** [RightChop(Count)]: the string without its first [Count]
    characters. *)
Fixpoint RightChop (Count : nat) (s : string) : string :=
  match Count, s with
  | S n, String _ r => RightChop n r
  | _, _ => s
  end.

(** [Mid(Start, Count)]. *)
Definition Mid (Start Count : nat) (s : string) : string :=
  Left Count (RightChop Start s).

(** [FindLastChar(Ch, Index)]: the index of the last occurrence. *)
Fixpoint FindLastChar (Ch : ascii) (s : string) : option nat :=
  match s with
  | EmptyString => None
  | String a r =>
      match FindLastChar Ch r with
      | Some i => Some (S i)
      | None => if Ascii.eqb a Ch then Some 0 else None
      end
  end.

(** [TChar::ToUpper]: the letters [a]..[z] to upper case. *)
Definition ToUpperChar (c : ascii) : ascii :=
  let n := nat_of_ascii c in
  if ((97 <=? n) && (n <=? 122))%bool%nat then ascii_of_nat (n - 32) else c.

(** [ToUpper()]. *)
Fixpoint ToUpper (s : string) : string :=
  match s with
  | EmptyString => EmptyString
  | String a r => String (ToUpperChar a) (ToUpper r)
  end.

(** [operator==]: [Stricmp], equality without regard to case. *)
Definition Equals (a b : string) : bool :=
  String.eqb (ToUpper a) (ToUpper b).

End FString.

(** ** [FName]

    An [FName] is written as the string it was made from.  Two names
    are the same [FName] when their [key]s are equal. *)

Module FName.

(** What [FName::operator==] and the hash of [TMap<FName, ...>]
    compare: the text without regard to case, the empty text standing
    for [NAME_None]. *)
Definition key (n : string) : string :=
  match n with
  | EmptyString => "NONE"%string
  | _ => FString.ToUpper n
  end.

(** [ToString()]: the text of the name, ["None"] for [NAME_None]. *)
Definition ToString (n : string) : string :=
  if String.eqb (key n) "NONE" then "None"%string else n.

(** [TMap<FName, V>::Find] on a table whose keys are written out as
    strings. *)
Definition find {V} (m : gmap string V) (n : string) : option V :=
  snd <$> List.find (fun kv => String.eqb (key (fst kv)) (key n))
            (map_to_list m).

End FName.

(** ** The host type system

    What ClassDesc.cpp asks of the engine and of UnLua's helpers
    outside this file.  Every operation takes the host it runs
    against, so the live type system may differ from call to call. *)

Record Host := {
  (** [InStruct->IsA(UScriptStruct::StaticClass())] *)
  IsA_UScriptStruct : UStruct -> bool;
  (** [InStruct->IsA(UClass::StaticClass())] *)
  IsA_UClass : UStruct -> bool;
  (** [HasAnyClassFlags(CLASS_Interface)] *)
  HasClassFlag_Interface : UStruct -> bool;
  (** [UInterface::StaticClass()] *)
  UInterface_StaticClass : UStruct;
  (** [UStruct::IsNative()] *)
  IsNative : UStruct -> bool;
  GetStructureSize : UStruct -> Z;
  (** [UClass::Interfaces], the classes of the implemented interfaces *)
  Interfaces : UStruct -> list UStruct;
  (** [GetCppStructOps()]: alignment and size when present *)
  GetCppStructOps : UStruct -> option (Z * Z);
  GetMinAlignment : UStruct -> Z;
  (** [CalcUserdataPadding] of LuaCore *)
  CalcUserdataPadding : Z -> Z;
  GetInheritanceSuper : UStruct -> option UStruct;
  (** [UnLua::LowLevel::GetMetatableName] *)
  GetMetatableName : UStruct -> string;
  (** [GDefaultParamCollection]: class name to the table of its
      functions' default parameters, both keyed by [FName] and read
      with [FName.find] *)
  GDefaultParamCollection : gmap string (gmap string FParameterCollection);
  (** [UStruct::FindPropertyByName]; the engine compares [FName]s, see
      [HostCI] *)
  FindPropertyByName : UStruct -> FName -> option FProperty;
  (** [UClass::FindFunctionByName] *)
  FindFunctionByName : UStruct -> FName -> option UFunction;
  (** [TFieldIterator<FProperty>] with [ExcludeSuper] and
      [ExcludeDeprecated], in iteration order *)
  DirectProperties : UStruct -> list FProperty;
  (** [FProperty::GetName()] *)
  Property_GetName : FProperty -> string;
  (** [Cast<UStruct>(GetPropertyOuter(Property))] *)
  PropertyOuter : FProperty -> option UStruct;
  (** [Cast<UStruct>(Function->GetOuter())] *)
  FunctionOuter : UFunction -> option UStruct;
  (** [FindObject<UStruct>(ANY_PACKAGE, Name)] *)
  FindObject : string -> option UStruct;
  (** [LoadObject<UStruct>(nullptr, Name)] *)
  LoadObject : string -> option UStruct
}.

(** ** Descriptors *)

Record FFieldDesc := mkFieldDesc {
  QueryClass : ClassPtr;
  OuterClass : ClassPtr;
  FieldIndex : Z
}.

(** What [FPropertyDesc::Create(Property)] builds: opaque here, it
    remembers the property it wraps. *)
Record FPropertyDesc := mkPropertyDesc {
  PD_Property : FProperty
}.

(** What [new FFunctionDesc(Function, DefaultParams)] builds. *)
Record FFunctionDesc := mkFunctionDesc {
  FD_Function : UFunction;
  FD_DefaultParams : option FParameterCollection
}.

Record FClassDesc := mkClassDesc {
  Struct : option UStruct;
  ClassName : string;
  bIsScriptStruct : bool;
  bIsClass : bool;
  bIsInterface : bool;
  bIsNative : bool;
  UserdataPadding : Z;
  StructSize : Z;
  RefCount : Z;
  FunctionCollection : option (gmap string FParameterCollection);
  SuperClasses : list ClassPtr;
  (** [TMap<FName, FFieldDesc*>]: an entry is stored under the
      [FName.key] of its name *)
  Fields : gmap string FieldPtr;
  Properties : list PropDescPtr;
  Functions : list FuncDescPtr
}.

Definition set_Struct (v : option UStruct) (d : FClassDesc) : FClassDesc :=
  mkClassDesc v (ClassName d) (bIsScriptStruct d) (bIsClass d)
    (bIsInterface d) (bIsNative d) (UserdataPadding d) (StructSize d)
    (RefCount d) (FunctionCollection d) (SuperClasses d) (Fields d)
    (Properties d) (Functions d).

Definition set_RefCount (v : Z) (d : FClassDesc) : FClassDesc :=
  mkClassDesc (Struct d) (ClassName d) (bIsScriptStruct d) (bIsClass d)
    (bIsInterface d) (bIsNative d) (UserdataPadding d) (StructSize d)
    v (FunctionCollection d) (SuperClasses d) (Fields d)
    (Properties d) (Functions d).

Definition set_tables (F : gmap string FieldPtr) (P : list PropDescPtr)
    (Fn : list FuncDescPtr) (d : FClassDesc) : FClassDesc :=
  mkClassDesc (Struct d) (ClassName d) (bIsScriptStruct d) (bIsClass d)
    (bIsInterface d) (bIsNative d) (UserdataPadding d) (StructSize d)
    (RefCount d) (FunctionCollection d) (SuperClasses d) F P Fn.

(** ** Program state: the registry and the heaps *)

Record State := mkState {
  (** [FClassRegistry::Classes]: the descriptor registered for a type *)
  Classes : gmap UStruct ClassPtr;
  ClassHeap : gmap ClassPtr FClassDesc;
  FieldHeap : gmap FieldPtr FFieldDesc;
  PropHeap : gmap PropDescPtr FPropertyDesc;
  FuncHeap : gmap FuncDescPtr FFunctionDesc
}.

Definition InitState : State := mkState ∅ ∅ ∅ ∅ ∅.

Definition set_ClassHeap (H : gmap ClassPtr FClassDesc) (st : State) : State :=
  mkState (Classes st) H (FieldHeap st) (PropHeap st) (FuncHeap st).

Definition put_desc (c : ClassPtr) (d : FClassDesc) (st : State) : State :=
  set_ClassHeap (<[c := d]> (ClassHeap st)) st.

(** [new]: an address with no live object of that kind. *)
Definition new_addr {A} (H : gmap nat A) : nat := fresh (dom H).

(** [delete] of every pointer of a container. *)
Definition delete_all {A} (ps : list nat) (H : gmap nat A) : gmap nat A :=
  foldr delete H ps.

(** ** Outcomes

    [Fatal] is a failed [check] (or the use of a dangling descriptor
    pointer); [OutOfFuel] only says that the recursion bound given to
    the model was too small. *)

Inductive Res (A : Type) : Type :=
| Ok (a : A)
| Fatal
| OutOfFuel.
Arguments Ok {A} a.
Arguments Fatal {A}.
Arguments OutOfFuel {A}.

Definition bindR {A B} (m : Res A) (k : A -> Res B) : Res B :=
  match m with
  | Ok a => k a
  | Fatal => Fatal
  | OutOfFuel => OutOfFuel
  end.

Notation "'run' p <~ m ; k" :=
  (bindR m (fun x => match x with p => k end))
  (at level 10, p pattern, m at level 100, k at level 200,
   format "'[v' 'run'  p  <~  m ; '/' k ']'").

(** Dereference of a descriptor pointer. *)
Definition deref (c : ClassPtr) (st : State) : Res FClassDesc :=
  match ClassHeap st !! c with
  | Some d => Ok d
  | None => Fatal
  end.

(** ** [FClassDesc::Load] and [FClassDesc::UnLoad] *)

(** The name [Load] looks up: [ClassName] without a leading [U], [A]
    or [F].  [ClassName[0]] of an empty string fails the bounds check
    of [FString::operator[]]. *)
Definition LoadName (ClassName : string) : Res string :=
  match ClassName with
  | EmptyString => Fatal
  | String c0 _ =>
      if (Ascii.eqb c0 "U"%char || Ascii.eqb c0 "A"%char
          || Ascii.eqb c0 "F"%char)%bool
      then Ok (FString.RightChop 1 ClassName)
      else Ok ClassName
  end.

(** [FindObject], then [LoadObject] when nothing is resident. *)
Definition ResolveStruct (h : Host) (Name : string) : option UStruct :=
  match FindObject h Name with
  | Some s => Some s
  | None => LoadObject h Name
  end.

Definition Load (h : Host) (this : ClassPtr) (st : State) : Res State :=
  run d <~ deref this st;
  match Struct d with
  | Some _ => Ok st
  | None =>
      run Name <~ LoadName (ClassName d);
      match ResolveStruct h Name with
      | Some s => Ok (put_desc this (set_Struct (Some s) d) st)
      | None => Fatal (* check(Struct) *)
      end
  end.

Definition UnLoad (this : ClassPtr) (st : State) : Res State :=
  run d <~ deref this st;
  match Struct d with
  | None => Ok st
  | Some _ =>
      let d' := set_Struct None (set_tables ∅ [] [] d) in
      Ok (mkState (Classes st)
            (<[this := d']> (ClassHeap st))
            (delete_all (map_to_list (Fields d)).*2 (FieldHeap st))
            (delete_all (Properties d) (PropHeap st))
            (delete_all (Functions d) (FuncHeap st)))
  end.

(** ** [AddRef], [SubRef] *)

Definition AddRef (this : ClassPtr) (st : State) : Res State :=
  run d <~ deref this st;
  Ok (put_desc this (set_RefCount (wrap32 (RefCount d + 1)) d) st).

Definition SubRef (this : ClassPtr) (st : State) : Res State :=
  run d <~ deref this st;
  Ok (put_desc this (set_RefCount (wrap32 (RefCount d - 1)) d) st).

(** ** [FClassDesc::FindField]

    [Fields.Find(FieldName)] makes an [FName] of the [const char*]. *)

Definition FindField (h : Host) (this : ClassPtr) (FieldName : string)
    (st : State) : Res (option FieldPtr * State) :=
  run st1 <~ Load h this st;
  run d <~ deref this st1;
  Ok (Fields d !! FName.key FieldName, st1).

(** ** [FClassDesc::GetInheritanceChain] *)

Definition GetInheritanceChain (this : ClassPtr) (DescChain : list ClassPtr)
    (st : State) : Res (list ClassPtr) :=
  run d <~ deref this st;
  let DescChain1 := DescChain ++ [this] in      (* DescChain.Add(this) *)
  Ok (DescChain1 ++ SuperClasses d).            (* DescChain.Append(SuperClasses) *)

(** ** The constructor [FClassDesc::FClassDesc]

    [reg] is [UnLua::FClassRegistry::RegisterReflectedType], which the
    constructor calls for every implemented interface and every
    ancestor.  The [while] loop over the ancestors has its own bound
    [n]. *)

Section Constructor.
Variable reg : UStruct -> State -> Res (ClassPtr * State).
Variable h : Host.

(** [for (FImplementedInterface& Interface : Class->Interfaces)] *)
Fixpoint RegisterInterfaces (l : list UStruct) (st : State) : Res State :=
  match l with
  | [] => Ok st
  | i :: l' =>
      run (_, st1) <~ reg i st;
      RegisterInterfaces l' st1
  end.

(** [while (SuperStruct)]: registers each ancestor and appends its
    descriptor to [SuperClasses]. *)
Fixpoint WalkSupers (n : nat) (SuperStruct : option UStruct)
    (SuperClasses : list ClassPtr) (st : State)
    : Res (list ClassPtr * State) :=
  match SuperStruct with
  | None => Ok (SuperClasses, st)
  | Some s =>
      match n with
      | 0 => OutOfFuel
      | S n' =>
          run (ClassDesc, st1) <~ reg s st;
          WalkSupers n' (GetInheritanceSuper h s)
            (SuperClasses ++ [ClassDesc]) st1
      end
  end.

Definition FClassDesc_ctor (n : nat) (InStruct : UStruct) (InName : string)
    (st : State) : Res (FClassDesc * State) :=
  let bIsScriptStruct := IsA_UScriptStruct h InStruct in
  let bIsClass := IsA_UClass h InStruct in
  let bIsInterface :=
    (bIsClass && HasClassFlag_Interface h InStruct
     && negb (InStruct =? UInterface_StaticClass h))%bool in
  let bIsNative := IsNative h InStruct in
  run (UserdataPadding, Size, FunctionCollection, st1) <~
    (if bIsClass then
       run st1 <~ RegisterInterfaces (Interfaces h InStruct) st;
       Ok (0%Z, GetStructureSize h InStruct,
           FName.find (GDefaultParamCollection h) InName, st1)
     else if bIsScriptStruct then
       let CppStructOps := GetCppStructOps h InStruct in
       let Alignment :=
         match CppStructOps with
         | Some (a, _) => a
         | None => GetMinAlignment h InStruct
         end in
       let Size :=
         match CppStructOps with
         | Some (_, sz) => sz
         | None => GetStructureSize h InStruct
         end in
       Ok (CalcUserdataPadding h Alignment, Size, None, st)
     else Ok (0%Z, 0%Z, None, st));
  run (SuperClasses, st2) <~
    WalkSupers n (GetInheritanceSuper h InStruct) [] st1;
  Ok (mkClassDesc (Some InStruct) InName bIsScriptStruct bIsClass
        bIsInterface bIsNative UserdataPadding Size 0%Z
        FunctionCollection SuperClasses ∅ [] [],
      st2).
End Constructor.

(** Modelled from the spec: [UnLua::FClassRegistry::RegisterReflectedType]
    is not part of ClassDesc.cpp.  It resolves a type to its
    descriptor, creating it when absent: the same descriptor for the
    same type on every call, never null.  A new descriptor is built by
    the constructor above under the type's metatable name and entered
    in [Classes]. *)
Fixpoint RegisterReflectedType (fuel : nat) (h : Host) (T : UStruct)
    (st : State) : Res (ClassPtr * State) :=
  match fuel with
  | 0 => OutOfFuel
  | S f =>
      match Classes st !! T with
      | Some c => Ok (c, st)
      | None =>
          run (d, st1) <~
            FClassDesc_ctor (RegisterReflectedType f h) h f T
              (GetMetatableName h T) st;
          let c := new_addr (ClassHeap st1) in
          Ok (c, mkState (<[T := c]> (Classes st1))
                   (<[c := d]> (ClassHeap st1))
                   (FieldHeap st1) (PropHeap st1) (FuncHeap st1))
      end
  end.

(** ** [FClassDesc::RegisterField] *)

(** The member a name resolves to: a property or a function. *)
Inductive Member :=
| MProperty (p : FProperty)
| MFunction (f : UFunction).

Definition GuidStrLen : Z := 32.
Definition MinimalPostfixlen : Z := GuidStrLen + 3.

(** The display name the fallback loop computes from the name of a
    property of a user-defined struct. *)
Definition RecoverDisplayName (PropName : string) : string :=
  if (FString.Len PropName >? MinimalPostfixlen)%Z then
    let DisplayName := FString.LeftChop (GuidStrLen + 1) PropName in
    match FString.FindLastChar "_"%char DisplayName with
    | Some FirstCharToRemove => FString.Mid 0 FirstCharToRemove DisplayName
    | None => DisplayName
    end
  else PropName.

(** The fallback loop: the first direct property whose display name
    [==] the text of the queried name. *)
Definition FindRecoveredProperty (h : Host) (s : UStruct)
    (FieldName : FName) : option FProperty :=
  let FieldNameStr := FName.ToString FieldName in
  List.find
    (fun p =>
       FString.Equals (RecoverDisplayName (Property_GetName h p)) FieldNameStr)
    (DirectProperties h s).

(** A pointer used as a condition: true when it is not null. *)
Definition non_null {A} (p : option A) : bool :=
  match p with
  | Some _ => true
  | None => false
  end.

(** "a property or a function ?": what the name denotes on the live
    type [s] of descriptor [d], [None] when [bValid] ends up false. *)
Definition ClassifyField (h : Host) (d : FClassDesc) (s : UStruct)
    (FieldName : FName) : option Member :=
  let Property := FindPropertyByName h s FieldName in
  let Function :=
    if (negb (non_null Property) && bIsClass d)%bool
    then FindFunctionByName h s FieldName else None in
  let bValid := (non_null Property || non_null Function)%bool in
  let Property :=
    if (negb bValid && bIsScriptStruct d && negb (IsNative h s))%bool
    then FindRecoveredProperty h s FieldName
    else Property in
  match Property with
  | Some p => Some (MProperty p)
  | None => MFunction <$> Function
  end.

Definition MemberOuter (h : Host) (m : Member) : option UStruct :=
  match m with
  | MProperty p => PropertyOuter h p
  | MFunction f => FunctionOuter h f
  end.

(** "create new Field descriptor": the branch taken when the member's
    outer is this descriptor's own [Struct]. *)
Definition RegisterLocal (this : ClassPtr) (d : FClassDesc) (m : Member)
    (FieldName : FName) (QueryClass : ClassPtr) (st : State)
    : FieldPtr * State :=
  let FieldDesc := new_addr (FieldHeap st) in
  match m with
  | MProperty Property =>
      let pd := new_addr (PropHeap st) in
      let Index := wrap32 (Z.of_nat (length (Properties d))) in
      let FieldIndex := wrap32 (Index + 1) in
      (FieldDesc,
       mkState (Classes st)
         (<[this := set_tables (<[FName.key FieldName := FieldDesc]> (Fields d))
                      (Properties d ++ [pd]) (Functions d) d]> (ClassHeap st))
         (<[FieldDesc := mkFieldDesc QueryClass this FieldIndex]> (FieldHeap st))
         (<[pd := mkPropertyDesc Property]> (PropHeap st))
         (FuncHeap st))
  | MFunction Function =>
      let DefaultParams :=
        match FunctionCollection d with
        | Some fc => FName.find fc FieldName
        | None => None
        end in
      let fd := new_addr (FuncHeap st) in
      let Index := wrap32 (Z.of_nat (length (Functions d))) in
      let FieldIndex := wrap32 (- wrap32 (Index + 1)) in
      (FieldDesc,
       mkState (Classes st)
         (<[this := set_tables (<[FName.key FieldName := FieldDesc]> (Fields d))
                      (Properties d) (Functions d ++ [fd]) d]> (ClassHeap st))
         (<[FieldDesc := mkFieldDesc QueryClass this FieldIndex]> (FieldHeap st))
         (PropHeap st)
         (<[fd := mkFunctionDesc Function DefaultParams]> (FuncHeap st)))
  end.

Fixpoint RegisterField (fuel : nat) (h : Host) (this : ClassPtr)
    (FieldName : FName) (QueryClass : ClassPtr) (st : State)
    : Res (option FieldPtr * State) :=
  match fuel with
  | 0 => OutOfFuel
  | S f =>
      run st1 <~ Load h this st;
      run d <~ deref this st1;
      match Fields d !! FName.key FieldName with
      | Some FieldDesc => Ok (Some FieldDesc, st1)
      | None =>
          match Struct d with
          | None => Fatal
          | Some s =>
              match ClassifyField h d s FieldName with
              | None => Ok (None, st1)
              | Some m =>
                  match MemberOuter h m with
                  | None => Ok (None, st1)
                  | Some OuterStruct =>
                      if decide (OuterStruct = s) then
                        let '(FieldDesc, st2) :=
                          RegisterLocal this d m FieldName QueryClass st1 in
                        Ok (Some FieldDesc, st2)
                      else
                        run (OuterClass, st2) <~
                          RegisterReflectedType f h OuterStruct st1;
                        RegisterField f h OuterClass FieldName QueryClass st2
                  end
              end
          end
      end
  end.

(** The cycle [Load(); UnLoad(); Load()] on one descriptor. *)
Definition LoadUnLoadLoad (h : Host) (this : ClassPtr) (st : State)
    : Res State :=
  run st1 <~ Load h this st;
  run st2 <~ UnLoad this st1;
  Load h this st2.

(** ** Relations between states used by the statements *)

(** Every descriptor of [st] is still there in [st'] with the same
    [SuperClasses]. *)
Definition SuperClasses_kept (st st' : State) : Prop :=
  forall c d, ClassHeap st !! c = Some d ->
    exists d', ClassHeap st' !! c = Some d' /\
      SuperClasses d' = SuperClasses d.

(** Every descriptor of [st] is still there in [st'] with the same
    [Fields], [Properties] and [Functions]. *)
Definition tables_kept (st st' : State) : Prop :=
  forall c d, ClassHeap st !! c = Some d ->
    exists d', ClassHeap st' !! c = Some d' /\
      Fields d' = Fields d /\ Properties d' = Properties d /\
      Functions d' = Functions d.

(** [extends st st']: [st'] is [st] with more registered types.  What
    was registered stays registered, every descriptor of [st] is
    unchanged, a descriptor that is new in [st'] is loaded and has
    empty tables, and the heaps of field, property and function
    descriptors are the same. *)
Definition extends (st st' : State) : Prop :=
  (forall T c, Classes st !! T = Some c -> Classes st' !! T = Some c) /\
  (forall c d, ClassHeap st !! c = Some d -> ClassHeap st' !! c = Some d) /\
  (forall c d, ClassHeap st' !! c = Some d ->
     ClassHeap st !! c = Some d \/
     (Fields d = ∅ /\ Properties d = [] /\ Functions d = [] /\
      is_Some (Struct d))) /\
  FieldHeap st' = FieldHeap st /\ PropHeap st' = PropHeap st /\
  FuncHeap st' = FuncHeap st.

(** What no operation on an existing descriptor changes. *)
Definition static_part (d : FClassDesc) :=
  (ClassName d, bIsScriptStruct d, bIsClass d, bIsInterface d, bIsNative d,
   UserdataPadding d, StructSize d, FunctionCollection d, SuperClasses d).

Definition tables (d : FClassDesc) :=
  (Fields d, Properties d, Functions d).

(** [keeps d d']: [d'] is [d] up to its tables, its reference count
    and the binding of a [Struct] that was null. *)
Definition keeps (d d' : FClassDesc) : Prop :=
  static_part d' = static_part d /\
  (forall s, Struct d = Some s -> Struct d' = Some s).

(** [evolves name r d d']: what a [RegisterField] for the name of key
    [name] that returned [r] may have done to a descriptor: nothing
    to its tables, or the one new entry [name ↦ r]. *)
Definition evolves (name : string) (r : option FieldPtr)
    (d d' : FClassDesc) : Prop :=
  keeps d d' /\
  (tables d' = tables d \/
   exists fp, r = Some fp /\ Fields d !! name = None /\
     Fields d' = <[name := fp]> (Fields d)).

(** The ancestors of a type, nearest first, as the host reports them. *)
Inductive IsChain (h : Host) : option UStruct -> list UStruct -> Prop :=
| IsChain_nil : IsChain h None []
| IsChain_cons s Ts :
    IsChain h (GetInheritanceSuper h s) Ts -> IsChain h (Some s) (s :: Ts).

(** The ways a call can return. *)
Inductive RegisterField_case (f : nat) (h : Host) (c : ClassPtr)
    (name : FName) (Q : ClassPtr) (st1 : State) (d : FClassDesc)
    (s : UStruct) : option FieldPtr -> State -> Prop :=
| RF_cached fp :
    Fields d !! FName.key name = Some fp ->
    RegisterField_case f h c name Q st1 d s (Some fp) st1
| RF_unknown :
    Fields d !! FName.key name = None -> ClassifyField h d s name = None ->
    RegisterField_case f h c name Q st1 d s None st1
| RF_no_outer m :
    Fields d !! FName.key name = None -> ClassifyField h d s name = Some m ->
    MemberOuter h m = None ->
    RegisterField_case f h c name Q st1 d s None st1
| RF_local m fp st' :
    Fields d !! FName.key name = None -> ClassifyField h d s name = Some m ->
    MemberOuter h m = Some s ->
    RegisterLocal c d m name Q st1 = (fp, st') ->
    RegisterField_case f h c name Q st1 d s (Some fp) st'
| RF_redirect m o oc st2 r st' :
    Fields d !! FName.key name = None -> ClassifyField h d s name = Some m ->
    MemberOuter h m = Some o -> o ≠ s ->
    RegisterReflectedType f h o st1 = Ok (oc, st2) ->
    RegisterField f h oc name Q st2 = Ok (r, st') ->
    RegisterField_case f h c name Q st1 d s r st'.

(** ** Reachable states and their invariants *)

(** The engine's lookups take [FName]s: they answer the same for two
    spellings of one name. *)
Definition HostCI (h : Host) : Prop :=
  forall s n n', FName.key n = FName.key n' ->
    FindPropertyByName h s n = FindPropertyByName h s n' /\
    FindFunctionByName h s n = FindFunctionByName h s n'.

(** Every cached entry names a member that the descriptor's own live
    type declares: the entry is the key of a name that classifies to
    a member whose outer is the descriptor's [Struct] itself, never
    another (ancestor) type. *)
Definition FieldsSound (h : Host) (st : State) : Prop :=
  forall c d k fp,
    ClassHeap st !! c = Some d -> Fields d !! k = Some fp ->
    exists name s m, FName.key name = k /\ Struct d = Some s /\
      ClassifyField h d s name = Some m /\ MemberOuter h m = Some s.

(** Every cached entry points to a live field descriptor whose
    [OuterClass] is the descriptor that caches it. *)
Definition FieldsOwned (st : State) : Prop :=
  forall c d name fp,
    ClassHeap st !! c = Some d -> Fields d !! name = Some fp ->
    exists fd, FieldHeap st !! fp = Some fd /\ OuterClass fd = c.

Definition Inv (h : Host) (st : State) : Prop :=
  FieldsSound h st /\ FieldsOwned st.

(** The states the operations of this file produce, from the empty
    registry, against a host [h] that answers the same throughout. *)
Inductive Reachable (h : Host) : State -> Prop :=
| Reach_init : Reachable h InitState
| Reach_RegisterReflectedType fuel T st c st' :
    Reachable h st -> RegisterReflectedType fuel h T st = Ok (c, st') ->
    Reachable h st'
| Reach_RegisterField fuel c name Q st r st' :
    Reachable h st -> RegisterField fuel h c name Q st = Ok (r, st') ->
    Reachable h st'
| Reach_FindField c name st r st' :
    Reachable h st -> FindField h c name st = Ok (r, st') ->
    Reachable h st'
| Reach_Load c st st' :
    Reachable h st -> Load h c st = Ok st' -> Reachable h st'
| Reach_UnLoad c st st' :
    Reachable h st -> UnLoad c st = Ok st' -> Reachable h st'
| Reach_AddRef c st st' :
    Reachable h st -> AddRef c st = Ok st' -> Reachable h st'
| Reach_SubRef c st st' :
    Reachable h st -> SubRef c st = Ok st' -> Reachable h st'.

(** ** Concrete hosts used to exercise the statements *)

Module Demo.

(** Three native classes [C] (3) → [B] (2) → [A] (1).  [A] declares
    the property [Health] (10), [B] the function [Jump] (20); the
    property [Ghost] (11) has an owner that is no [UStruct]. *)
Definition ChainHost : Host :=
  {| IsA_UScriptStruct := fun _ => false;
     IsA_UClass := fun _ => true;
     HasClassFlag_Interface := fun _ => false;
     UInterface_StaticClass := 0;
     IsNative := fun _ => true;
     GetStructureSize := fun _ => 8%Z;
     Interfaces := fun _ => [];
     GetCppStructOps := fun _ => None;
     GetMinAlignment := fun _ => 8%Z;
     CalcUserdataPadding := fun _ => 0%Z;
     GetInheritanceSuper :=
       fun s => match s with 3 => Some 2 | 2 => Some 1 | _ => None end;
     GetMetatableName :=
       fun s => match s with 3 => "UC" | 2 => "UB" | _ => "UA" end%string;
     GDefaultParamCollection := ∅;
     FindPropertyByName :=
       fun _ n => if String.eqb (FName.key n) "HEALTH" then Some 10
                  else if String.eqb (FName.key n) "GHOST" then Some 11
                  else None;
     FindFunctionByName :=
       fun s n => if String.eqb (FName.key n) "JUMP"
                  then match s with 2 | 3 => Some 20 | _ => None end
                  else None;
     DirectProperties := fun s => match s with 1 => [10] | _ => [] end;
     Property_GetName :=
       fun p => match p with 10 => "Health" | _ => "Ghost" end%string;
     PropertyOuter := fun p => match p with 10 => Some 1 | _ => None end;
     FunctionOuter := fun _ => Some 2;
     FindObject :=
       fun n => if String.eqb n "C" then Some 3
                else if String.eqb n "B" then Some 2
                else if String.eqb n "A" then Some 1 else None;
     LoadObject := fun _ => None |}.

(** A user-defined (non-native) struct (5) whose only property (30)
    carries a generated name. *)
Definition StructHost : Host :=
  {| IsA_UScriptStruct := fun _ => true;
     IsA_UClass := fun _ => false;
     HasClassFlag_Interface := fun _ => false;
     UInterface_StaticClass := 0;
     IsNative := fun _ => false;
     GetStructureSize := fun _ => 4%Z;
     Interfaces := fun _ => [];
     GetCppStructOps := fun _ => None;
     GetMinAlignment := fun _ => 4%Z;
     CalcUserdataPadding := fun _ => 0%Z;
     GetInheritanceSuper := fun _ => None;
     GetMetatableName := fun _ => "FStats"%string;
     GDefaultParamCollection := ∅;
     FindPropertyByName :=
       fun _ n =>
         if String.eqb (FName.key n)
              "HEALTH_01234567890123456789012345678901_3"
         then Some 30 else None;
     FindFunctionByName := fun _ _ => None;
     DirectProperties := fun _ => [30];
     Property_GetName :=
       fun _ => "Health_01234567890123456789012345678901_3"%string;
     PropertyOuter := fun _ => Some 5;
     FunctionOuter := fun _ => None;
     FindObject := fun n => if String.eqb n "Stats" then Some 5 else None;
     LoadObject := fun _ => None |}.

(** The classes of [ChainHost] after a reload that dropped the
    property [Health] from [A]. *)
Definition ReloadedHost : Host :=
  {| IsA_UScriptStruct := fun _ => false;
     IsA_UClass := fun _ => true;
     HasClassFlag_Interface := fun _ => false;
     UInterface_StaticClass := 0;
     IsNative := fun _ => true;
     GetStructureSize := fun _ => 8%Z;
     Interfaces := fun _ => [];
     GetCppStructOps := fun _ => None;
     GetMinAlignment := fun _ => 8%Z;
     CalcUserdataPadding := fun _ => 0%Z;
     GetInheritanceSuper :=
       fun s => match s with 3 => Some 2 | 2 => Some 1 | _ => None end;
     GetMetatableName :=
       fun s => match s with 3 => "UC" | 2 => "UB" | _ => "UA" end%string;
     GDefaultParamCollection := ∅;
     FindPropertyByName := fun _ _ => None;
     FindFunctionByName :=
       fun s n => if String.eqb (FName.key n) "JUMP"
                  then match s with 2 | 3 => Some 20 | _ => None end
                  else None;
     DirectProperties := fun _ => [];
     Property_GetName := fun _ => "Ghost"%string;
     PropertyOuter := fun _ => None;
     FunctionOuter := fun _ => Some 2;
     FindObject :=
       fun n => if String.eqb n "C" then Some 3
                else if String.eqb n "B" then Some 2
                else if String.eqb n "A" then Some 1 else None;
     LoadObject := fun _ => None |}.

Definition state_of {A} (r : Res (A * State)) : State :=
  match r with
  | Ok (_, st) => st
  | _ => InitState
  end.

(** [C], [B] and [A] registered: descriptors 2, 1 and 0. *)
Definition ChainState : State :=
  state_of (RegisterReflectedType 4 ChainHost 3 InitState).

(** [Health] registered through [A]'s own descriptor. *)
Definition ChainState1 : State :=
  state_of (RegisterField 3 ChainHost 0 "Health" 0 ChainState).

(** The struct registered: descriptor 0. *)
Definition StructState : State :=
  state_of (RegisterReflectedType 4 StructHost 5 InitState).

End Demo.

(** ** [FClassDesc::~FClassDesc]

    The destructor deletes every field, property and function
    descriptor the object owns; the object itself then ceases to
    exist.  The registry entry is not the destructor's business. *)
Definition Destructor (this : ClassPtr) (st : State) : Res State :=
  run d <~ deref this st;
  Ok (mkState (Classes st)
        (delete this (ClassHeap st))
        (delete_all (map_to_list (Fields d)).*2 (FieldHeap st))
        (delete_all (Properties d) (PropHeap st))
        (delete_all (Functions d) (FuncHeap st))).

(** ** Elementary state changes

    Every operation of the file is a sequence of these. *)

(** The changes that only add: binding a null [Struct], a new
    reference count, one local registration, one new descriptor. *)
Inductive Grow (h : Host) (st : State) : State -> Prop :=
| Grow_bind c d s :
    ClassHeap st !! c = Some d -> Struct d = None ->
    Grow h st (put_desc c (set_Struct (Some s) d) st)
| Grow_ref c d v :
    ClassHeap st !! c = Some d ->
    Grow h st (put_desc c (set_RefCount v d) st)
| Grow_local c d s m name Q fp st' :
    ClassHeap st !! c = Some d -> Struct d = Some s ->
    Fields d !! FName.key name = None ->
    ClassifyField h d s name = Some m -> MemberOuter h m = Some s ->
    RegisterLocal c d m name Q st = (fp, st') ->
    Grow h st st'
| Grow_new T c d :
    ClassHeap st !! c = None ->
    Fields d = ∅ -> Properties d = [] -> Functions d = [] ->
    is_Some (Struct d) ->
    FunctionCollection d
      = (if bIsClass d
         then FName.find (GDefaultParamCollection h) (ClassName d)
         else None) ->
    Grow h st (mkState (<[T := c]> (Classes st)) (<[c := d]> (ClassHeap st))
                 (FieldHeap st) (PropHeap st) (FuncHeap st)).

(** The state [UnLoad] leaves for a bound descriptor [d] at [c]. *)
Definition unloaded_state (c : ClassPtr) (d : FClassDesc) (st : State) : State :=
  mkState (Classes st)
    (<[c := set_Struct None (set_tables ∅ [] [] d)]> (ClassHeap st))
    (delete_all (map_to_list (Fields d)).*2 (FieldHeap st))
    (delete_all (Properties d) (PropHeap st))
    (delete_all (Functions d) (FuncHeap st)).

Inductive PrimStep (h : Host) (st : State) : State -> Prop :=
| Prim_grow st' : Grow h st st' -> PrimStep h st st'
| Prim_unload c d :
    ClassHeap st !! c = Some d -> is_Some (Struct d) ->
    PrimStep h st (unloaded_state c d st).

(** [grows st st']: nothing of [st] was removed or altered.  Every
    descriptor is still there with its cached fields, and its
    [Properties] and [Functions] as prefixes of the new ones; every
    live field, property and function descriptor is still live and
    unchanged. *)
Definition grows (st st' : State) : Prop :=
  (forall c d, ClassHeap st !! c = Some d ->
     exists d', ClassHeap st' !! c = Some d' /\ keeps d d' /\
       Fields d ⊆ Fields d' /\
       Properties d `prefix_of` Properties d' /\
       Functions d `prefix_of` Functions d') /\
  FieldHeap st ⊆ FieldHeap st' /\ PropHeap st ⊆ PropHeap st' /\
  FuncHeap st ⊆ FuncHeap st'.

(** ** Ownership of the heaps *)

(** The field descriptors a class descriptor points to. *)
Definition field_ptrs (d : FClassDesc) : list FieldPtr :=
  (map_to_list (Fields d)).*2.

(** [Owned get CH H]: the pointers that the descriptors of [CH] keep
    in the container [get], against the heap [H] of the objects they
    point to.  Each stored pointer is live; no container holds a
    pointer twice; no two descriptors hold the same pointer; and every
    live object is held by some descriptor. *)
Record Owned {A} (get : FClassDesc -> list nat)
    (CH : gmap ClassPtr FClassDesc) (H : gmap nat A) : Prop := {
  ow_live : forall c d p, CH !! c = Some d -> p ∈ get d -> is_Some (H !! p);
  ow_nodup : forall c d, CH !! c = Some d -> NoDup (get d);
  ow_owner : forall c1 d1 c2 d2 p,
    CH !! c1 = Some d1 -> CH !! c2 = Some d2 ->
    p ∈ get d1 -> p ∈ get d2 -> c1 = c2;
  ow_used : forall p, is_Some (H !! p) ->
    exists c d, CH !! c = Some d /\ p ∈ get d
}.

(** What holds of the heaps in every reachable state. *)
Record HeapInv (st : State) : Prop := {
  hi_fields : Owned field_ptrs (ClassHeap st) (FieldHeap st);
  hi_props : Owned Properties (ClassHeap st) (PropHeap st);
  hi_funcs : Owned Functions (ClassHeap st) (FuncHeap st);
  hi_count : forall c d,
    ClassHeap st !! c = Some d ->
    size (Fields d) = length (Properties d) + length (Functions d);
  hi_unbound : forall c d,
    ClassHeap st !! c = Some d -> Struct d = None ->
    Fields d = ∅ /\ Properties d = [] /\ Functions d = []
}.

(** The default parameters [RegisterField] hands to a new function
    descriptor. *)
Definition DefaultParamsOf (d : FClassDesc) (FieldName : FName)
    : option FParameterCollection :=
  match FunctionCollection d with
  | Some fc => FName.find fc FieldName
  | None => None
  end.

(** What a field index stands for: the position [k] of the property
    or function descriptor, encoded as [RegisterLocal] does. *)
Definition property_index (k : nat) : Z := wrap32 (wrap32 (Z.of_nat k) + 1).
Definition function_index (k : nat) : Z := wrap32 (- property_index k).

(** Every cached field resolves: it is stored under the key of a name
    that denotes a member [m] of the descriptor's own type, and its
    index is the encoded position of the property or function
    descriptor built for [m]. *)
Definition IndexInv (h : Host) (st : State) : Prop :=
  forall c d k fp fd,
    ClassHeap st !! c = Some d -> Fields d !! k = Some fp ->
    FieldHeap st !! fp = Some fd ->
    exists name s m, FName.key name = k /\ Struct d = Some s /\
      ClassifyField h d s name = Some m /\
      MemberOuter h m = Some s /\
      match m with
      | MProperty p =>
          exists k pd, Properties d !! k = Some pd /\
            PropHeap st !! pd = Some (mkPropertyDesc p) /\
            FieldIndex fd = property_index k
      | MFunction f =>
          exists k fn, Functions d !! k = Some fn /\
            FuncHeap st !! fn = Some (mkFunctionDesc f (DefaultParamsOf d name)) /\
            FieldIndex fd = function_index k
      end.

(** Only class descriptors hold function descriptors. *)
Definition FunctionsOnlyOnClasses (st : State) : Prop :=
  forall c d, ClassHeap st !! c = Some d ->
    Functions d ≠ [] -> bIsClass d = true.

(** The default-parameter table a descriptor is bound to is the one
    the global collection has under its class name, for a class, and
    none otherwise. *)
Definition CollectionBound (h : Host) (st : State) : Prop :=
  forall c d, ClassHeap st !! c = Some d ->
    FunctionCollection d
    = if bIsClass d then FName.find (GDefaultParamCollection h) (ClassName d)
      else None.

(** ** One more concrete host *)

Module Demo2.

(** A native class [Hero] (4) implementing the interfaces 6 and 7,
    with the function [Jump] (20) whose defaults are on record (99). *)
Definition HeroHost : Host :=
  {| IsA_UScriptStruct := fun _ => false;
     IsA_UClass := fun _ => true;
     HasClassFlag_Interface := fun s => match s with 6 | 7 => true | _ => false end;
     UInterface_StaticClass := 0;
     IsNative := fun _ => true;
     GetStructureSize := fun _ => 16%Z;
     Interfaces := fun s => match s with 4 => [6; 7] | _ => [] end;
     GetCppStructOps := fun _ => None;
     GetMinAlignment := fun _ => 8%Z;
     CalcUserdataPadding := fun _ => 0%Z;
     GetInheritanceSuper := fun _ => None;
     GetMetatableName :=
       fun s => match s with 4 => "UHero" | 6 => "UMovable" | _ => "UOther" end%string;
     GDefaultParamCollection :=
       {[ "UHero"%string := {[ "Jump"%string := 99 ]} ]};
     FindPropertyByName := fun _ _ => None;
     FindFunctionByName :=
       fun s n => if String.eqb (FName.key n) "JUMP"
                  then match s with 4 => Some 20 | _ => None end
                  else None;
     DirectProperties := fun _ => [];
     Property_GetName := fun _ => ""%string;
     PropertyOuter := fun _ => None;
     FunctionOuter := fun _ => Some 4;
     FindObject := fun n => if String.eqb n "Hero" then Some 4 else None;
     LoadObject := fun _ => None |}.

(** [Hero] registered (descriptor 2, after its interfaces 0 and 1),
    and then [Jump] registered on it, spelled [JUMP]. *)
Definition HeroState : State :=
  Demo.state_of (RegisterReflectedType 4 HeroHost 4 InitState).

Definition HeroState1 : State :=
  Demo.state_of (RegisterField 2 HeroHost 2 "JUMP" 2 HeroState).

End Demo2.

(** The host [h] with another table of functions. *)
Definition with_functions (g : UStruct -> FName -> option UFunction)
    (h : Host) : Host :=
  {| IsA_UScriptStruct := IsA_UScriptStruct h;
     IsA_UClass := IsA_UClass h;
     HasClassFlag_Interface := HasClassFlag_Interface h;
     UInterface_StaticClass := UInterface_StaticClass h;
     IsNative := IsNative h;
     GetStructureSize := GetStructureSize h;
     Interfaces := Interfaces h;
     GetCppStructOps := GetCppStructOps h;
     GetMinAlignment := GetMinAlignment h;
     CalcUserdataPadding := CalcUserdataPadding h;
     GetInheritanceSuper := GetInheritanceSuper h;
     GetMetatableName := GetMetatableName h;
     GDefaultParamCollection := GDefaultParamCollection h;
     FindPropertyByName := FindPropertyByName h;
     FindFunctionByName := g;
     DirectProperties := DirectProperties h;
     Property_GetName := Property_GetName h;
     PropertyOuter := PropertyOuter h;
     FunctionOuter := FunctionOuter h;
     FindObject := FindObject h;
     LoadObject := LoadObject h |}.

(** [persists st st']: the registry still knows every type it knew,
    and every descriptor is still there with the identity it was
    constructed with (name, kind flags, size, padding, default
    parameter table, [SuperClasses]). *)
Definition persists (st st' : State) : Prop :=
  (forall T c, Classes st !! T = Some c -> Classes st' !! T = Some c) /\
  (forall c d, ClassHeap st !! c = Some d ->
     exists d', ClassHeap st' !! c = Some d' /\
       static_part d' = static_part d).

(** * Properties *)

(** ** Elementary facts *)

Lemma bindR_Ok {A B} (m : Res A) (k : A -> Res B) (b : B) :
  bindR m k = Ok b -> exists a, m = Ok a /\ k a = Ok b.
Proof. destruct m; simpl; intros E; try discriminate. eauto. Qed.

Lemma deref_Ok c st d : deref c st = Ok d <-> ClassHeap st !! c = Some d.
Proof.
  unfold deref. destruct (ClassHeap st !! c); split; intros E;
    inversion E; subst; reflexivity.
Qed.

Lemma deref_put_eq c d st : deref c (put_desc c d st) = Ok d.
Proof. apply deref_Ok. simpl. apply lookup_insert_eq. Qed.

Lemma new_addr_fresh {A} (H : gmap nat A) : H !! new_addr H = None.
Proof.
  unfold new_addr. apply not_elem_of_dom. apply is_fresh.
Qed.

Lemma new_addr_ne {A} (H : gmap nat A) p : is_Some (H !! p) -> p ≠ new_addr H.
Proof.
  intros [x Hx] ->. rewrite new_addr_fresh in Hx. discriminate.
Qed.

Lemma delete_all_notin {A} (ps : list nat) (H : gmap nat A) p :
  p ∉ ps -> delete_all ps H !! p = H !! p.
Proof.
  induction ps as [|q ps IH]; simpl; intros Hn; [reflexivity|].
  apply not_elem_of_cons in Hn as [Hne Hn].
  rewrite lookup_delete_ne by congruence. auto.
Qed.

(** ** Names *)

Lemma ToUpperChar_idem c :
  FString.ToUpperChar (FString.ToUpperChar c) = FString.ToUpperChar c.
Proof.
  destruct c as [[] [] [] [] [] [] [] []]; vm_compute; reflexivity.
Qed.

Lemma ToUpper_idem s : FString.ToUpper (FString.ToUpper s) = FString.ToUpper s.
Proof.
  induction s as [|a s IH]; simpl; [reflexivity|].
  rewrite ToUpperChar_idem, IH. reflexivity.
Qed.

(** The key of a name is the key of itself: it stands for the name. *)
Lemma key_idem n : FName.key (FName.key n) = FName.key n.
Proof.
  destruct n as [|a n]; [vm_compute; reflexivity|].
  change (FName.key (String a n)) with (FString.ToUpper (String a n)).
  simpl. rewrite ToUpperChar_idem, ToUpper_idem. reflexivity.
Qed.

(** The text of a name, in upper case, is its key. *)
Lemma ToUpper_ToString n : FString.ToUpper (FName.ToString n) = FName.key n.
Proof.
  unfold FName.ToString.
  destruct (String.eqb_spec (FName.key n) "NONE") as [E|E].
  - rewrite E. vm_compute. reflexivity.
  - destruct n as [|a n]; [exfalso; apply E; reflexivity|]. reflexivity.
Qed.

(** [DisplayName == FieldName.ToString()] looks at the key only. *)
Lemma Equals_ToString x n :
  FString.Equals x (FName.ToString n)
  = String.eqb (FString.ToUpper x) (FName.key n).
Proof. unfold FString.Equals. rewrite ToUpper_ToString. reflexivity. Qed.

Lemma find_key {V} (m : gmap string V) n n' :
  FName.key n = FName.key n' -> FName.find m n = FName.find m n'.
Proof. intros E. unfold FName.find. rewrite E. reflexivity. Qed.

Lemma find_ext_in {A} (f g : A -> bool) (l : list A) :
  (forall x, f x = g x) -> List.find f l = List.find g l.
Proof.
  intros E. induction l as [|a l IH]; simpl; [reflexivity|].
  rewrite E, IH. reflexivity.
Qed.

Lemma FindRecoveredProperty_key h s n n' :
  FName.key n = FName.key n' ->
  FindRecoveredProperty h s n = FindRecoveredProperty h s n'.
Proof.
  intros E. unfold FindRecoveredProperty. apply find_ext_in.
  intros p. rewrite !Equals_ToString, E. reflexivity.
Qed.

(** Against a host that compares [FName]s, the classification of a
    name does not depend on how it is spelled. *)
Lemma ClassifyField_key h d s n n' :
  HostCI h -> FName.key n = FName.key n' ->
  ClassifyField h d s n = ClassifyField h d s n'.
Proof.
  intros CI E. unfold ClassifyField.
  destruct (CI s n n' E) as [-> ->].
  rewrite (FindRecoveredProperty_key h s n n' E). reflexivity.
Qed.

(** Tactic: split a successful monadic sequence into its steps. *)
Ltac run_inv H :=
  let a := fresh "a" in
  let E := fresh "E" in
  apply bindR_Ok in H as (a & E & H).

(** ** [Load] *)

Lemma Load_loaded h c st d s :
  ClassHeap st !! c = Some d -> Struct d = Some s -> Load h c st = Ok st.
Proof.
  intros Hd Hs. unfold Load. apply deref_Ok in Hd. rewrite Hd. simpl.
  rewrite Hs. reflexivity.
Qed.

(** A successful [Load] either found the type loaded and did nothing,
    or bound the null [Struct] to the type the name resolves to. *)
Lemma Load_Ok_inv h c st st' :
  Load h c st = Ok st' ->
  exists d, ClassHeap st !! c = Some d /\
    ((is_Some (Struct d) /\ st' = st) \/
     (Struct d = None /\
      exists n s, LoadName (ClassName d) = Ok n /\ ResolveStruct h n = Some s /\
                  st' = put_desc c (set_Struct (Some s) d) st)).
Proof.
  unfold Load. intros H. run_inv H. apply deref_Ok in E.
  exists a. split; [exact E|].
  destruct (Struct a) as [s|] eqn:Hs.
  - left. inversion H. eauto.
  - right. split; [reflexivity|]. run_inv H.
    destruct (ResolveStruct h a0) as [s|] eqn:Hr; [|discriminate].
    inversion H. eauto.
Qed.

(** After a successful [Load] the descriptor is there, bound to a live
    type, and differs from before in [Struct] at most. *)
Lemma Load_Ok_desc h c st st' :
  Load h c st = Ok st' ->
  exists d s, ClassHeap st !! c = Some d /\
    ClassHeap st' !! c = Some (set_Struct (Some s) d) /\
    (is_Some (Struct d) -> st' = st).
Proof.
  intros H. apply Load_Ok_inv in H as (d & Hd & [[[s Hs] ->]|(Hn & n & s & _ & _ & ->)]).
  - exists d, s. split; [exact Hd|]. split; [|reflexivity].
    rewrite Hd. f_equal. destruct d; simpl in *. subst. reflexivity.
  - exists d, s. split; [exact Hd|]. split.
    + simpl. apply lookup_insert_eq.
    + intros [x Hx]. congruence.
Qed.

(** [Load] touches no other descriptor, no registry entry and no heap
    of field, property or function descriptors. *)
Lemma Load_frame h c st st' :
  Load h c st = Ok st' ->
  Classes st' = Classes st /\ FieldHeap st' = FieldHeap st /\
  PropHeap st' = PropHeap st /\ FuncHeap st' = FuncHeap st /\
  (forall c', c' ≠ c -> ClassHeap st' !! c' = ClassHeap st !! c').
Proof.
  intros H. apply Load_Ok_inv in H as (d & Hd & [[_ ->]|(Hn & n & s & _ & _ & ->)]).
  - repeat split; reflexivity.
  - repeat split; try reflexivity. intros c' Hne. simpl.
    apply lookup_insert_ne. congruence.
Qed.

(** What a descriptor looks like after a [Load] of [c], for every
    descriptor pointer: same tables, same flags, same ancestors. *)
Lemma Load_desc_any h c st st' c' d' :
  Load h c st = Ok st' -> ClassHeap st !! c' = Some d' ->
  exists s', ClassHeap st' !! c' = Some (set_Struct s' d') /\
    (is_Some (Struct d') -> s' = Struct d').
Proof.
  intros H Hd'. destruct (decide (c' = c)) as [->|Hne].
  - apply Load_Ok_desc in H as (d & s & Hd & Hd1 & Hsame).
    assert (d' = d) by congruence. subst d'.
    exists (Some s). split; [exact Hd1|].
    intros Hs. specialize (Hsame Hs). subst st'.
    rewrite Hd in Hd1. inversion Hd1 as [E]. rewrite E at 1.
    simpl. reflexivity.
  - apply Load_frame in H as (_ & _ & _ & _ & Hf).
    exists (Struct d'). split; [|reflexivity].
    rewrite Hf by exact Hne. rewrite Hd'. f_equal. destruct d'; reflexivity.
Qed.

(** ** The registry and the constructor *)


Lemma extends_refl st : extends st st.
Proof. unfold extends. repeat split; auto. Qed.

Lemma extends_trans st1 st2 st3 :
  extends st1 st2 -> extends st2 st3 -> extends st1 st3.
Proof.
  intros (A1 & A2 & A3 & A4 & A5 & A6) (B1 & B2 & B3 & B4 & B5 & B6).
  unfold extends. repeat split; auto; try congruence.
  intros c d Hd. destruct (B3 _ _ Hd) as [H|H]; auto.
Qed.


Lemma IsChain_det h sup Ts1 Ts2 :
  IsChain h sup Ts1 -> IsChain h sup Ts2 -> Ts1 = Ts2.
Proof.
  intros H1. revert Ts2. induction H1 as [|s Ts H1 IH]; intros Ts2 H2;
    inversion H2; subst; [reflexivity|].
  f_equal. auto.
Qed.

Lemma IsChain_suffix h sup Ts T :
  IsChain h sup Ts -> T ∈ Ts ->
  exists post, IsChain h (GetInheritanceSuper h T) post /\
    length post < length Ts.
Proof.
  induction 1 as [|s Ts H IH]; intros Hin.
  - apply elem_of_nil in Hin. contradiction.
  - apply elem_of_cons in Hin as [->|Hin].
    + exists Ts. split; [exact H | simpl; lia].
    + destruct (IH Hin) as (post & Hp & Hl).
      exists post. split; [exact Hp | simpl; lia].
Qed.

(** A type with finitely many ancestors is not its own ancestor. *)
Lemma IsChain_no_self h T Ts :
  IsChain h (GetInheritanceSuper h T) Ts -> T ∉ Ts.
Proof.
  intros H Hin. destruct (IsChain_suffix _ _ _ _ H Hin) as (post & Hp & Hl).
  rewrite (IsChain_det _ _ _ _ Hp H) in Hl. lia.
Qed.

Section ConstructorFacts.
Variable reg : UStruct -> State -> Res (ClassPtr * State).
Variable h : Host.
Hypothesis reg_ok : forall T st c st',
  reg T st = Ok (c, st') -> extends st st' /\ Classes st' !! T = Some c.

Lemma RegisterInterfaces_extends l st st' :
  RegisterInterfaces reg l st = Ok st' -> extends st st'.
Proof.
  revert st. induction l as [|i l IH]; simpl; intros st H.
  - inversion H. apply extends_refl.
  - run_inv H. destruct a as [c st1].
    apply reg_ok in E as [E _]. eapply extends_trans; eauto.
Qed.

Lemma WalkSupers_spec n sup acc st l st' :
  WalkSupers reg h n sup acc st = Ok (l, st') ->
  extends st st' /\
  exists Ts cs, l = acc ++ cs /\ IsChain h sup Ts /\
    Forall2 (fun T c => Classes st' !! T = Some c) Ts cs.
Proof.
  revert sup acc st. induction n as [|n IH]; intros sup acc st H.
  - destruct sup as [s|]; simpl in H; [discriminate|].
    inversion H; subst. split; [apply extends_refl|].
    exists [], []. rewrite app_nil_r. repeat split; constructor.
  - destruct sup as [s|]; simpl in H.
    + run_inv H. destruct a as [c st1].
      apply reg_ok in E as [E Hc].
      apply IH in H as (Hext & Ts & cs & -> & Hch & Hall).
      split; [eapply extends_trans; eauto|].
      exists (s :: Ts), (c :: cs). rewrite <- app_assoc. simpl.
      split; [reflexivity|]. split; [constructor; exact Hch|].
      constructor; [|exact Hall].
      destruct Hext as (Hm & _). auto.
    + inversion H; subst. split; [apply extends_refl|].
      exists [], []. rewrite app_nil_r. repeat split; constructor.
Qed.

(** The descriptor the constructor returns: bound to [InStruct],
    empty tables, and the ancestors' registered descriptors as
    [SuperClasses], nearest ancestor first. *)
Lemma FClassDesc_ctor_spec n InStruct InName st d st' :
  FClassDesc_ctor reg h n InStruct InName st = Ok (d, st') ->
  extends st st' /\
  Struct d = Some InStruct /\ ClassName d = InName /\
  bIsClass d = IsA_UClass h InStruct /\
  bIsScriptStruct d = IsA_UScriptStruct h InStruct /\
  Fields d = ∅ /\ Properties d = [] /\ Functions d = [] /\
  exists Ts, IsChain h (GetInheritanceSuper h InStruct) Ts /\
    Forall2 (fun T c => Classes st' !! T = Some c) Ts (SuperClasses d).
Proof.
  unfold FClassDesc_ctor. intros H.
  run_inv H. destruct a as [[[pad sz] fc] st1].
  run_inv H. destruct a as [supers st2].
  inversion H; subst; clear H. simpl.
  apply WalkSupers_spec in E0 as (Hext2 & Ts & cs & Hl & Hch & Hall).
  simpl in Hl. subst supers.
  assert (Hext1 : extends st st1).
  { destruct (IsA_UClass h InStruct).
    - run_inv E. inversion E; subst.
      eapply RegisterInterfaces_extends; eauto.
    - destruct (IsA_UScriptStruct h InStruct);
        inversion E; subst; apply extends_refl. }
  split; [eapply extends_trans; eauto|].
  repeat split; eauto.
Qed.
End ConstructorFacts.

(** [RegisterReflectedType] returns the descriptor it has on record
    for the type, and only ever adds to the registry. *)
Lemma RegisterReflectedType_spec fuel h T st c st' :
  RegisterReflectedType fuel h T st = Ok (c, st') ->
  extends st st' /\ Classes st' !! T = Some c.
Proof.
  revert T st c st'. induction fuel as [|f IH]; intros T st c st' H;
    simpl in H; [discriminate|].
  destruct (Classes st !! T) as [c0|] eqn:HT.
  - inversion H; subst. split; [apply extends_refl | exact HT].
  - run_inv H. destruct a as [d st1]. inversion H; subst; clear H.
    apply (FClassDesc_ctor_spec _ h (IH)) in E
      as (Hext & Hs & _ & _ & _ & HF & HP & HFn & _).
    split; [|simpl; apply lookup_insert_eq].
    destruct Hext as (A1 & A2 & A3 & A4 & A5 & A6).
    unfold extends; simpl. repeat split; auto.
    + intros T' c' HT'. rewrite lookup_insert_ne; [auto|].
      intros ->. congruence.
    + intros c' d' Hd'. rewrite lookup_insert_ne; [auto|].
      intros <-. apply A2 in Hd'. rewrite new_addr_fresh in Hd'. discriminate.
    + intros c' d' Hd'.
      destruct (decide (c' = new_addr (ClassHeap st1))) as [->|Hne].
      * rewrite lookup_insert_eq in Hd'. inversion Hd'; subst d'.
        right. rewrite Hs. eauto.
      * rewrite lookup_insert_ne in Hd' by congruence. auto.
Qed.

(** When the type is already registered the call changes nothing. *)
Lemma RegisterReflectedType_known fuel h T st c :
  Classes st !! T = Some c ->
  RegisterReflectedType (S fuel) h T st = Ok (c, st).
Proof. intros HT. simpl. rewrite HT. reflexivity. Qed.

(** A descriptor built by this very call: it is new, bound to the
    type, and lists the ancestors' descriptors nearest first. *)
Lemma RegisterReflectedType_fresh fuel h T st c st' :
  Classes st !! T = None ->
  RegisterReflectedType fuel h T st = Ok (c, st') ->
  exists d Ts, ClassHeap st' !! c = Some d /\ ClassHeap st !! c = None /\
    Struct d = Some T /\
    bIsClass d = IsA_UClass h T /\
    bIsScriptStruct d = IsA_UScriptStruct h T /\
    Fields d = ∅ /\ Properties d = [] /\ Functions d = [] /\
    IsChain h (GetInheritanceSuper h T) Ts /\
    Forall2 (fun T' c' => T' ≠ T /\ Classes st' !! T' = Some c') Ts (SuperClasses d).
Proof.
  intros HT H. destruct fuel as [|f]; simpl in H; [discriminate|].
  rewrite HT in H. run_inv H. destruct a as [d st1].
  inversion H; subst; clear H.
  apply (FClassDesc_ctor_spec _ h (RegisterReflectedType_spec f h)) in E
    as (Hext & Hs & _ & Hc & Hss & HF & HP & HFn & Ts & Hch & Hall).
  exists d, Ts. simpl. rewrite lookup_insert_eq.
  repeat split; auto.
  - destruct Hext as (_ & A2 & _).
    destruct (ClassHeap st !! new_addr (ClassHeap st1)) eqn:Hx; [|reflexivity].
    apply A2 in Hx. rewrite new_addr_fresh in Hx. discriminate.
  - (* [T] is entered last; it is none of its own ancestors *)
    pose proof (IsChain_no_self _ _ _ Hch) as Hself.
    clear -Hall Hself. induction Hall as [|T' c' Ts cs HT' Hall IH];
      constructor.
    + apply not_elem_of_cons in Hself as [Hne _].
      split; [congruence|]. rewrite lookup_insert_ne by congruence. exact HT'.
    + apply IH. apply not_elem_of_cons in Hself as [_ Hs]. exact Hs.
Qed.

(** With a rank that decreases along ancestors and implemented
    interfaces, registration returns once the fuel exceeds the rank. *)
Section Termination.
Variable h : Host.
Variable rank : UStruct -> nat.
Hypothesis rank_super : forall T s,
  GetInheritanceSuper h T = Some s -> rank s < rank T.
Hypothesis rank_iface : forall T i,
  i ∈ Interfaces h T -> rank i < rank T.

Lemma RegisterInterfaces_total reg R l :
  (forall s st, rank s < R -> exists c st', reg s st = Ok (c, st')) ->
  (forall i, i ∈ l -> rank i < R) ->
  forall st, exists st', RegisterInterfaces reg l st = Ok st'.
Proof.
  intros Hreg. induction l as [|i l IH]; intros Hl st; simpl.
  - eauto.
  - destruct (Hreg i st) as (c & st1 & ->); [apply Hl; left|]. simpl.
    apply IH. intros j Hj. apply Hl. right. exact Hj.
Qed.

Lemma WalkSupers_total reg R n :
  (forall s st, rank s < R -> exists c st', reg s st = Ok (c, st')) ->
  forall sup acc st,
    (forall s, sup = Some s -> rank s < R /\ rank s < n) ->
    exists l st', WalkSupers reg h n sup acc st = Ok (l, st').
Proof.
  intros Hreg. induction n as [|n IH]; intros sup acc st Hs.
  - destruct sup as [s|]; simpl; [|eauto].
    destruct (Hs s eq_refl). lia.
  - destruct sup as [s|]; simpl; [|eauto].
    destruct (Hs s eq_refl) as [HR Hn].
    destruct (Hreg s st HR) as (c & st1 & ->). simpl.
    apply IH. intros s' Hs'. apply rank_super in Hs'. lia.
Qed.

Lemma RegisterReflectedType_terminates fuel T st :
  rank T + 2 <= fuel ->
  exists c st', RegisterReflectedType fuel h T st = Ok (c, st').
Proof.
  revert T st. induction fuel as [|f IH]; intros T st Hf; [lia|].
  simpl. destruct (Classes st !! T) as [c|]; [eauto|].
  assert (Hreg : forall s st, rank s < rank T ->
            exists c st', RegisterReflectedType f h s st = Ok (c, st')).
  { intros s st0 Hs. apply IH. lia. }
  unfold FClassDesc_ctor.
  assert (Hpre : exists x, (if IsA_UClass h T
           then run st1 <~ RegisterInterfaces (RegisterReflectedType f h)
                             (Interfaces h T) st;
                Ok (0%Z, GetStructureSize h T,
                    FName.find (GDefaultParamCollection h)
                      (GetMetatableName h T), st1)
           else if IsA_UScriptStruct h T
           then Ok (CalcUserdataPadding h
                      match GetCppStructOps h T with
                      | Some (a, _) => a
                      | None => GetMinAlignment h T
                      end,
                    match GetCppStructOps h T with
                    | Some (_, sz) => sz
                    | None => GetStructureSize h T
                    end, None, st)
           else Ok (0%Z, 0%Z, None, st)) = Ok x).
  { destruct (IsA_UClass h T); [|destruct (IsA_UScriptStruct h T); eauto].
    destruct (RegisterInterfaces_total _ (rank T) (Interfaces h T) Hreg
                (rank_iface T) st) as (st1 & ->).
    simpl. eauto. }
  destruct Hpre as ([[[pad sz] fc] st1] & ->). simpl.
  destruct (WalkSupers_total (RegisterReflectedType f h) (rank T) f Hreg
              (GetInheritanceSuper h T) [] st1) as (l & st2 & ->).
  { intros s Hs. apply rank_super in Hs. lia. }
  simpl. eauto.
Qed.
End Termination.

(** ** [GetInheritanceChain] *)

Lemma GetInheritanceChain_Ok this d st (DescChain : list nat) :
  ClassHeap st !! this = Some d ->
  GetInheritanceChain this DescChain st
  = Ok (DescChain ++ this :: SuperClasses d).
Proof.
  intros Hd. unfold GetInheritanceChain.
  apply deref_Ok in Hd. rewrite Hd. simpl.
  rewrite <- app_assoc. reflexivity.
Qed.

(** C10: [GetInheritanceChain] appends to the sequence it is given:
    after the call the sequence is the given one, then this
    descriptor, then [SuperClasses]. *)
Theorem GetInheritanceChain_appends this d st (S0 : list nat) :
  ClassHeap st !! this = Some d ->
  GetInheritanceChain this S0 st = Ok (S0 ++ [this] ++ SuperClasses d).
Proof. intros Hd. simpl. apply GetInheritanceChain_Ok. exact Hd. Qed.

Lemma GetInheritanceChain_appends_witness :
  GetInheritanceChain 2 [7; 9] Demo.ChainState = Ok [7; 9; 2; 1; 0].
Proof.
  apply (GetInheritanceChain_appends 2
           (mkClassDesc (Some 3) "UC" false true false true 0 8 0 None
              [1; 0] ∅ [] [])).
  vm_compute. reflexivity.
Defined.

(** C7: a descriptor [C] built for a type whose ancestors are [B] and
    then [A] (the topmost) has the descriptors registered for [B] and
    [A] as its [SuperClasses], in that order, and
    [GetInheritanceChain] on an empty sequence yields [C; B; A]: the
    descriptor itself, then [SuperClasses] as stored. *)
Theorem GetInheritanceChain_three_levels fuel h st C B A c st' :
  GetInheritanceSuper h C = Some B ->
  GetInheritanceSuper h B = Some A ->
  GetInheritanceSuper h A = None ->
  Classes st !! C = None ->
  RegisterReflectedType fuel h C st = Ok (c, st') ->
  exists b a d,
    Classes st' !! C = Some c /\ Classes st' !! B = Some b /\
    Classes st' !! A = Some a /\
    ClassHeap st' !! c = Some d /\ SuperClasses d = [b; a] /\
    GetInheritanceChain c [] st' = Ok ([c] ++ SuperClasses d) /\
    GetInheritanceChain c [] st' = Ok [c; b; a].
Proof.
  intros HC HB HA Hnew H.
  pose proof (RegisterReflectedType_spec _ _ _ _ _ _ H) as [_ Hc].
  apply RegisterReflectedType_fresh in H
    as (d & Ts & Hd & _ & _ & _ & _ & _ & _ & _ & Hch & Hall); [|exact Hnew].
  assert (Ts = [B; A]) as ->.
  { eapply IsChain_det; [exact Hch|]. rewrite HC.
    constructor. rewrite HB. constructor. rewrite HA. constructor. }
  inversion Hall as [|? b ? l1 [_ Hb] Hall1 E1 E2]; subst.
  inversion Hall1 as [|? a ? l2 [_ Ha] Hall2 E1' E2']; subst.
  inversion Hall2; subst.
  exists b, a, d. repeat split; auto.
  - rewrite (GetInheritanceChain_Ok c d) by exact Hd. reflexivity.
  - rewrite (GetInheritanceChain_Ok c d) by exact Hd.
    simpl. congruence.
Qed.

Lemma GetInheritanceChain_three_levels_witness :
  exists b a d,
    Classes Demo.ChainState !! 3 = Some 2 /\
    Classes Demo.ChainState !! 2 = Some b /\
    Classes Demo.ChainState !! 1 = Some a /\
    ClassHeap Demo.ChainState !! 2 = Some d /\ SuperClasses d = [b; a] /\
    GetInheritanceChain 2 [] Demo.ChainState = Ok ([2] ++ SuperClasses d) /\
    GetInheritanceChain 2 [] Demo.ChainState = Ok [2; b; a].
Proof.
  apply (GetInheritanceChain_three_levels 4 Demo.ChainHost InitState 3 2 1);
    vm_compute; reflexivity.
Defined.

(** ** [UnLoad], and the cycle [Load(); UnLoad(); Load()] *)

Lemma UnLoad_Ok_inv c st st' :
  UnLoad c st = Ok st' ->
  exists d, ClassHeap st !! c = Some d /\
    ((Struct d = None /\ st' = st) \/
     (is_Some (Struct d) /\
      st' = mkState (Classes st)
              (<[c := set_Struct None (set_tables ∅ [] [] d)]> (ClassHeap st))
              (delete_all (map_to_list (Fields d)).*2 (FieldHeap st))
              (delete_all (Properties d) (PropHeap st))
              (delete_all (Functions d) (FuncHeap st)))).
Proof.
  unfold UnLoad. intros H. run_inv H. apply deref_Ok in E.
  exists a. split; [exact E|].
  destruct (Struct a) as [s|] eqn:Hs; inversion H; eauto.
Qed.

Lemma UnLoad_total c st d :
  ClassHeap st !! c = Some d -> exists st', UnLoad c st = Ok st'.
Proof.
  intros Hd. unfold UnLoad. apply deref_Ok in Hd. rewrite Hd. simpl.
  destruct (Struct d); eauto.
Qed.

Lemma Load_SuperClasses_kept h c st st' :
  Load h c st = Ok st' -> SuperClasses_kept st st'.
Proof.
  intros H c' d' Hd'.
  destruct (Load_desc_any _ _ _ _ _ _ H Hd') as (s' & Hd'' & _).
  eexists. split; [exact Hd''|]. reflexivity.
Qed.

Lemma UnLoad_SuperClasses_kept c st st' :
  UnLoad c st = Ok st' -> SuperClasses_kept st st'.
Proof.
  intros H c' d' Hd'.
  apply UnLoad_Ok_inv in H as (d & Hd & [[_ ->]|[_ ->]]); [eauto|].
  simpl. destruct (decide (c' = c)) as [->|Hne].
  - rewrite lookup_insert_eq. eexists. split; [reflexivity|].
    simpl. congruence.
  - rewrite lookup_insert_ne by congruence. eauto.
Qed.

Lemma SuperClasses_kept_trans st1 st2 st3 :
  SuperClasses_kept st1 st2 -> SuperClasses_kept st2 st3 ->
  SuperClasses_kept st1 st3.
Proof.
  intros H1 H2 c d Hd. destruct (H1 _ _ Hd) as (d' & Hd' & E1).
  destruct (H2 _ _ Hd') as (d'' & Hd'' & E2).
  exists d''. split; [exact Hd''|]. congruence.
Qed.

(** [UnLoad] of a bound descriptor leaves it unbound, with its three
    tables empty. *)
Lemma UnLoad_loaded_desc c st st' d :
  ClassHeap st !! c = Some d -> is_Some (Struct d) ->
  UnLoad c st = Ok st' ->
  ClassHeap st' !! c = Some (set_Struct None (set_tables ∅ [] [] d)).
Proof.
  intros Hd [s Hs] H.
  apply UnLoad_Ok_inv in H as (d0 & Hd0 & [[Hn _]|[_ ->]]).
  - congruence.
  - simpl. rewrite lookup_insert_eq. congruence.
Qed.

(** C5: after [Load(); UnLoad(); Load()] the descriptor's [Fields],
    [Properties] and [Functions] are empty (so no name registered
    before is present), and every descriptor's [SuperClasses] is what
    it was; the cycle completes whenever the class name resolves to a
    type; and neither [Load] nor [UnLoad] changes any [SuperClasses]. *)
Theorem Load_UnLoad_Load_roundtrip h this st d :
  ClassHeap st !! this = Some d ->
  (forall st3, LoadUnLoadLoad h this st = Ok st3 ->
     exists d3, ClassHeap st3 !! this = Some d3 /\
       (forall name, Fields d3 !! name = None) /\
       Fields d3 = ∅ /\ Properties d3 = [] /\ Functions d3 = [] /\
       SuperClasses d3 = SuperClasses d /\
       SuperClasses_kept st st3) /\
  (forall n s, LoadName (ClassName d) = Ok n -> ResolveStruct h n = Some s ->
     exists st3, LoadUnLoadLoad h this st = Ok st3) /\
  (forall st', Load h this st = Ok st' -> SuperClasses_kept st st') /\
  (forall st', UnLoad this st = Ok st' -> SuperClasses_kept st st').
Proof.
  intros Hd. repeat split.
  - intros st3 H. unfold LoadUnLoadLoad in H.
    run_inv H. rename a into st1. run_inv H. rename a into st2.
    pose proof (Load_SuperClasses_kept _ _ _ _ E) as K1.
    pose proof (UnLoad_SuperClasses_kept _ _ _ E0) as K2.
    pose proof (Load_SuperClasses_kept _ _ _ _ H) as K3.
    pose proof (SuperClasses_kept_trans _ _ _ K1
                  (SuperClasses_kept_trans _ _ _ K2 K3)) as K.
    apply Load_Ok_desc in E as (d0 & s & Hd0 & Hd1 & _).
    assert (d0 = d) by congruence. subst d0.
    eapply UnLoad_loaded_desc in E0; [|exact Hd1|simpl; eauto].
    apply Load_Ok_desc in H as (d2 & s2 & Hd2 & Hd3 & _).
    rewrite E0 in Hd2. inversion Hd2; subst d2.
    eexists. split; [exact Hd3|]. simpl.
    repeat split; auto; try (intros name; apply lookup_empty).
  - intros n s Hn Hr. unfold LoadUnLoadLoad.
    assert (exists st1 s1, Load h this st = Ok st1 /\
              ClassHeap st1 !! this = Some (set_Struct (Some s1) d))
      as (st1 & s1 & -> & Hd1).
    { unfold Load. apply deref_Ok in Hd. rewrite Hd. simpl.
      apply deref_Ok in Hd.
      destruct (Struct d) as [s1|] eqn:Hs.
      - exists st, s1. split; [reflexivity|]. rewrite Hd. f_equal.
        destruct d; simpl in *; subst; reflexivity.
      - rewrite Hn. simpl. rewrite Hr. exists
          (put_desc this (set_Struct (Some s) d) st), s.
        split; [reflexivity|]. simpl. apply lookup_insert_eq. }
    simpl. unfold UnLoad. apply deref_Ok in Hd1. rewrite Hd1. simpl.
    unfold Load, deref. simpl. rewrite lookup_insert_eq. simpl.
    rewrite Hn. simpl. rewrite Hr. eauto.
  - intros st'. apply Load_SuperClasses_kept.
  - intros st'. apply UnLoad_SuperClasses_kept.
Qed.

Lemma Load_UnLoad_Load_roundtrip_witness :
  exists d, ClassHeap Demo.ChainState1 !! 0 = Some d /\
    Fields d !! FName.key "Health" = Some 0 /\
    exists st3 d3, LoadUnLoadLoad Demo.ChainHost 0 Demo.ChainState1 = Ok st3 /\
      ClassHeap st3 !! 0 = Some d3 /\
      Fields d3 !! FName.key "Health" = None /\
      Properties d3 = [] /\ SuperClasses d3 = SuperClasses d.
Proof.
  eexists. split; [vm_compute; reflexivity|]. split; [vm_compute; reflexivity|].
  destruct (Load_UnLoad_Load_roundtrip Demo.ChainHost 0 Demo.ChainState1 _
              ltac:(vm_compute; reflexivity)) as (H1 & H2 & _).
  destruct (H2 "A"%string 1 ltac:(reflexivity) ltac:(reflexivity))
    as (st3 & Hst3).
  destruct (H1 st3 Hst3) as (d3 & Hd3 & Hn & _ & HP & _ & HS & _).
  exists st3, d3. repeat split; auto.
Defined.

(** ** [FindField] *)

Lemma Load_tables_kept h c st st' :
  Load h c st = Ok st' -> tables_kept st st'.
Proof.
  intros H c' d' Hd'.
  destruct (Load_desc_any _ _ _ _ _ _ H Hd') as (s' & Hd'' & _).
  eexists. split; [exact Hd''|]. repeat split.
Qed.

(** C8: [FindField] runs [Load] and then only looks the name up, as
    an [FName]: it returns the entry cached in [Fields] for that
    name, however it was spelled when it was registered, or nothing
    when there is none, and no descriptor's [Fields], [Properties] or
    [Functions] changes, nor any heap of descriptors. *)
Theorem FindField_lookup_only h this FieldName st d :
  ClassHeap st !! this = Some d ->
  FindField h this FieldName st
    = (run st1 <~ Load h this st;
       Ok (Fields d !! FName.key FieldName, st1)) /\
  (forall r st1, FindField h this FieldName st = Ok (r, st1) ->
     Load h this st = Ok st1 /\ r = Fields d !! FName.key FieldName /\
     tables_kept st st1 /\
     FieldHeap st1 = FieldHeap st /\ PropHeap st1 = PropHeap st /\
     FuncHeap st1 = FuncHeap st /\ Classes st1 = Classes st) /\
  (is_Some (Struct d) ->
     FindField h this FieldName st
     = Ok (Fields d !! FName.key FieldName, st)) /\
  (forall n, FName.key n = FName.key FieldName ->
     FindField h this n st = FindField h this FieldName st).
Proof.
  intros Hd.
  assert (Heq : FindField h this FieldName st
    = (run st1 <~ Load h this st;
       Ok (Fields d !! FName.key FieldName, st1))).
  { unfold FindField. destruct (Load h this st) as [st1| |] eqn:HL;
      simpl; try reflexivity.
    destruct (Load_desc_any _ _ _ _ _ _ HL Hd) as (s' & Hd1 & _).
    apply deref_Ok in Hd1. rewrite Hd1. reflexivity. }
  split; [exact Heq|]. split; [|split].
  - intros r st1 H. rewrite Heq in H. run_inv H. inversion H; subst.
    split; [exact E|]. split; [reflexivity|].
    split; [eapply Load_tables_kept; eauto|].
    apply Load_frame in E as (A & B & C & D & _). auto.
  - intros [s Hs]. rewrite Heq. rewrite (Load_loaded _ _ _ _ _ Hd Hs).
    reflexivity.
  - intros n E. unfold FindField. rewrite E. reflexivity.
Qed.

Lemma FindField_lookup_only_witness :
  exists d, ClassHeap Demo.ChainState1 !! 0 = Some d /\
    Fields d !! FName.key "HEALTH" = Some 0 /\
    Fields d !! FName.key "Mana" = None /\
    FindField Demo.ChainHost 0 "HEALTH" Demo.ChainState1
      = Ok (Fields d !! FName.key "HEALTH", Demo.ChainState1) /\
    FindField Demo.ChainHost 0 "Mana" Demo.ChainState1
      = Ok (Fields d !! FName.key "Mana", Demo.ChainState1).
Proof.
  eexists. split; [vm_compute; reflexivity|].
  split; [vm_compute; reflexivity|].
  split; [vm_compute; reflexivity|].
  split.
  - refine (proj1 (proj2 (proj2 (FindField_lookup_only Demo.ChainHost 0
                                   "HEALTH" Demo.ChainState1 _ _))) _).
    + vm_compute. reflexivity.
    + vm_compute. eauto.
  - refine (proj1 (proj2 (proj2 (FindField_lookup_only Demo.ChainHost 0
                                   "Mana" Demo.ChainState1 _ _))) _).
    + vm_compute. reflexivity.
    + vm_compute. eauto.
Defined.

(** ** [RegisterField]: one call *)

(** On a loaded descriptor a call is the cache lookup followed, on a
    miss, by the classification of the name. *)
Lemma RegisterField_step f h c name Q st d s :
  ClassHeap st !! c = Some d -> Struct d = Some s ->
  RegisterField (S f) h c name Q st =
  match Fields d !! FName.key name with
  | Some fp => Ok (Some fp, st)
  | None =>
      match ClassifyField h d s name with
      | None => Ok (None, st)
      | Some m =>
          match MemberOuter h m with
          | None => Ok (None, st)
          | Some o =>
              if decide (o = s) then
                let '(fp, st2) := RegisterLocal c d m name Q st in
                Ok (Some fp, st2)
              else
                run (oc, st2) <~ RegisterReflectedType f h o st;
                RegisterField f h oc name Q st2
          end
      end
  end.
Proof.
  intros Hd Hs. simpl. rewrite (Load_loaded _ _ _ _ _ Hd Hs). simpl.
  apply deref_Ok in Hd. rewrite Hd. simpl. rewrite Hs. reflexivity.
Qed.

Lemma RegisterField_inv f h c name Q st r st' :
  RegisterField (S f) h c name Q st = Ok (r, st') ->
  exists st1 d s, Load h c st = Ok st1 /\
    ClassHeap st1 !! c = Some d /\ Struct d = Some s /\
    RegisterField_case f h c name Q st1 d s r st'.
Proof.
  intros H. simpl in H. run_inv H. rename a into st1.
  run_inv H. rename a into d. apply deref_Ok in E0.
  destruct (Load_Ok_desc _ _ _ _ E) as (d0 & s & _ & Hd1 & _).
  assert (Hs : Struct d = Some s).
  { rewrite E0 in Hd1. inversion Hd1. reflexivity. }
  exists st1, d, s. repeat split; auto.
  rewrite Hs in H.
  destruct (Fields d !! FName.key name) as [fp|] eqn:HF.
  { inversion H; subst. constructor. exact HF. }
  destruct (ClassifyField h d s name) as [m|] eqn:HC.
  2:{ inversion H; subst. apply RF_unknown; auto. }
  destruct (MemberOuter h m) as [o|] eqn:HO.
  2:{ inversion H; subst. eapply RF_no_outer; eauto. }
  destruct (decide (o = s)) as [->|Hne].
  - destruct (RegisterLocal c d m name Q st1) as [fp st2] eqn:HL.
    inversion H; subst. eapply RF_local; eauto.
  - run_inv H. destruct a as [oc st2].
    eapply RF_redirect; eauto.
Qed.

(** ** [int32] facts *)

Lemma wrap32_small z :
  (- 2 ^ 31 <= z < 2 ^ 31)%Z -> wrap32 z = z.
Proof.
  intros Hz. unfold wrap32. rewrite Z.mod_small; lia.
Qed.

(** ** Local registration *)

Lemma RegisterLocal_desc c d m name Q st fp st' :
  RegisterLocal c d m name Q st = (fp, st') ->
  fp = new_addr (FieldHeap st) /\
  Classes st' = Classes st /\
  (exists P Fn, ClassHeap st' =
     <[c := set_tables (<[FName.key name := fp]> (Fields d)) P Fn d]>
       (ClassHeap st)) /\
  (exists ix, FieldHeap st' = <[fp := mkFieldDesc Q c ix]> (FieldHeap st)).
Proof.
  unfold RegisterLocal. destruct m; intros H; inversion H; subst; clear H;
    simpl; repeat split; eauto.
Qed.

(** C3: a local registration (the name has no entry in [Fields], as
    an [FName], and denotes a member of the descriptor's own type)
    returns a field descriptor whose index
    is positive for a property and negative for a function, never
    zero, and whose magnitude minus one is the position at which the
    new property or function descriptor was appended to [Properties]
    or [Functions]. *)
Theorem RegisterField_index_sign fuel h this name Q st d s m :
  ClassHeap st !! this = Some d -> Struct d = Some s ->
  Fields d !! FName.key name = None ->
  ClassifyField h d s name = Some m -> MemberOuter h m = Some s ->
  (Z.of_nat (length match m with
                    | MProperty _ => Properties d
                    | MFunction _ => Functions d
                    end) < INT32_MAX)%Z ->
  exists fp st' d' fd,
    RegisterField (S fuel) h this name Q st = Ok (Some fp, st') /\
    ClassHeap st' !! this = Some d' /\
    Fields d' !! FName.key name = Some fp /\
    FieldHeap st' !! fp = Some fd /\
    FieldIndex fd ≠ 0%Z /\
    match m with
    | MProperty p =>
        (0 < FieldIndex fd)%Z /\
        (Z.abs (FieldIndex fd) - 1 = Z.of_nat (length (Properties d)))%Z /\
        Functions d' = Functions d /\
        exists pd, Properties d' = Properties d ++ [pd] /\
          Properties d' !! Z.to_nat (Z.abs (FieldIndex fd) - 1) = Some pd /\
          PropHeap st' !! pd = Some (mkPropertyDesc p)
    | MFunction fn =>
        (FieldIndex fd < 0)%Z /\
        (Z.abs (FieldIndex fd) - 1 = Z.of_nat (length (Functions d)))%Z /\
        Properties d' = Properties d /\
        exists fnd, Functions d' = Functions d ++ [fnd] /\
          Functions d' !! Z.to_nat (Z.abs (FieldIndex fd) - 1) = Some fnd /\
          FD_Function <$> FuncHeap st' !! fnd = Some fn
    end.
Proof.
  intros Hd Hs HF HC HO HP.
  rewrite (RegisterField_step _ _ _ _ _ _ _ _ Hd Hs), HF, HC, HO.
  rewrite decide_True by reflexivity.
  unfold INT32_MAX in *.
  destruct m as [p|fn]; simpl.
  - do 4 eexists. split; [reflexivity|]. simpl.
    split; [apply lookup_insert_eq|]. simpl.
    split; [apply lookup_insert_eq|].
    split; [apply lookup_insert_eq|]. simpl.
    rewrite (wrap32_small (Z.of_nat (length (Properties d)))) by lia.
    rewrite wrap32_small by lia.
    split; [lia|]. split; [lia|]. split; [lia|]. split; [reflexivity|].
    eexists. split; [reflexivity|]. split; [|apply lookup_insert_eq].
    replace (Z.to_nat _) with (length (Properties d)) by lia.
    rewrite lookup_app_r by lia. rewrite Nat.sub_diag. reflexivity.
  - do 4 eexists. split; [reflexivity|]. simpl.
    split; [apply lookup_insert_eq|]. simpl.
    split; [apply lookup_insert_eq|].
    split; [apply lookup_insert_eq|]. simpl.
    rewrite (wrap32_small (Z.of_nat (length (Functions d)))) by lia.
    rewrite (wrap32_small (_ + 1)) by lia.
    rewrite wrap32_small by lia.
    split; [lia|]. split; [lia|]. split; [lia|]. split; [reflexivity|].
    eexists. split; [reflexivity|].
    split; [|rewrite lookup_insert_eq; reflexivity].
    replace (Z.to_nat _) with (length (Functions d)) by lia.
    rewrite lookup_app_r by lia. rewrite Nat.sub_diag. reflexivity.
Qed.

Lemma RegisterField_index_sign_witness :
  exists fp st' fd,
    RegisterField 1 Demo.ChainHost 0 "Health" 0 Demo.ChainState
      = Ok (Some fp, st') /\
    FieldHeap st' !! fp = Some fd /\ (0 < FieldIndex fd)%Z.
Proof.
  edestruct (RegisterField_index_sign 0 Demo.ChainHost 0 "Health"%string 0
               Demo.ChainState)
    as (fp & st' & d' & fd & H1 & _ & _ & H2 & _ & H3).
  - vm_compute. reflexivity.
  - vm_compute. reflexivity.
  - vm_compute. reflexivity.
  - vm_compute. reflexivity.
  - vm_compute. reflexivity.
  - vm_compute. reflexivity.
  - exists fp, st', fd. simpl in H3. destruct H3 as [H3 _]. auto.
Defined.

(** ** The name-recovery fallback *)

Lemma find_app_skip {A} (f : A -> bool) (pre : list A) (x : A) post :
  (forall y, y ∈ pre -> f y = false) -> f x = true ->
  List.find f (pre ++ x :: post) = Some x.
Proof.
  induction pre as [|y pre IH]; simpl; intros Hpre Hx.
  - rewrite Hx. reflexivity.
  - rewrite (Hpre y) by left. apply IH; [|exact Hx].
    intros z Hz. apply Hpre. right. exact Hz.
Qed.

Lemma find_none_all {A} (f : A -> bool) (l : list A) :
  (forall y, y ∈ l -> f y = false) -> List.find f l = None.
Proof.
  induction l as [|y l IH]; simpl; intros Hl; [reflexivity|].
  rewrite (Hl y) by left. apply IH. intros z Hz. apply Hl. right. exact Hz.
Qed.

(** What the classification yields when neither a property nor a
    function of that name exists and the descriptor is a user-defined
    struct: the result of the fallback loop. *)
Lemma ClassifyField_fallback h d s name :
  FindPropertyByName h s name = None ->
  (bIsClass d = true -> FindFunctionByName h s name = None) ->
  bIsScriptStruct d = true -> IsNative h s = false ->
  ClassifyField h d s name = MProperty <$> FindRecoveredProperty h s name.
Proof.
  intros HP HF HS HN. unfold ClassifyField. rewrite HP, HS, HN. simpl.
  destruct (bIsClass d); simpl.
  - rewrite HF by reflexivity. simpl.
    destruct (FindRecoveredProperty h s name); reflexivity.
  - destruct (FindRecoveredProperty h s name); reflexivity.
Qed.

(** What the classification yields when nothing at all matches. *)
Lemma ClassifyField_none h d s name :
  FindPropertyByName h s name = None ->
  (bIsClass d = true -> FindFunctionByName h s name = None) ->
  (bIsScriptStruct d = true -> IsNative h s = false ->
   FindRecoveredProperty h s name = None) ->
  ClassifyField h d s name = None.
Proof.
  intros HP HF HR. unfold ClassifyField. rewrite HP. simpl.
  destruct (bIsClass d); simpl.
  - rewrite HF by reflexivity. simpl.
    destruct (bIsScriptStruct d); simpl; [|reflexivity].
    destruct (IsNative h s); simpl; [reflexivity|].
    rewrite HR by reflexivity. reflexivity.
  - destruct (bIsScriptStruct d); simpl; [|reflexivity].
    destruct (IsNative h s); simpl; [reflexivity|].
    rewrite HR by reflexivity. reflexivity.
Qed.

(** C4: on a user-defined (non-native) script struct with a direct
    property literally named
    [Health_01234567890123456789012345678901_3], a query for [Health]
    (in any spelling of that [FName]) that finds no property of that
    name falls back to name recovery (the last 33 characters are
    dropped since the name is longer than 35, then the rest is cut at
    its last underscore), resolves to that property, the first whose
    recovered name [==] the queried text, and registers it; a name
    that matches no property under this rule yields no descriptor. *)
Theorem RegisterField_struct_name_recovery fuel h this name Q st d s p
    pre post :
  ClassHeap st !! this = Some d -> Struct d = Some s ->
  bIsScriptStruct d = true -> IsNative h s = false ->
  DirectProperties h s = pre ++ p :: post ->
  Property_GetName h p = "Health_01234567890123456789012345678901_3"%string ->
  FName.key name = FName.key "Health" ->
  (forall q, q ∈ pre ->
     FString.Equals (RecoverDisplayName (Property_GetName h q)) "Health"
     = false) ->
  PropertyOuter h p = Some s ->
  FindPropertyByName h s name = None ->
  (bIsClass d = true -> FindFunctionByName h s name = None) ->
  Fields d !! FName.key name = None ->
  RecoverDisplayName "Health_01234567890123456789012345678901_3" = "Health"%string /\
  (forall n, (FString.Len n <= 35)%Z -> RecoverDisplayName n = n) /\
  FString.Equals (RecoverDisplayName (Property_GetName h p))
    (FName.ToString name) = true /\
  ClassifyField h d s name = Some (MProperty p) /\
  (exists fp st' d' fd pd,
     RegisterField (S fuel) h this name Q st = Ok (Some fp, st') /\
     ClassHeap st' !! this = Some d' /\
     Fields d' !! FName.key "Health" = Some fp /\
     FieldHeap st' !! fp = Some fd /\ OuterClass fd = this /\
     Properties d' = Properties d ++ [pd] /\
     PropHeap st' !! pd = Some (mkPropertyDesc p)) /\
  (forall other,
     Fields d !! FName.key other = None ->
     FindPropertyByName h s other = None ->
     (bIsClass d = true -> FindFunctionByName h s other = None) ->
     (forall q, q ∈ DirectProperties h s ->
        FString.Equals (RecoverDisplayName (Property_GetName h q))
          (FName.ToString other) = false) ->
     RegisterField (S fuel) h this other Q st = Ok (None, st)).
Proof.
  intros Hd Hs HSS HN HD Hname Hkey Hpre HO HP HF HFd.
  assert (HR : RecoverDisplayName
                 "Health_01234567890123456789012345678901_3" = "Health"%string)
    by (vm_compute; reflexivity).
  assert (HE : forall x, FString.Equals x (FName.ToString name)
                         = FString.Equals x "Health").
  { intros x. rewrite Equals_ToString, Hkey. reflexivity. }
  assert (HC : ClassifyField h d s name = Some (MProperty p)).
  { rewrite ClassifyField_fallback by assumption.
    unfold FindRecoveredProperty. rewrite HD.
    rewrite (find_app_skip _ pre p post); [reflexivity| |].
    - intros q Hq. rewrite HE. apply Hpre. exact Hq.
    - rewrite HE, Hname, HR. reflexivity. }
  split; [exact HR|]. split.
  { intros n Hn. unfold RecoverDisplayName, MinimalPostfixlen, GuidStrLen.
    destruct (Z.gtb_spec (FString.Len n) (32 + 3)); [lia | reflexivity]. }
  split; [rewrite HE, Hname, HR; reflexivity|].
  split; [exact HC|]. split.
  - rewrite (RegisterField_step _ _ _ _ _ _ _ _ Hd Hs), HFd, HC. simpl.
    rewrite HO. rewrite decide_True by reflexivity. simpl.
    do 5 eexists. split; [reflexivity|]. simpl.
    split; [apply lookup_insert_eq|]. simpl.
    split; [rewrite Hkey; apply lookup_insert_eq|].
    split; [apply lookup_insert_eq|]. simpl.
    split; [reflexivity|]. split; [reflexivity|]. apply lookup_insert_eq.
  - intros other HFn HPn HFnn Hall.
    rewrite (RegisterField_step _ _ _ _ _ _ _ _ Hd Hs), HFn.
    rewrite ClassifyField_none; auto.
    intros _ _. apply find_none_all. intros q Hq.
    apply Hall. exact Hq.
Qed.

Lemma RegisterField_struct_name_recovery_witness :
  (exists fp st', RegisterField 1 Demo.StructHost 0 "Health" 0 Demo.StructState
                  = Ok (Some fp, st')) /\
  (exists fp st', RegisterField 1 Demo.StructHost 0 "health" 0 Demo.StructState
                  = Ok (Some fp, st')) /\
  RegisterField 1 Demo.StructHost 0 "Mana" 0 Demo.StructState
    = Ok (None, Demo.StructState) /\
  RegisterField 1 Demo.StructHost 0 "" 0 Demo.StructState
    = Ok (None, Demo.StructState).
Proof.
  assert (W : forall name, FName.key name = FName.key "Health" ->
            (exists fp st', RegisterField 1 Demo.StructHost 0 name 0
                              Demo.StructState = Ok (Some fp, st')) /\
            RegisterField 1 Demo.StructHost 0 "Mana" 0 Demo.StructState
              = Ok (None, Demo.StructState) /\
            RegisterField 1 Demo.StructHost 0 "" 0 Demo.StructState
              = Ok (None, Demo.StructState)).
  { intros name Hk.
    edestruct (RegisterField_struct_name_recovery 0 Demo.StructHost 0
                 name 0 Demo.StructState)
      with (s := 5) (p := 30) (pre := @nil nat) (post := @nil nat)
      as (_ & _ & _ & _ & (fp & st' & d' & fd & pd & H1 & _) & H2).
    - vm_compute. reflexivity.
    - vm_compute. reflexivity.
    - vm_compute. reflexivity.
    - vm_compute. reflexivity.
    - vm_compute. reflexivity.
    - vm_compute. reflexivity.
    - exact Hk.
    - intros q Hq. apply elem_of_nil in Hq. contradiction.
    - vm_compute. reflexivity.
    - unfold Demo.StructHost. cbn [FindPropertyByName]. rewrite Hk.
      vm_compute. reflexivity.
    - intros _. reflexivity.
    - rewrite Hk. vm_compute. reflexivity.
    - split; [eauto|]. split; apply H2.
      + vm_compute. reflexivity.
      + vm_compute. reflexivity.
      + intros _. vm_compute. reflexivity.
      + intros q Hq. simpl in Hq. apply list_elem_of_singleton in Hq. subst q.
        vm_compute. reflexivity.
      + vm_compute. reflexivity.
      + vm_compute. reflexivity.
      + intros _. vm_compute. reflexivity.
      + intros q Hq. simpl in Hq. apply list_elem_of_singleton in Hq. subst q.
        vm_compute. reflexivity. }
  destruct (W "Health"%string eq_refl) as (A & B & C).
  destruct (W "health"%string eq_refl) as (A' & _).
  auto.
Defined.

(** ** What a call of [RegisterField] leaves alone *)

Lemma keeps_refl d : keeps d d.
Proof. split; auto. Qed.

Lemma grows_refl st : grows st st.
Proof.
  split; [|auto]. intros c d Hd. exists d.
  split; [exact Hd|]. split; [apply keeps_refl|]. auto.
Qed.

Lemma keeps_trans d1 d2 d3 : keeps d1 d2 -> keeps d2 d3 -> keeps d1 d3.
Proof. intros [A1 A2] [B1 B2]. split; [congruence | auto]. Qed.

Lemma keeps_evolves name r d1 d2 d3 :
  keeps d1 d2 -> tables d2 = tables d1 -> evolves name r d2 d3 ->
  evolves name r d1 d3.
Proof.
  intros K T [K' E]. split; [eapply keeps_trans; eauto|].
  unfold tables in *. injection T as TF TP TFn.
  destruct E as [E|(fp & -> & Hn & E)].
  - left. injection E as E1 E2 E3. congruence.
  - right. exists fp. rewrite <- TF. auto.
Qed.

Lemma ClassifyField_flags h d d' s name :
  static_part d' = static_part d ->
  ClassifyField h d' s name = ClassifyField h d s name.
Proof.
  unfold static_part, ClassifyField. intros E.
  injection E as _ E1 E2 _ _ _ _ _ _.
  rewrite E1, E2. reflexivity.
Qed.

Lemma Load_keeps h c st st' c' d' :
  Load h c st = Ok st' -> ClassHeap st !! c' = Some d' ->
  exists d'', ClassHeap st' !! c' = Some d'' /\ keeps d' d'' /\
    tables d'' = tables d'.
Proof.
  intros H Hd'.
  destruct (Load_desc_any _ _ _ _ _ _ H Hd') as (s' & Hd'' & Hs').
  eexists. split; [exact Hd''|]. split; [|reflexivity].
  split; [reflexivity|]. intros s Hs. simpl.
  rewrite Hs' by eauto. exact Hs.
Qed.

Lemma RegisterField_frame fuel h c name Q st r st' :
  RegisterField fuel h c name Q st = Ok (r, st') ->
  (forall T x, Classes st !! T = Some x -> Classes st' !! T = Some x) /\
  (forall c' d', ClassHeap st !! c' = Some d' ->
     exists d'', ClassHeap st' !! c' = Some d'' /\
       evolves (FName.key name) r d' d'') /\
  (r = None -> FieldHeap st' = FieldHeap st /\ PropHeap st' = PropHeap st /\
               FuncHeap st' = FuncHeap st).
Proof.
  revert c st r st'. induction fuel as [|f IH]; intros c st r st' H;
    [discriminate|].
  apply RegisterField_inv in H as (st1 & d & s & HL & Hd & Hs & Hcase).
  pose proof (Load_frame _ _ _ _ HL) as (LC & LF & LP & LFn & _).
  assert (Hsame : forall c' d', ClassHeap st !! c' = Some d' ->
            exists d'', ClassHeap st1 !! c' = Some d'' /\
              evolves (FName.key name) r d' d'').
  { intros c' d' Hd'.
    destruct (Load_keeps _ _ _ _ _ _ HL Hd') as (d'' & A & B & C).
    exists d''. split; [exact A|]. split; [exact B|]. left. exact C. }
  destruct Hcase as [fp HF|HF HC|m HF HC HO|m fp st2 HF HC HO HR
                     |m o oc st2 r st2' HF HC HO Hne HR HRF].
  - rewrite LC, LF, LP, LFn. repeat split; auto.
  - rewrite LC, LF, LP, LFn. repeat split; auto.
  - rewrite LC, LF, LP, LFn. repeat split; auto.
  - apply RegisterLocal_desc in HR as (-> & RC & (P & Fn & RH) & _).
    rewrite RC, LC. split; [auto|]. split; [|discriminate].
    intros c' d' Hd'.
    destruct (Load_keeps _ _ _ _ _ _ HL Hd') as (d'' & A & B & C).
    rewrite RH. destruct (decide (c' = c)) as [->|Hc].
    + rewrite lookup_insert_eq. eexists. split; [reflexivity|].
      assert (d'' = d) by congruence. subst d''.
      eapply keeps_evolves; [exact B | exact C|].
      split; [split; [reflexivity | auto]|].
      right. eexists. split; [reflexivity|]. split; [exact HF | reflexivity].
    + rewrite lookup_insert_ne by congruence.
      exists d''. split; [exact A|]. split; [exact B|]. left. exact C.
  - apply RegisterReflectedType_spec in HR
      as [(X1 & X2 & _ & X4 & X5 & X6) _].
    apply IH in HRF as (Y1 & Y2 & Y3).
    split; [|split].
    + intros T x HT. apply Y1, X1. rewrite LC. exact HT.
    + intros c' d' Hd'.
      destruct (Load_keeps _ _ _ _ _ _ HL Hd') as (d1 & A & B & C).
      apply X2 in A. destruct (Y2 _ _ A) as (d2 & A2 & E2).
      exists d2. split; [exact A2|]. eapply keeps_evolves; eauto.
    + intros Hr. destruct (Y3 Hr) as (Z1 & Z2 & Z3).
      rewrite Z1, Z2, Z3, X4, X5, X6. auto.
Qed.

(** Calling again with the same name, from the state the first call
    left, returns the same result and changes nothing. *)
Lemma RegisterField_again fuel h c name Q Q' st r st1 :
  RegisterField fuel h c name Q st = Ok (r, st1) ->
  RegisterField fuel h c name Q' st1 = Ok (r, st1).
Proof.
  revert c st r st1. induction fuel as [|f IH]; intros c st r st1 H;
    [discriminate|].
  apply RegisterField_inv in H as (stL & d & s & HL & Hd & Hs & Hcase).
  destruct Hcase as [fp HF|HF HC|m HF HC HO|m fp st2 HF HC HO HR
                     |m o oc st2 r st2' HF HC HO Hne HR HRF].
  - rewrite (RegisterField_step _ _ _ _ _ _ _ _ Hd Hs), HF. reflexivity.
  - rewrite (RegisterField_step _ _ _ _ _ _ _ _ Hd Hs), HF, HC. reflexivity.
  - rewrite (RegisterField_step _ _ _ _ _ _ _ _ Hd Hs), HF, HC, HO.
    reflexivity.
  - apply RegisterLocal_desc in HR as (-> & _ & (P & Fn & RH) & _).
    erewrite RegisterField_step;
      [|rewrite RH; apply lookup_insert_eq | exact Hs].
    simpl. rewrite lookup_insert_eq. reflexivity.
  - pose proof (RegisterReflectedType_spec _ _ _ _ _ _ HR)
      as [(_ & X2 & _) Hoc].
    pose proof (RegisterField_frame _ _ _ _ _ _ _ _ HRF) as (Y1 & Y2 & _).
    destruct (Y2 _ _ (X2 _ _ Hd)) as (d1 & Hd1 & [K1 K2] & E).
    pose proof (K2 _ Hs) as Hs1.
    rewrite (RegisterField_step _ _ _ _ _ _ _ _ Hd1 Hs1).
    destruct E as [E|(fp & -> & _ & E)].
    + inversion E as [[EF EP EFn]]. rewrite EF, HF.
      rewrite (ClassifyField_flags _ _ _ _ _ K1), HC, HO.
      rewrite decide_False by exact Hne.
      destruct f as [|f']; [discriminate|].
      rewrite (RegisterReflectedType_known _ _ _ _ _ (Y1 _ _ Hoc)).
      simpl bindR. eapply IH. exact HRF.
    + rewrite E, lookup_insert_eq. reflexivity.
Qed.

(** C2: two calls of [RegisterField] with the same name and query
    class in succession return the same field descriptor, and the
    second changes nothing at all: no entry is appended to
    [Properties] or [Functions] and no property or function
    descriptor is created. *)
Theorem RegisterField_idempotent fuel h this name Q st r st1 :
  RegisterField fuel h this name Q st = Ok (r, st1) ->
  RegisterField fuel h this name Q st1 = Ok (r, st1) /\
  (forall r2 st2, RegisterField fuel h this name Q st1 = Ok (r2, st2) ->
     r2 = r /\ PropHeap st2 = PropHeap st1 /\ FuncHeap st2 = FuncHeap st1 /\
     FieldHeap st2 = FieldHeap st1 /\
     forall c d, ClassHeap st1 !! c = Some d -> ClassHeap st2 !! c = Some d).
Proof.
  intros H. pose proof (RegisterField_again _ _ _ _ _ Q _ _ _ H) as H2.
  split; [exact H2|]. intros r2 st2 H3. rewrite H2 in H3.
  inversion H3; subst. auto.
Qed.

Lemma RegisterField_idempotent_witness :
  exists fp st1,
    RegisterField 3 Demo.ChainHost 2 "Health" 2 Demo.ChainState
      = Ok (Some fp, st1) /\
    RegisterField 3 Demo.ChainHost 2 "Health" 2 st1 = Ok (Some fp, st1).
Proof.
  exists 0, (Demo.state_of
               (RegisterField 3 Demo.ChainHost 2 "Health" 2 Demo.ChainState)).
  assert (H : RegisterField 3 Demo.ChainHost 2 "Health" 2 Demo.ChainState
    = Ok (Some 0, Demo.state_of
            (RegisterField 3 Demo.ChainHost 2 "Health" 2 Demo.ChainState)))
    by (vm_compute; reflexivity).
  split; [exact H|].
  exact (proj1 (RegisterField_idempotent _ _ _ _ _ _ _ _ H)).
Defined.

(** ** A call that finds nothing *)

Lemma ClassifyField_property h d s name p :
  FindPropertyByName h s name = Some p ->
  ClassifyField h d s name = Some (MProperty p).
Proof. intros HP. unfold ClassifyField. rewrite HP. reflexivity. Qed.

Lemma RegisterField_None_tables fuel h c name Q st st' :
  RegisterField fuel h c name Q st = Ok (None, st') ->
  forall c' d', ClassHeap st !! c' = Some d' ->
    exists d'', ClassHeap st' !! c' = Some d'' /\ keeps d' d'' /\
      tables d'' = tables d'.
Proof.
  intros H c' d' Hd'.
  destruct (RegisterField_frame _ _ _ _ _ _ _ _ H) as (_ & F & _).
  destruct (F _ _ Hd') as (d'' & Hd'' & K & [T|(fp & E & _)]).
  - eauto.
  - discriminate.
Qed.

(** C9: when [RegisterField] returns no descriptor, no descriptor's
    [Fields], [Properties] or [Functions] has changed and nothing was
    created; the miss is not recorded, so a later call classifies the
    name afresh against the host it is given: it misses again on the
    same host, and it succeeds on a host whose live type has the
    member by then. *)
Theorem RegisterField_absent_no_change fuel h this name Q st st' :
  RegisterField fuel h this name Q st = Ok (None, st') ->
  tables_kept st st' /\
  FieldHeap st' = FieldHeap st /\ PropHeap st' = PropHeap st /\
  FuncHeap st' = FuncHeap st /\
  exists d' s,
    ClassHeap st' !! this = Some d' /\ Struct d' = Some s /\
    Fields d' !! FName.key name = None /\
    (forall Q', RegisterField fuel h this name Q' st' = Ok (None, st')) /\
    (forall h' f Q',
       RegisterField (S f) h' this name Q' st' =
       match ClassifyField h' d' s name with
       | None => Ok (None, st')
       | Some m =>
           match MemberOuter h' m with
           | None => Ok (None, st')
           | Some o =>
               if decide (o = s) then
                 let '(fp, st2) := RegisterLocal this d' m name Q' st' in
                 Ok (Some fp, st2)
               else
                 run (oc, st2) <~ RegisterReflectedType f h' o st';
                 RegisterField f h' oc name Q' st2
           end
       end) /\
    (forall h' f Q' p,
       FindPropertyByName h' s name = Some p -> PropertyOuter h' p = Some s ->
       exists fp st'', RegisterField (S f) h' this name Q' st'
                       = Ok (Some fp, st'')).
Proof.
  intros H.
  pose proof (RegisterField_frame _ _ _ _ _ _ _ _ H) as (_ & _ & HH).
  destruct (HH eq_refl) as (H1 & H2 & H3).
  split.
  { intros c' d' Hd'.
    destruct (RegisterField_None_tables _ _ _ _ _ _ _ H _ _ Hd')
      as (d'' & Hd'' & _ & T).
    exists d''. injection T as T1 T2 T3. auto. }
  split; [exact H1|]. split; [exact H2|]. split; [exact H3|].
  assert (exists d' s, ClassHeap st' !! this = Some d' /\
            Struct d' = Some s /\ Fields d' !! FName.key name = None)
    as (d' & s & Hd' & Hs' & HF').
  { destruct fuel as [|f]; [discriminate|].
    pose proof H as H0.
    apply RegisterField_inv in H0 as (stL & d & s & HL & Hd & Hs & Hcase).
    inversion Hcase as [| | | |m o oc st2 r st2' HF HC HO Hne HR HRF];
      subst; eauto.
    apply RegisterReflectedType_spec in HR as [(_ & X2 & _) _].
    destruct (RegisterField_None_tables _ _ _ _ _ _ _ HRF _ _ (X2 _ _ Hd))
      as (d'' & Hd'' & [_ K] & T).
    exists d'', s. injection T as T1 T2 T3.
    split; [exact Hd''|]. split; [auto|]. congruence. }
  exists d', s. split; [exact Hd'|]. split; [exact Hs'|].
  split; [exact HF'|]. split; [|split].
  - intros Q'. eapply RegisterField_again. exact H.
  - intros h' f Q'.
    rewrite (RegisterField_step _ _ _ _ _ _ _ _ Hd' Hs'), HF'. reflexivity.
  - intros h' f Q' p HP HO.
    rewrite (RegisterField_step _ _ _ _ _ _ _ _ Hd' Hs'), HF'.
    rewrite (ClassifyField_property _ _ _ _ _ HP). simpl. rewrite HO.
    rewrite decide_True by reflexivity. simpl. eauto.
Qed.

Lemma RegisterField_absent_no_change_witness :
  RegisterField 3 Demo.ChainHost 2 "Mana" 2 Demo.ChainState
    = Ok (None, Demo.ChainState) /\
  tables_kept Demo.ChainState Demo.ChainState /\
  exists d', ClassHeap Demo.ChainState !! 2 = Some d' /\
    Fields d' !! FName.key "Mana" = None.
Proof.
  assert (H : RegisterField 3 Demo.ChainHost 2 "Mana" 2 Demo.ChainState
              = Ok (None, Demo.ChainState)) by (vm_compute; reflexivity).
  split; [exact H|].
  destruct (RegisterField_absent_no_change _ _ _ _ _ _ _ H)
    as (T & _ & _ & _ & d' & s & Hd' & _ & HF & _).
  split; [exact T|]. exists d'. auto.
Defined.

(** ** Invariants of the reachable states *)

Section Invariants.
Variable h : Host.

Lemma Inv_init : Inv h InitState.
Proof.
  split; intros c d name fp Hd; simpl in Hd; rewrite lookup_empty in Hd;
    discriminate.
Qed.

Lemma Inv_extends st st' : extends st st' -> Inv h st -> Inv h st'.
Proof.
  intros (_ & _ & X3 & X4 & _) [S O].
  split; intros c d name fp Hd HF.
  - destruct (X3 _ _ Hd) as [Hd0|(E & _)]; [eauto|].
    rewrite E, lookup_empty in HF. discriminate.
  - rewrite X4. destruct (X3 _ _ Hd) as [Hd0|(E & _)]; [eauto|].
    rewrite E, lookup_empty in HF. discriminate.
Qed.

Lemma Inv_Load c st st' : Load h c st = Ok st' -> Inv h st -> Inv h st'.
Proof.
  intros H [S O].
  apply Load_Ok_inv in H as (d & Hd & [[_ ->]|(Hn & n & s & _ & _ & ->)]);
    [split; assumption|].
  split; intros c' d' name fp Hd' HF; simpl in Hd'.
  - destruct (decide (c' = c)) as [->|Hne].
    + rewrite lookup_insert_eq in Hd'. inversion Hd'; subst d'.
      simpl in HF. destruct (S _ _ _ _ Hd HF) as (n0 & s0 & _ & _ & Hs0 & _).
      congruence.
    + rewrite lookup_insert_ne in Hd' by congruence. eauto.
  - simpl. destruct (decide (c' = c)) as [->|Hne].
    + rewrite lookup_insert_eq in Hd'. inversion Hd'; subst d'.
      simpl in HF. eauto.
    + rewrite lookup_insert_ne in Hd' by congruence. eauto.
Qed.

Lemma Inv_UnLoad c st st' : UnLoad c st = Ok st' -> Inv h st -> Inv h st'.
Proof.
  intros H [S O].
  apply UnLoad_Ok_inv in H as (d & Hd & [[_ ->]|[_ ->]]);
    [split; assumption|].
  split; intros c' d' name fp Hd' HF; simpl in Hd'.
  - destruct (decide (c' = c)) as [->|Hne].
    + rewrite lookup_insert_eq in Hd'. inversion Hd'; subst d'.
      simpl in HF. rewrite lookup_empty in HF. discriminate.
    + rewrite lookup_insert_ne in Hd' by congruence. eauto.
  - simpl. destruct (decide (c' = c)) as [->|Hne].
    + rewrite lookup_insert_eq in Hd'. inversion Hd'; subst d'.
      simpl in HF. rewrite lookup_empty in HF. discriminate.
    + rewrite lookup_insert_ne in Hd' by congruence.
      destruct (O _ _ _ _ Hd' HF) as (fd & Hfd & Hoc).
      exists fd. split; [|exact Hoc].
      rewrite delete_all_notin; [exact Hfd|].
      intros Hin. apply list_elem_of_fmap in Hin as ([n' fp'] & E & Hin).
      simpl in E. subst fp'. apply elem_of_map_to_list in Hin.
      destruct (O _ _ _ _ Hd Hin) as (fd' & Hfd' & Hoc').
      congruence.
Qed.

Lemma Inv_put_RefCount c d v st :
  ClassHeap st !! c = Some d ->
  Inv h st -> Inv h (put_desc c (set_RefCount v d) st).
Proof.
  intros Hd [S O].
  split; intros c' d' name fp Hd' HF; simpl in Hd'.
  - destruct (decide (c' = c)) as [->|Hne].
    + rewrite lookup_insert_eq in Hd'. inversion Hd'; subst d'.
      simpl in HF. destruct (S _ _ _ _ Hd HF) as (n0 & s & m & K & A & B & C).
      exists n0, s, m. repeat split; auto.
    + rewrite lookup_insert_ne in Hd' by congruence. eauto.
  - simpl. destruct (decide (c' = c)) as [->|Hne].
    + rewrite lookup_insert_eq in Hd'. inversion Hd'; subst d'.
      simpl in HF. eauto.
    + rewrite lookup_insert_ne in Hd' by congruence. eauto.
Qed.

Lemma Inv_RegisterLocal c d s m name Q st fp st' :
  ClassHeap st !! c = Some d -> Struct d = Some s ->
  ClassifyField h d s name = Some m -> MemberOuter h m = Some s ->
  RegisterLocal c d m name Q st = (fp, st') ->
  Inv h st -> Inv h st'.
Proof.
  intros Hd Hs HC HO HR [S O].
  apply RegisterLocal_desc in HR as (-> & _ & (P & Fn & RH) & (ix & RF)).
  split; intros c' d' name' fp' Hd' HF; rewrite RH in Hd'.
  - destruct (decide (c' = c)) as [->|Hne].
    + rewrite lookup_insert_eq in Hd'. inversion Hd'; subst d'.
      simpl in HF.
      destruct (decide (name' = FName.key name)) as [->|Hn].
      * exists name, s, m. split; [reflexivity|].
        split; [exact Hs|]. split; [|exact HO].
        rewrite <- HC. apply ClassifyField_flags. reflexivity.
      * rewrite lookup_insert_ne in HF by congruence.
        destruct (S _ _ _ _ Hd HF) as (n0 & s0 & m0 & K & A & B & C).
        exists n0, s0, m0. split; [exact K|]. split; [exact A|].
        split; [|exact C].
        rewrite <- B. apply ClassifyField_flags. reflexivity.
    + rewrite lookup_insert_ne in Hd' by congruence. eauto.
  - rewrite RF.
    assert (Hold : forall c0 d0 n0, ClassHeap st !! c0 = Some d0 ->
              Fields d0 !! n0 = Some fp' ->
              exists fd, <[new_addr (FieldHeap st) := mkFieldDesc Q c ix]>
                           (FieldHeap st) !! fp' = Some fd /\
                         OuterClass fd = c0).
    { intros c0 d0 n0 Hd0 HF0.
      destruct (O _ _ _ _ Hd0 HF0) as (fd & Hfd & Hoc).
      exists fd. split; [|exact Hoc].
      rewrite lookup_insert_ne; [exact Hfd|].
      apply not_eq_sym, new_addr_ne. eauto. }
    destruct (decide (c' = c)) as [->|Hne].
    + rewrite lookup_insert_eq in Hd'. inversion Hd'; subst d'.
      simpl in HF.
      destruct (decide (name' = FName.key name)) as [->|Hn].
      * rewrite lookup_insert_eq in HF. inversion HF; subst fp'.
        rewrite lookup_insert_eq. eexists. split; reflexivity.
      * rewrite lookup_insert_ne in HF by congruence. eauto.
    + rewrite lookup_insert_ne in Hd' by congruence. eauto.
Qed.

Lemma Inv_RegisterField fuel c name Q st r st' :
  RegisterField fuel h c name Q st = Ok (r, st') -> Inv h st -> Inv h st'.
Proof.
  revert c st r st'. induction fuel as [|f IH]; intros c st r st' H I;
    [discriminate|].
  apply RegisterField_inv in H as (stL & d & s & HL & Hd & Hs & Hcase).
  apply (Inv_Load _ _ _ HL) in I.
  destruct Hcase as [fp HF|HF HC|m HF HC HO|m fp st2 HF HC HO HR
                     |m o oc st2 r st2' HF HC HO Hne HR HRF]; auto.
  - eapply Inv_RegisterLocal; eauto.
  - apply RegisterReflectedType_spec in HR as [X _].
    eapply IH; [exact HRF|]. eapply Inv_extends; eauto.
Qed.

Theorem Reachable_Inv st : Reachable h st -> Inv h st.
Proof.
  induction 1 as [|fuel T st c st' _ IH H|fuel c name Q st r st' _ IH H
                  |c name st r st' _ IH H|c st st' _ IH H|c st st' _ IH H
                  |c st st' _ IH H|c st st' _ IH H].
  - apply Inv_init.
  - apply RegisterReflectedType_spec in H as [X _].
    eapply Inv_extends; eauto.
  - eapply Inv_RegisterField; eauto.
  - unfold FindField in H. run_inv H. run_inv H. inversion H; subst.
    eapply Inv_Load; eauto.
  - eapply Inv_Load; eauto.
  - eapply Inv_UnLoad; eauto.
  - unfold AddRef in H. run_inv H. inversion H; subst.
    apply deref_Ok in E. apply Inv_put_RefCount; auto.
  - unfold SubRef in H. run_inv H. inversion H; subst.
    apply deref_Ok in E. apply Inv_put_RefCount; auto.
Qed.
End Invariants.

Lemma ChainState_Reachable : Reachable Demo.ChainHost Demo.ChainState.
Proof.
  apply (Reach_RegisterReflectedType _ 4 3 InitState 2); [constructor|].
  vm_compute. reflexivity.
Qed.

Lemma ChainState1_Reachable : Reachable Demo.ChainHost Demo.ChainState1.
Proof.
  apply (Reach_RegisterField _ 3 0 "Health"%string 0 Demo.ChainState (Some 0));
    [apply ChainState_Reachable|].
  vm_compute. reflexivity.
Qed.


(** ** Names that denote nothing *)

(** In a state reached under a host that compares [FName]s, a cached
    entry is for a name that the host still classifies, in any
    spelling, as a member of the descriptor's own type. *)
Lemma FieldsSound_classified h st c d s name fp :
  FieldsSound h st -> HostCI h ->
  ClassHeap st !! c = Some d -> Struct d = Some s ->
  Fields d !! FName.key name = Some fp ->
  exists m, ClassifyField h d s name = Some m /\ MemberOuter h m = Some s.
Proof.
  intros HSd CI Hd Hs HF.
  destruct (HSd _ _ _ _ Hd HF) as (n0 & s0 & m0 & K & A & B & C).
  assert (s0 = s) by congruence. subst s0.
  exists m0. split; [|exact C]. rewrite <- B. apply ClassifyField_key; auto.
Qed.

(** C6 (amended): on a loaded descriptor whose [Fields] has no entry
    for the name, a name for which neither a property nor a function
    nor a name-recovery match is found yields no descriptor, with the
    state as it was and no fatal condition; so does a name whose
    member has an outer that is no [UStruct].  When [Fields] has an
    entry for the name, that entry is returned, whatever the live
    type says.  In a state reached under the host of the call, which
    compares [FName]s, [Fields] has no entry for such a name. *)
Theorem RegisterField_not_found_absent fuel h this name Q st d s :
  ClassHeap st !! this = Some d -> Struct d = Some s ->
  (Fields d !! FName.key name = None ->
     (ClassifyField h d s name = None ->
      RegisterField (S fuel) h this name Q st = Ok (None, st)) /\
     (FindPropertyByName h s name = None ->
      (bIsClass d = true -> FindFunctionByName h s name = None) ->
      (bIsScriptStruct d = true -> IsNative h s = false ->
       forall q, q ∈ DirectProperties h s ->
         FString.Equals (RecoverDisplayName (Property_GetName h q))
           (FName.ToString name) = false) ->
      RegisterField (S fuel) h this name Q st = Ok (None, st)) /\
     (forall m, ClassifyField h d s name = Some m -> MemberOuter h m = None ->
      RegisterField (S fuel) h this name Q st = Ok (None, st))) /\
  (forall fp, Fields d !! FName.key name = Some fp ->
     RegisterField (S fuel) h this name Q st = Ok (Some fp, st)) /\
  (Reachable h st -> HostCI h ->
   (ClassifyField h d s name = None \/
    exists m, ClassifyField h d s name = Some m /\ MemberOuter h m = None) ->
   Fields d !! FName.key name = None).
Proof.
  intros Hd Hs. split; [|split].
  - intros HF.
    assert (H1 : ClassifyField h d s name = None ->
                 RegisterField (S fuel) h this name Q st = Ok (None, st)).
    { intros HC. rewrite (RegisterField_step _ _ _ _ _ _ _ _ Hd Hs), HF, HC.
      reflexivity. }
    split; [exact H1|]. split.
    + intros HP HFn HRc. apply H1. apply ClassifyField_none; auto.
      intros HSS HN. apply find_none_all. intros q Hq. apply HRc; auto.
    + intros m HC HO.
      rewrite (RegisterField_step _ _ _ _ _ _ _ _ Hd Hs), HF, HC, HO.
      reflexivity.
  - intros fp HF.
    rewrite (RegisterField_step _ _ _ _ _ _ _ _ Hd Hs), HF. reflexivity.
  - intros HR CI HC.
    destruct (Fields d !! FName.key name) as [fp|] eqn:HF; [|reflexivity].
    apply Reachable_Inv in HR as [HSd _].
    destruct (FieldsSound_classified _ _ _ _ _ _ _ HSd CI Hd Hs HF)
      as (m0 & X & Y).
    destruct HC as [HC|(m & HC & HO)]; congruence.
Qed.

Lemma RegisterField_not_found_absent_witness :
  RegisterField 1 Demo.ChainHost 2 "Mana" 2 Demo.ChainState
    = Ok (None, Demo.ChainState) /\
  RegisterField 1 Demo.ChainHost 2 "Ghost" 2 Demo.ChainState
    = Ok (None, Demo.ChainState).
Proof.
  edestruct (RegisterField_not_found_absent 0 Demo.ChainHost 2 "Mana"%string 2
               Demo.ChainState) with (s := 3) as (H1 & _ & _).
  - vm_compute. reflexivity.
  - vm_compute. reflexivity.
  - edestruct (RegisterField_not_found_absent 0 Demo.ChainHost 2
                 "Ghost"%string 2 Demo.ChainState) with (s := 3)
      as (H3 & _ & _).
    + vm_compute. reflexivity.
    + vm_compute. reflexivity.
    + split.
      * apply (proj1 (H1 ltac:(vm_compute; reflexivity)));
          vm_compute; reflexivity.
      * apply (proj2 (proj2 (H3 ltac:(vm_compute; reflexivity)))
                 (MProperty 11)); vm_compute; reflexivity.
Defined.

(** C6 as stated fails: [Health] was registered on [A]'s descriptor
    (0); the class is then reloaded without the property, so that
    neither a property nor a function of that name is found on the
    loaded type and the descriptor is no script struct; [RegisterField]
    still returns the cached descriptor, not an absent result. *)
Lemma RegisterField_stale_cache_counterexample :
  Reachable Demo.ChainHost Demo.ChainState1 /\
  (exists d,
     ClassHeap Demo.ChainState1 !! 0 = Some d /\ Struct d = Some 1 /\
     bIsScriptStruct d = false /\
     FindPropertyByName Demo.ReloadedHost 1 "Health" = None /\
     FindFunctionByName Demo.ReloadedHost 1 "Health" = None /\
     ClassifyField Demo.ReloadedHost d 1 "Health" = None) /\
  RegisterField 1 Demo.ReloadedHost 0 "Health" 0 Demo.ChainState1
    = Ok (Some 0, Demo.ChainState1) /\
  RegisterField 1 Demo.ReloadedHost 0 "Health" 0 Demo.ChainState1
    ≠ Ok (None, Demo.ChainState1).
Proof.
  split; [apply ChainState1_Reachable|].
  split; [eexists; repeat split; vm_compute; reflexivity|].
  split; [vm_compute; reflexivity|].
  vm_compute. discriminate.
Qed.

(** ** Members declared on an ancestor *)





(** * Further properties of the file's operations *)

(** ** Every operation is a sequence of elementary changes *)

Lemma Load_steps h c st st' :
  Load h c st = Ok st' -> rtc (Grow h) st st'.
Proof.
  intros H.
  apply Load_Ok_inv in H as (d & Hd & [[_ ->]|(Hn & n & s & _ & _ & ->)]).
  - apply rtc_refl.
  - apply rtc_once. eapply Grow_bind; eauto.
Qed.

Section ConstructorSteps.
Variable reg : UStruct -> State -> Res (ClassPtr * State).
Variable h : Host.
Hypothesis reg_steps : forall T st c st',
  reg T st = Ok (c, st') -> rtc (Grow h) st st'.

Lemma RegisterInterfaces_steps l st st' :
  RegisterInterfaces reg l st = Ok st' -> rtc (Grow h) st st'.
Proof.
  revert st. induction l as [|i l IH]; simpl; intros st H.
  - inversion H. apply rtc_refl.
  - run_inv H. destruct a as [c st1].
    etrans; [eapply reg_steps; eauto | eauto].
Qed.

Lemma WalkSupers_steps n sup acc st l st' :
  WalkSupers reg h n sup acc st = Ok (l, st') -> rtc (Grow h) st st'.
Proof.
  revert sup acc st. induction n as [|n IH]; intros sup acc st H;
    destruct sup as [s|]; simpl in H; try discriminate;
    try (inversion H; subst; apply rtc_refl).
  run_inv H. destruct a as [c st1].
  etrans; [eapply reg_steps; eauto | eauto].
Qed.

Lemma FClassDesc_ctor_steps n InStruct InName st d st' :
  FClassDesc_ctor reg h n InStruct InName st = Ok (d, st') ->
  rtc (Grow h) st st' /\ Struct d = Some InStruct /\
  Fields d = ∅ /\ Properties d = [] /\ Functions d = [] /\
  ClassName d = InName /\
  FunctionCollection d
    = (if bIsClass d then FName.find (GDefaultParamCollection h) InName
       else None).
Proof.
  unfold FClassDesc_ctor. intros H.
  run_inv H. destruct a as [[[pad sz] fc] st1].
  run_inv H. destruct a as [supers st2].
  inversion H; subst; clear H. simpl.
  split; [|repeat split; auto;
           destruct (IsA_UClass h InStruct);
           [run_inv E; inversion E; reflexivity
           |destruct (IsA_UScriptStruct h InStruct); inversion E; reflexivity]].
  etrans; [|eapply WalkSupers_steps; eauto].
  destruct (IsA_UClass h InStruct).
  - run_inv E. inversion E; subst.
    eapply RegisterInterfaces_steps; eauto.
  - destruct (IsA_UScriptStruct h InStruct);
      inversion E; subst; apply rtc_refl.
Qed.
End ConstructorSteps.

Lemma RegisterReflectedType_steps fuel h T st c st' :
  RegisterReflectedType fuel h T st = Ok (c, st') -> rtc (Grow h) st st'.
Proof.
  revert T st c st'. induction fuel as [|f IH]; intros T st c st' H;
    simpl in H; [discriminate|].
  destruct (Classes st !! T) as [c0|] eqn:HT.
  - inversion H; subst. apply rtc_refl.
  - run_inv H. destruct a as [d st1]. inversion H; subst; clear H.
    apply (FClassDesc_ctor_steps _ h IH) in E
      as (Hs & HS & HF & HP & HFn & HN & HFC).
    eapply rtc_r; [exact Hs|].
    apply Grow_new;
      [apply new_addr_fresh | exact HF | exact HP | exact HFn
      | rewrite HS; eauto | rewrite HN; exact HFC].
Qed.

Lemma RegisterField_steps fuel h c name Q st r st' :
  RegisterField fuel h c name Q st = Ok (r, st') -> rtc (Grow h) st st'.
Proof.
  revert c st r st'. induction fuel as [|f IH]; intros c st r st' H;
    [discriminate|].
  apply RegisterField_inv in H as (stL & d & s & HL & Hd & Hs & Hcase).
  apply Load_steps in HL.
  destruct Hcase as [fp HF|HF HC|m HF HC HO|m fp st2 HF HC HO HR
                     |m o oc st2 r st2' HF HC HO Hne HR HRF]; auto.
  - eapply rtc_r; [exact HL|]. eapply Grow_local; eauto.
  - etrans; [exact HL|].
    etrans; [eapply RegisterReflectedType_steps; eauto|].
    eauto.
Qed.

Lemma FindField_steps h c name st r st' :
  FindField h c name st = Ok (r, st') -> rtc (Grow h) st st'.
Proof.
  unfold FindField. intros H. run_inv H. run_inv H. inversion H; subst.
  eapply Load_steps; eauto.
Qed.

Lemma AddRef_steps h c st st' : AddRef c st = Ok st' -> rtc (Grow h) st st'.
Proof.
  unfold AddRef. intros H. run_inv H. inversion H; subst.
  apply deref_Ok in E. apply rtc_once. eapply Grow_ref; eauto.
Qed.

Lemma SubRef_steps h c st st' : SubRef c st = Ok st' -> rtc (Grow h) st st'.
Proof.
  unfold SubRef. intros H. run_inv H. inversion H; subst.
  apply deref_Ok in E. apply rtc_once. eapply Grow_ref; eauto.
Qed.

Lemma UnLoad_steps h c st st' :
  UnLoad c st = Ok st' -> rtc (PrimStep h) st st'.
Proof.
  intros H. apply UnLoad_Ok_inv in H as (d & Hd & [[_ ->]|[Hs ->]]).
  - apply rtc_refl.
  - apply rtc_once. apply (Prim_unload h st c d); auto.
Qed.

Lemma Grow_PrimStep h st st' : rtc (Grow h) st st' -> rtc (PrimStep h) st st'.
Proof.
  induction 1 as [|x y z Hxy _ IH]; [apply rtc_refl|].
  eapply rtc_l; [apply Prim_grow; exact Hxy | exact IH].
Qed.

Lemma Reachable_steps h st : Reachable h st -> rtc (PrimStep h) InitState st.
Proof.
  induction 1 as [|fuel T st c st' _ IH H|fuel c name Q st r st' _ IH H
                  |c name st r st' _ IH H|c st st' _ IH H|c st st' _ IH H
                  |c st st' _ IH H|c st st' _ IH H];
    [apply rtc_refl|..]; (etrans; [exact IH|]).
  - apply Grow_PrimStep. eapply RegisterReflectedType_steps; eauto.
  - apply Grow_PrimStep. eapply RegisterField_steps; eauto.
  - apply Grow_PrimStep. eapply FindField_steps; eauto.
  - apply Grow_PrimStep. eapply Load_steps; eauto.
  - eapply UnLoad_steps; eauto.
  - apply Grow_PrimStep. eapply AddRef_steps; eauto.
  - apply Grow_PrimStep. eapply SubRef_steps; eauto.
Qed.

(** An invariant of the elementary changes holds in every reachable
    state. *)
Lemma Reachable_invariant h (P : State -> Prop) :
  P InitState ->
  (forall st st', P st -> PrimStep h st st' -> P st') ->
  forall st, Reachable h st -> P st.
Proof.
  intros H0 Hstep st HR. apply Reachable_steps in HR.
  revert st HR. apply (rtc_ind_r P InitState); [exact H0|].
  intros y z _ Hyz Py. eauto.
Qed.

(** ** Nothing is removed by the operations that only add *)

Lemma grows_trans st1 st2 st3 : grows st1 st2 -> grows st2 st3 -> grows st1 st3.
Proof.
  intros (A & A1 & A2 & A3) (B & B1 & B2 & B3).
  split; [|repeat split; etrans; eauto].
  intros c d Hd. destruct (A _ _ Hd) as (d' & Hd' & K & F & P & Fn).
  destruct (B _ _ Hd') as (d'' & Hd'' & K' & F' & P' & Fn').
  exists d''. split; [exact Hd''|]. split; [eapply keeps_trans; eauto|].
  repeat split; etrans; eauto.
Qed.

(** A state that differs from [st] in the descriptor at [c] only,
    and there only by more entries, grows [st]. *)
Lemma grows_put c d d' st FH PH FnH :
  ClassHeap st !! c = Some d -> keeps d d' ->
  Fields d ⊆ Fields d' -> Properties d `prefix_of` Properties d' ->
  Functions d `prefix_of` Functions d' ->
  FieldHeap st ⊆ FH -> PropHeap st ⊆ PH -> FuncHeap st ⊆ FnH ->
  grows st (mkState (Classes st) (<[c := d']> (ClassHeap st)) FH PH FnH).
Proof.
  intros Hd K F P Fn A1 A2 A3. split; [|auto].
  intros c0 d0 Hd0. simpl. destruct (decide (c0 = c)) as [->|Hne].
  - rewrite lookup_insert_eq. exists d'.
    assert (d0 = d) by congruence. subst. auto.
  - rewrite lookup_insert_ne by congruence. exists d0.
    split; [exact Hd0|]. split; [apply keeps_refl|]. auto.
Qed.

Lemma Grow_grows h st st' : Grow h st st' -> grows st st'.
Proof.
  intros [c d s Hd Hs|c d v Hd|c d s m name Q fp st2 Hd Hs HF HC HO HR
          |T c d Hc HF HP HFn HS HFC].
  - apply (grows_put c d); auto.
    split; [reflexivity|]. intros s0 E. congruence.
  - apply (grows_put c d); auto.
    split; [reflexivity|]. auto.
  - unfold RegisterLocal in HR. destruct m; inversion HR; subst; clear HR.
    + apply (grows_put c d); auto; simpl.
      * split; [reflexivity|]. auto.
      * apply insert_subseteq. exact HF.
      * apply prefix_app_r. reflexivity.
      * apply insert_subseteq, new_addr_fresh.
      * apply insert_subseteq, new_addr_fresh.
    + apply (grows_put c d); auto; simpl.
      * split; [reflexivity|]. auto.
      * apply insert_subseteq. exact HF.
      * apply prefix_app_r. reflexivity.
      * apply insert_subseteq, new_addr_fresh.
      * apply insert_subseteq, new_addr_fresh.
  - split; [|auto]. intros c0 d0 Hd0. simpl.
    rewrite lookup_insert_ne by congruence. exists d0.
    split; [exact Hd0|]. split; [apply keeps_refl|]. auto.
Qed.

Lemma Grow_rtc_grows h st st' : rtc (Grow h) st st' -> grows st st'.
Proof.
  induction 1 as [|x y z Hxy _ IH]; [apply grows_refl|].
  eapply grows_trans; [eapply Grow_grows; eauto | exact IH].
Qed.

(** ** Ownership is kept by every elementary change *)

Lemma delete_all_in {A} (ps : list nat) (H : gmap nat A) p :
  p ∈ ps -> delete_all ps H !! p = None.
Proof.
  induction ps as [|q ps IH]; simpl; intros Hin.
  - apply elem_of_nil in Hin. contradiction.
  - destruct (decide (q = p)) as [->|Hne]; [apply lookup_delete_eq|].
    rewrite lookup_delete_ne by exact Hne. apply IH.
    apply elem_of_cons in Hin as [->|Hin]; [congruence | exact Hin].
Qed.

Lemma delete_all_Some {A} (ps : list nat) (H : gmap nat A) p x :
  delete_all ps H !! p = Some x <-> H !! p = Some x /\ p ∉ ps.
Proof.
  split.
  - intros E. destruct (decide (p ∈ ps)) as [Hin|Hn].
    + rewrite delete_all_in in E by exact Hin. discriminate.
    + rewrite delete_all_notin in E by exact Hn. auto.
  - intros [E Hn]. rewrite delete_all_notin by exact Hn. exact E.
Qed.

Lemma elem_of_field_ptrs d fp :
  fp ∈ field_ptrs d <-> exists name, Fields d !! name = Some fp.
Proof.
  unfold field_ptrs. rewrite list_elem_of_fmap. split.
  - intros ([n p] & E & Hin). simpl in E. subst p.
    apply elem_of_map_to_list in Hin. eauto.
  - intros (n & E). exists (n, fp). split; [reflexivity|].
    apply elem_of_map_to_list. exact E.
Qed.

Lemma field_ptrs_insert d d' name fp :
  Fields d !! name = None -> Fields d' = <[name := fp]> (Fields d) ->
  field_ptrs d' ≡ₚ field_ptrs d ++ [fp].
Proof.
  intros HF E. unfold field_ptrs. rewrite E.
  rewrite map_to_list_insert by exact HF. simpl.
  apply Permutation_cons_append.
Qed.

Section OwnedFacts.
Context {A : Type}.
Variable get : FClassDesc -> list nat.

Lemma Owned_init : Owned (A:=A) get ∅ ∅.
Proof.
  split.
  - intros c d p Hd. rewrite lookup_empty in Hd. discriminate.
  - intros c d Hd. rewrite lookup_empty in Hd. discriminate.
  - intros c1 d1 c2 d2 p Hd. rewrite lookup_empty in Hd. discriminate.
  - intros p [x Hx]. rewrite lookup_empty in Hx. discriminate.
Qed.

(** Descriptors replaced by ones with the same container, or added
    with an empty container. *)
Lemma Owned_transport CH CH' (H : gmap nat A) :
  (forall c d', CH' !! c = Some d' ->
     (exists d, CH !! c = Some d /\ get d' = get d) \/ get d' = []) ->
  (forall c d, CH !! c = Some d ->
     exists d', CH' !! c = Some d' /\ get d' = get d) ->
  Owned get CH H -> Owned get CH' H.
Proof.
  intros Bwd Fwd [L N O U]. split.
  - intros c d' p Hd' Hp.
    destruct (Bwd _ _ Hd') as [(d & Hd & E)|E]; rewrite E in Hp.
    + eauto.
    + apply elem_of_nil in Hp. contradiction.
  - intros c d' Hd'.
    destruct (Bwd _ _ Hd') as [(d & Hd & E)|E]; rewrite E.
    + eauto.
    + constructor.
  - intros c1 d1 c2 d2 p H1 H2 P1 P2.
    destruct (Bwd _ _ H1) as [(e1 & He1 & E1)|E1]; rewrite E1 in P1;
      [|apply elem_of_nil in P1; contradiction].
    destruct (Bwd _ _ H2) as [(e2 & He2 & E2)|E2]; rewrite E2 in P2;
      [|apply elem_of_nil in P2; contradiction].
    eauto.
  - intros p Hp. destruct (U _ Hp) as (c & d & Hd & Hin).
    destruct (Fwd _ _ Hd) as (d' & Hd' & E).
    exists c, d'. rewrite E. auto.
Qed.

(** The container of [c] gains the new objects [l]. *)
Lemma Owned_append CH (H H' : gmap nat A) c d d' l :
  CH !! c = Some d -> get d' ≡ₚ get d ++ l -> NoDup l ->
  (forall p, p ∈ l -> H !! p = None) ->
  (forall p, is_Some (H' !! p) <-> is_Some (H !! p) \/ p ∈ l) ->
  Owned get CH H -> Owned get (<[c := d']> CH) H'.
Proof.
  intros Hd E Nl Fresh HH' [L N O U].
  assert (Hin' : forall p, p ∈ get d' <-> p ∈ get d \/ p ∈ l).
  { intros p. rewrite E. apply elem_of_app. }
  assert (Hold : forall c0 d0 p, CH !! c0 = Some d0 -> p ∈ get d0 -> p ∉ l).
  { intros c0 d0 p Hd0 Hp Hl. destruct (L _ _ _ Hd0 Hp) as [x Hx].
    rewrite (Fresh _ Hl) in Hx. discriminate. }
  split.
  - intros c0 d0 p Hd0 Hp. apply HH'.
    destruct (decide (c0 = c)) as [->|Hne].
    + rewrite lookup_insert_eq in Hd0. inversion Hd0; subst d0.
      apply Hin' in Hp as [Hp|Hp]; eauto.
    + rewrite lookup_insert_ne in Hd0 by congruence. eauto.
  - intros c0 d0 Hd0. destruct (decide (c0 = c)) as [->|Hne].
    + rewrite lookup_insert_eq in Hd0. inversion Hd0; subst d0.
      rewrite E. apply NoDup_app. split; [eauto|]. split; [|exact Nl].
      intros p Hp. eauto.
    + rewrite lookup_insert_ne in Hd0 by congruence. eauto.
  - intros c1 d1 c2 d2 p H1 H2 P1 P2.
    destruct (decide (c1 = c)) as [->|N1]; destruct (decide (c2 = c)) as [->|N2];
      try reflexivity.
    + rewrite lookup_insert_eq in H1. inversion H1; subst d1.
      rewrite lookup_insert_ne in H2 by congruence.
      apply Hin' in P1 as [P1|P1]; [eauto|].
      exfalso. eapply Hold; eauto.
    + rewrite lookup_insert_eq in H2. inversion H2; subst d2.
      rewrite lookup_insert_ne in H1 by congruence.
      apply Hin' in P2 as [P2|P2]; [eauto|].
      exfalso. eapply Hold; eauto.
    + rewrite lookup_insert_ne in H1 by congruence.
      rewrite lookup_insert_ne in H2 by congruence. eauto.
  - intros p Hp. apply HH' in Hp as [Hp|Hp].
    + destruct (U _ Hp) as (c0 & d0 & Hd0 & Hin).
      destruct (decide (c0 = c)) as [->|Hne].
      * exists c, d'. rewrite lookup_insert_eq. split; [reflexivity|].
        apply Hin'. left. congruence.
      * exists c0, d0. rewrite lookup_insert_ne by congruence. auto.
    + exists c, d'. rewrite lookup_insert_eq. split; [reflexivity|].
      apply Hin'. right. exact Hp.
Qed.

(** The objects of [c] are deleted, and [c] keeps an empty container
    or goes away itself. *)
Lemma Owned_release CH CH' (H : gmap nat A) c d :
  CH !! c = Some d ->
  (forall c0, c0 ≠ c -> CH' !! c0 = CH !! c0) ->
  (forall d', CH' !! c = Some d' -> get d' = []) ->
  Owned get CH H -> Owned get CH' (delete_all (get d) H).
Proof.
  intros Hd Off At [L N O U]. split.
  - intros c0 d0 p Hd0 Hp. destruct (decide (c0 = c)) as [->|Hne].
    + rewrite (At _ Hd0) in Hp. apply elem_of_nil in Hp. contradiction.
    + rewrite Off in Hd0 by exact Hne.
      destruct (L _ _ _ Hd0 Hp) as [x Hx]. exists x.
      apply delete_all_Some. split; [exact Hx|].
      intros Hin. apply Hne. eauto.
  - intros c0 d0 Hd0. destruct (decide (c0 = c)) as [->|Hne].
    + rewrite (At _ Hd0). constructor.
    + rewrite Off in Hd0 by exact Hne. eauto.
  - intros c1 d1 c2 d2 p H1 H2 P1 P2.
    destruct (decide (c1 = c)) as [->|N1].
    { rewrite (At _ H1) in P1. apply elem_of_nil in P1. contradiction. }
    destruct (decide (c2 = c)) as [->|N2].
    { rewrite (At _ H2) in P2. apply elem_of_nil in P2. contradiction. }
    rewrite Off in H1 by exact N1. rewrite Off in H2 by exact N2. eauto.
  - intros p [x Hx]. apply delete_all_Some in Hx as [Hx Hn].
    destruct (U p (ex_intro _ x Hx)) as (c0 & d0 & Hd0 & Hin).
    assert (c0 ≠ c) by (intros ->; congruence).
    exists c0, d0. rewrite Off by assumption. auto.
Qed.
End OwnedFacts.

Lemma field_ptrs_eq d d' : Fields d' = Fields d -> field_ptrs d' = field_ptrs d.
Proof. unfold field_ptrs. intros ->. reflexivity. Qed.

Lemma field_ptrs_empty d : Fields d = ∅ -> field_ptrs d = [].
Proof. unfold field_ptrs. intros ->. rewrite map_to_list_empty. reflexivity. Qed.

Lemma tables_inv d d' :
  tables d' = tables d ->
  Fields d' = Fields d /\ Properties d' = Properties d /\
  Functions d' = Functions d.
Proof. unfold tables. intros E. injection E as E1 E2 E3. auto. Qed.

Lemma HeapInv_init : HeapInv InitState.
Proof.
  split; try apply Owned_init;
    intros c d Hd; simpl in Hd; rewrite lookup_empty in Hd; discriminate.
Qed.

(** Descriptors replaced by ones with the same tables, or added with
    empty tables; heaps untouched. *)
Lemma HeapInv_transport st st' :
  FieldHeap st' = FieldHeap st -> PropHeap st' = PropHeap st ->
  FuncHeap st' = FuncHeap st ->
  (forall c d', ClassHeap st' !! c = Some d' ->
     (exists d, ClassHeap st !! c = Some d /\ tables d' = tables d /\
                (Struct d' = None -> Struct d = None)) \/
     (Fields d' = ∅ /\ Properties d' = [] /\ Functions d' = [])) ->
  (forall c d, ClassHeap st !! c = Some d ->
     exists d', ClassHeap st' !! c = Some d' /\ tables d' = tables d) ->
  HeapInv st -> HeapInv st'.
Proof.
  intros EF EP EFn Bwd Fwd [HF HP HFn HC HU].
  split.
  - rewrite EF. eapply Owned_transport; [| |exact HF].
    + intros c d' Hd'. destruct (Bwd _ _ Hd') as [(d & Hd & T & _)|(E & _)].
      * left. exists d. apply tables_inv in T as (T1 & _).
        auto using field_ptrs_eq.
      * right. apply field_ptrs_empty. exact E.
    + intros c d Hd. destruct (Fwd _ _ Hd) as (d' & Hd' & T).
      exists d'. apply tables_inv in T as (T1 & _). auto using field_ptrs_eq.
  - rewrite EP. eapply Owned_transport; [| |exact HP].
    + intros c d' Hd'. destruct (Bwd _ _ Hd') as [(d & Hd & T & _)|(_ & E & _)].
      * left. exists d. apply tables_inv in T as (_ & T2 & _). auto.
      * right. exact E.
    + intros c d Hd. destruct (Fwd _ _ Hd) as (d' & Hd' & T).
      exists d'. apply tables_inv in T as (_ & T2 & _). auto.
  - rewrite EFn. eapply Owned_transport; [| |exact HFn].
    + intros c d' Hd'. destruct (Bwd _ _ Hd') as [(d & Hd & T & _)|(_ & _ & E)].
      * left. exists d. apply tables_inv in T as (_ & _ & T3). auto.
      * right. exact E.
    + intros c d Hd. destruct (Fwd _ _ Hd) as (d' & Hd' & T).
      exists d'. apply tables_inv in T as (_ & _ & T3). auto.
  - intros c d' Hd'. destruct (Bwd _ _ Hd') as [(d & Hd & T & _)|(E1 & E2 & E3)].
    + apply tables_inv in T as (T1 & T2 & T3). rewrite T1, T2, T3. eauto.
    + rewrite E1, E2, E3. reflexivity.
  - intros c d' Hd' Hs. destruct (Bwd _ _ Hd') as [(d & Hd & T & S)|E]; [|exact E].
    apply tables_inv in T as (T1 & T2 & T3). rewrite T1, T2, T3. eauto.
Qed.

Lemma HeapInv_put c d d' st :
  ClassHeap st !! c = Some d -> tables d' = tables d ->
  (Struct d' = None -> Struct d = None) ->
  HeapInv st -> HeapInv (put_desc c d' st).
Proof.
  intros Hd T S. apply HeapInv_transport; try reflexivity; simpl.
  - intros c0 d0 Hd0. left. destruct (decide (c0 = c)) as [->|Hne].
    + rewrite lookup_insert_eq in Hd0. inversion Hd0; subst d0. eauto.
    + rewrite lookup_insert_ne in Hd0 by congruence. eauto.
  - intros c0 d0 Hd0. destruct (decide (c0 = c)) as [->|Hne].
    + rewrite lookup_insert_eq. exists d'. split; [reflexivity|]. congruence.
    + rewrite lookup_insert_ne by congruence. eauto.
Qed.

Lemma HeapInv_local c d s m name Q st fp st' :
  ClassHeap st !! c = Some d -> Struct d = Some s ->
  Fields d !! FName.key name = None ->
  RegisterLocal c d m name Q st = (fp, st') ->
  HeapInv st -> HeapInv st'.
Proof.
  intros Hd Hs HFd HR [HF HP HFn HC HU].
  assert (Hone : forall {A} (H : gmap nat A) (x : A) p,
            is_Some (<[new_addr H := x]> H !! p) <->
            is_Some (H !! p) \/ p ∈ [new_addr H]).
  { intros A H x p. rewrite list_elem_of_singleton.
    destruct (decide (p = new_addr H)) as [->|Hne].
    - rewrite lookup_insert_eq. split; eauto.
    - rewrite lookup_insert_ne by congruence. split; [auto|].
      intros [?|?]; [assumption | contradiction]. }
  assert (Hnone : forall {A} (H : gmap nat A) p,
            is_Some (H !! p) <-> is_Some (H !! p) \/ p ∈ @nil nat).
  { intros A H p. rewrite elem_of_nil. tauto. }
  assert (Hfresh : forall {A} (H : gmap nat A) p,
            p ∈ [new_addr H] -> H !! p = None).
  { intros A H p Hp. apply list_elem_of_singleton in Hp. subst.
    apply new_addr_fresh. }
  assert (Hnil : forall {A} (H : gmap nat A) p, p ∈ @nil nat -> H !! p = None).
  { intros A H p Hp. apply elem_of_nil in Hp. contradiction. }
  assert (N1 : forall x : nat, NoDup [x]) by (intros x; apply NoDup_singleton).
  unfold RegisterLocal in HR. destruct m as [p|fn];
    inversion HR; subst; clear HR; split; simpl.
  - eapply Owned_append; eauto. eapply field_ptrs_insert; eauto.
  - eapply Owned_append; eauto; simpl; reflexivity.
  - eapply (Owned_append _ _ _ _ c d _ []); eauto.
    + simpl. rewrite app_nil_r. reflexivity.
    + constructor.
  - intros c0 d0 Hd0. destruct (decide (c0 = c)) as [->|Hne].
    + rewrite lookup_insert_eq in Hd0. inversion Hd0; subst d0. simpl.
      rewrite map_size_insert_None by exact HFd.
      rewrite length_app. simpl. rewrite (HC _ _ Hd). lia.
    + rewrite lookup_insert_ne in Hd0 by congruence. eauto.
  - intros c0 d0 Hd0 Hs0. destruct (decide (c0 = c)) as [->|Hne].
    + rewrite lookup_insert_eq in Hd0. inversion Hd0; subst d0.
      simpl in Hs0. congruence.
    + rewrite lookup_insert_ne in Hd0 by congruence. eauto.
  - eapply Owned_append; eauto. eapply field_ptrs_insert; eauto.
  - eapply (Owned_append _ _ _ _ c d _ []); eauto.
    + simpl. rewrite app_nil_r. reflexivity.
    + constructor.
  - eapply Owned_append; eauto; simpl; reflexivity.
  - intros c0 d0 Hd0. destruct (decide (c0 = c)) as [->|Hne].
    + rewrite lookup_insert_eq in Hd0. inversion Hd0; subst d0. simpl.
      rewrite map_size_insert_None by exact HFd.
      rewrite length_app. simpl. rewrite (HC _ _ Hd). lia.
    + rewrite lookup_insert_ne in Hd0 by congruence. eauto.
  - intros c0 d0 Hd0 Hs0. destruct (decide (c0 = c)) as [->|Hne].
    + rewrite lookup_insert_eq in Hd0. inversion Hd0; subst d0.
      simpl in Hs0. congruence.
    + rewrite lookup_insert_ne in Hd0 by congruence. eauto.
Qed.

(** The objects of [c] are all deleted; [c] stays with empty tables
    and no [Struct], or goes away. *)
Lemma HeapInv_release st st' c d :
  ClassHeap st !! c = Some d ->
  (forall c0, c0 ≠ c -> ClassHeap st' !! c0 = ClassHeap st !! c0) ->
  (forall d', ClassHeap st' !! c = Some d' ->
     Fields d' = ∅ /\ Properties d' = [] /\ Functions d' = []) ->
  FieldHeap st' = delete_all (field_ptrs d) (FieldHeap st) ->
  PropHeap st' = delete_all (Properties d) (PropHeap st) ->
  FuncHeap st' = delete_all (Functions d) (FuncHeap st) ->
  HeapInv st -> HeapInv st'.
Proof.
  intros Hd Off At EF EP EFn [HF HP HFn HC HU]. split.
  - rewrite EF. eapply Owned_release; eauto.
    intros d' Hd'. apply field_ptrs_empty. apply (At _ Hd').
  - rewrite EP. eapply Owned_release; eauto.
    intros d' Hd'. apply (At _ Hd').
  - rewrite EFn. eapply Owned_release; eauto.
    intros d' Hd'. apply (At _ Hd').
  - intros c0 d0 Hd0. destruct (decide (c0 = c)) as [->|Hne].
    + destruct (At _ Hd0) as (E1 & E2 & E3). rewrite E1, E2, E3. reflexivity.
    + rewrite Off in Hd0 by exact Hne. eauto.
  - intros c0 d0 Hd0 Hs0. destruct (decide (c0 = c)) as [->|Hne].
    + apply (At _ Hd0).
    + rewrite Off in Hd0 by exact Hne. eauto.
Qed.

Lemma HeapInv_PrimStep h st st' : HeapInv st -> PrimStep h st st' -> HeapInv st'.
Proof.
  intros I [st2 [c d s Hd Hs|c d v Hd|c d s m name Q fp st3 Hd Hs HF HC HO HR
                 |T c d Hc HF HP HFn HS HFC]|c d Hd Hs].
  - apply (HeapInv_put c d); auto; simpl; discriminate.
  - apply (HeapInv_put c d); auto.
  - eapply HeapInv_local; eauto.
  - revert I. apply HeapInv_transport; try reflexivity; simpl.
    + intros c0 d0 Hd0. destruct (decide (c0 = c)) as [->|Hne].
      * rewrite lookup_insert_eq in Hd0. inversion Hd0; subst d0. auto.
      * rewrite lookup_insert_ne in Hd0 by congruence. left. eauto.
    + intros c0 d0 Hd0. exists d0. split; [|reflexivity].
      rewrite lookup_insert_ne by congruence. exact Hd0.
  - revert I. apply (HeapInv_release _ _ c d); auto; simpl.
    + intros c0 Hne. apply lookup_insert_ne. congruence.
    + intros d'. rewrite lookup_insert_eq. intros E. inversion E. auto.
Qed.

Lemma Reachable_HeapInv h st : Reachable h st -> HeapInv st.
Proof.
  apply Reachable_invariant; [apply HeapInv_init|].
  intros s1 s2. apply HeapInv_PrimStep.
Qed.

(** ** Every cached field resolves *)

Lemma ClassifyField_function h d s name f :
  ClassifyField h d s name = Some (MFunction f) ->
  bIsClass d = true /\ FindPropertyByName h s name = None /\
  FindFunctionByName h s name = Some f.
Proof.
  unfold ClassifyField.
  destruct (FindPropertyByName h s name) as [p|]; simpl; [discriminate|].
  destruct (bIsClass d); simpl.
  - destruct (FindFunctionByName h s name) as [f0|]; simpl.
    + intros E. inversion E. auto.
    + destruct (bIsScriptStruct d && negb (IsNative h s))%bool;
        [destruct (FindRecoveredProperty h s name)|]; discriminate.
  - destruct (bIsScriptStruct d && negb (IsNative h s))%bool;
      [destruct (FindRecoveredProperty h s name)|]; discriminate.
Qed.

Lemma IndexInv_init h : IndexInv h InitState.
Proof.
  intros c d name fp fd Hd. simpl in Hd. rewrite lookup_empty in Hd.
  discriminate.
Qed.

Lemma IndexInv_put h c d d' st :
  ClassHeap st !! c = Some d -> tables d' = tables d ->
  static_part d' = static_part d ->
  (Fields d = ∅ \/ Struct d' = Struct d) ->
  IndexInv h st -> IndexInv h (put_desc c d' st).
Proof.
  intros Hd T SP S I c0 d0 name fp fd Hd0 HF Hfd. simpl in *.
  destruct (decide (c0 = c)) as [->|Hne].
  - rewrite lookup_insert_eq in Hd0. inversion Hd0; subst d0.
    apply tables_inv in T as (T1 & T2 & T3). rewrite T1 in HF.
    destruct S as [E|E]; [rewrite E, lookup_empty in HF; discriminate|].
    destruct (I _ _ _ _ _ Hd HF Hfd) as (n0 & s & m & K & A & B & C & D).
    exists n0, s, m. split; [exact K|]. split; [congruence|].
    split; [rewrite <- B; apply ClassifyField_flags; exact SP|].
    split; [exact C|]. rewrite T2, T3.
    replace (DefaultParamsOf d' n0) with (DefaultParamsOf d n0); [exact D|].
    unfold DefaultParamsOf. unfold static_part in SP.
    injection SP as _ _ _ _ _ _ _ E8 _. rewrite E8. reflexivity.
  - rewrite lookup_insert_ne in Hd0 by congruence. eauto.
Qed.

Lemma IndexInv_local h c d s m name Q st fp st' :
  ClassHeap st !! c = Some d -> Struct d = Some s ->
  Fields d !! FName.key name = None ->
  ClassifyField h d s name = Some m -> MemberOuter h m = Some s ->
  RegisterLocal c d m name Q st = (fp, st') ->
  HeapInv st -> IndexInv h st -> IndexInv h st'.
Proof.
  intros Hd Hs HFd HC HO HR HI I.
  (* what an old entry of any descriptor still resolves to *)
  assert (Keep : forall c0 d0 n fp0 fd0 PH FnH P' Fn',
    ClassHeap st !! c0 = Some d0 -> Fields d0 !! n = Some fp0 ->
    FieldHeap st !! fp0 = Some fd0 ->
    PropHeap st ⊆ PH -> FuncHeap st ⊆ FnH ->
    Properties d0 `prefix_of` P' -> Functions d0 `prefix_of` Fn' ->
    exists n0 s0 m0, FName.key n0 = n /\ Struct d0 = Some s0 /\
      ClassifyField h d0 s0 n0 = Some m0 /\
      MemberOuter h m0 = Some s0 /\
      match m0 with
      | MProperty p0 =>
          exists k pd, P' !! k = Some pd /\
            PH !! pd = Some (mkPropertyDesc p0) /\
            FieldIndex fd0 = property_index k
      | MFunction f0 =>
          exists k fn, Fn' !! k = Some fn /\
            FnH !! fn = Some (mkFunctionDesc f0 (DefaultParamsOf d0 n0)) /\
            FieldIndex fd0 = function_index k
      end).
  { intros c0 d0 n fp0 fd0 PH FnH P' Fn' Hd0 HF0 Hfd0 SP SF PP PF.
    destruct (I _ _ _ _ _ Hd0 HF0 Hfd0) as (n0 & s0 & m0 & K & A & B & C & D).
    exists n0, s0, m0. repeat split; auto.
    destruct m0 as [p0|f0]; destruct D as (k & x & D1 & D2 & D3);
      exists k, x; repeat split; auto.
    - eapply prefix_lookup_Some; eauto.
    - eapply lookup_weaken; eauto.
    - eapply prefix_lookup_Some; eauto.
    - eapply lookup_weaken; eauto. }
  assert (Old : forall c0 d0 n fp0, ClassHeap st !! c0 = Some d0 ->
            Fields d0 !! n = Some fp0 -> fp0 ≠ new_addr (FieldHeap st)).
  { intros c0 d0 n fp0 Hd0 HF0. apply new_addr_ne.
    eapply (ow_live _ _ _ (hi_fields _ HI)); eauto.
    apply elem_of_field_ptrs. eauto. }
  unfold RegisterLocal in HR. destruct m as [p|fn];
    inversion HR; subst; clear HR;
    intros c0 d0 n fp0 fd0 Hd0 HF0 Hfd0; simpl in *.
  - destruct (decide (c0 = c)) as [->|Hne].
    + rewrite lookup_insert_eq in Hd0. inversion Hd0; subst d0. simpl in *.
      destruct (decide (n = FName.key name)) as [->|Hn].
      * rewrite lookup_insert_eq in HF0. inversion HF0; subst fp0.
        rewrite lookup_insert_eq in Hfd0. inversion Hfd0; subst fd0.
        exists name, s, (MProperty p). repeat split; auto.
        exists (length (Properties d)), (new_addr (PropHeap st)).
        split; [|split; [apply lookup_insert_eq | reflexivity]].
        rewrite lookup_app_r by lia. rewrite Nat.sub_diag. reflexivity.
      * rewrite lookup_insert_ne in HF0 by congruence.
        rewrite lookup_insert_ne in Hfd0 by (apply not_eq_sym; eauto).
        eapply (Keep c d); eauto.
        -- apply insert_subseteq, new_addr_fresh.
        -- apply prefix_app_r. reflexivity.
    + rewrite lookup_insert_ne in Hd0 by congruence.
      rewrite lookup_insert_ne in Hfd0 by (apply not_eq_sym; eauto).
      eapply Keep; eauto. apply insert_subseteq, new_addr_fresh.
  - destruct (decide (c0 = c)) as [->|Hne].
    + rewrite lookup_insert_eq in Hd0. inversion Hd0; subst d0. simpl in *.
      destruct (decide (n = FName.key name)) as [->|Hn].
      * rewrite lookup_insert_eq in HF0. inversion HF0; subst fp0.
        rewrite lookup_insert_eq in Hfd0. inversion Hfd0; subst fd0.
        exists name, s, (MFunction fn). repeat split; auto.
        exists (length (Functions d)), (new_addr (FuncHeap st)).
        split; [|split; [apply lookup_insert_eq | reflexivity]].
        rewrite lookup_app_r by lia. rewrite Nat.sub_diag. reflexivity.
      * rewrite lookup_insert_ne in HF0 by congruence.
        rewrite lookup_insert_ne in Hfd0 by (apply not_eq_sym; eauto).
        eapply (Keep c d); eauto.
        -- apply insert_subseteq, new_addr_fresh.
        -- apply prefix_app_r. reflexivity.
    + rewrite lookup_insert_ne in Hd0 by congruence.
      rewrite lookup_insert_ne in Hfd0 by (apply not_eq_sym; eauto).
      eapply Keep; eauto. apply insert_subseteq, new_addr_fresh.
Qed.

Lemma IndexInv_unload h c d st :
  ClassHeap st !! c = Some d ->
  HeapInv st -> IndexInv h st -> IndexInv h (unloaded_state c d st).
Proof.
  intros Hd HI I c0 d0 n fp0 fd0 Hd0 HF0 Hfd0. simpl in *.
  destruct (decide (c0 = c)) as [->|Hne].
  { rewrite lookup_insert_eq in Hd0. inversion Hd0; subst d0.
    simpl in HF0. rewrite lookup_empty in HF0. discriminate. }
  rewrite lookup_insert_ne in Hd0 by congruence.
  apply delete_all_Some in Hfd0 as [Hfd0 _].
  destruct (I _ _ _ _ _ Hd0 HF0 Hfd0) as (n0 & s0 & m0 & K & A & B & C & D).
  exists n0, s0, m0. repeat split; auto.
  destruct m0 as [p0|f0]; destruct D as (k & x & D1 & D2 & D3);
    exists k, x; repeat split; auto.
  - apply delete_all_Some. split; [exact D2|]. intros Hin. apply Hne.
    eapply (ow_owner _ _ _ (hi_props _ HI)); eauto.
    eapply list_elem_of_lookup_2; eauto.
  - apply delete_all_Some. split; [exact D2|]. intros Hin. apply Hne.
    eapply (ow_owner _ _ _ (hi_funcs _ HI)); eauto.
    eapply list_elem_of_lookup_2; eauto.
Qed.

Lemma IndexInv_PrimStep h st st' :
  HeapInv st -> IndexInv h st -> PrimStep h st st' -> IndexInv h st'.
Proof.
  intros HI I [st2 [c d s Hd Hs|c d v Hd|c d s m name Q fp st3 Hd Hs HF HC HO HR
                    |T c d Hc HF HP HFn HS HFC]|c d Hd Hs].
  - apply (IndexInv_put h c d); auto.
    left. apply (hi_unbound _ HI _ _ Hd Hs).
  - apply (IndexInv_put h c d); auto.
  - eapply IndexInv_local; eauto.
  - intros c0 d0 n fp0 fd0 Hd0 HF0 Hfd0. simpl in *.
    destruct (decide (c0 = c)) as [->|Hne].
    + rewrite lookup_insert_eq in Hd0. inversion Hd0; subst d0.
      rewrite HF, lookup_empty in HF0. discriminate.
    + rewrite lookup_insert_ne in Hd0 by congruence. eauto.
  - apply IndexInv_unload; auto.
Qed.

Lemma FunctionsOnlyOnClasses_PrimStep h st st' :
  FunctionsOnlyOnClasses st -> PrimStep h st st' -> FunctionsOnlyOnClasses st'.
Proof.
  intros I [st2 [c d s Hd Hs|c d v Hd|c d s m name Q fp st3 Hd Hs HF HC HO HR
                 |T c d Hc HF HP HFn HS HFC]|c d Hd Hs];
    intros c0 d0 Hd0 Hne0; simpl in *.
  - destruct (decide (c0 = c)) as [->|Hne].
    + rewrite lookup_insert_eq in Hd0. inversion Hd0; subst d0.
      apply (I _ _ Hd). exact Hne0.
    + rewrite lookup_insert_ne in Hd0 by congruence. eauto.
  - destruct (decide (c0 = c)) as [->|Hne].
    + rewrite lookup_insert_eq in Hd0. inversion Hd0; subst d0.
      apply (I _ _ Hd). exact Hne0.
    + rewrite lookup_insert_ne in Hd0 by congruence. eauto.
  - unfold RegisterLocal in HR. destruct m as [p|fn];
      inversion HR; subst; clear HR; simpl in *;
      (destruct (decide (c0 = c)) as [->|Hne];
       [rewrite lookup_insert_eq in Hd0; inversion Hd0; subst d0
       |rewrite lookup_insert_ne in Hd0 by congruence; eauto]).
    + apply (I _ _ Hd). exact Hne0.
    + apply (ClassifyField_function _ _ _ _ _ HC).
  - destruct (decide (c0 = c)) as [->|Hne].
    + rewrite lookup_insert_eq in Hd0. inversion Hd0; subst d0. congruence.
    + rewrite lookup_insert_ne in Hd0 by congruence. eauto.
  - destruct (decide (c0 = c)) as [->|Hne].
    + rewrite lookup_insert_eq in Hd0. inversion Hd0; subst d0.
      simpl in Hne0. congruence.
    + rewrite lookup_insert_ne in Hd0 by congruence. eauto.
Qed.

Lemma Reachable_all h st :
  Reachable h st ->
  HeapInv st /\ IndexInv h st /\ FunctionsOnlyOnClasses st.
Proof.
  apply (Reachable_invariant h
           (fun st => HeapInv st /\ IndexInv h st /\ FunctionsOnlyOnClasses st)).
  - split; [apply HeapInv_init|]. split; [apply IndexInv_init|].
    intros c d Hd. simpl in Hd. rewrite lookup_empty in Hd. discriminate.
  - intros s1 s2 (A & B & C) Hstep. split; [|split].
    + eapply HeapInv_PrimStep; eauto.
    + eapply IndexInv_PrimStep; eauto.
    + eapply FunctionsOnlyOnClasses_PrimStep; eauto.
Qed.

(** ** The heaps in reachable states *)

(** X1: in every reachable state no pointer dangles and nothing
    leaks.  Each entry of [Fields] points to a live field descriptor
    whose [OuterClass] is the caching descriptor, each pointer in
    [Properties] and [Functions] is live; and each live field,
    property or function descriptor is held by a live class
    descriptor. *)
Theorem Reachable_no_dangling_no_leak h st :
  Reachable h st ->
  (forall c d name fp,
     ClassHeap st !! c = Some d -> Fields d !! name = Some fp ->
     exists fd, FieldHeap st !! fp = Some fd /\ OuterClass fd = c) /\
  (forall c d pd,
     ClassHeap st !! c = Some d -> pd ∈ Properties d ->
     is_Some (PropHeap st !! pd)) /\
  (forall c d fn,
     ClassHeap st !! c = Some d -> fn ∈ Functions d ->
     is_Some (FuncHeap st !! fn)) /\
  (forall fp fd,
     FieldHeap st !! fp = Some fd ->
     exists d name, ClassHeap st !! OuterClass fd = Some d /\
       Fields d !! name = Some fp) /\
  (forall pd, is_Some (PropHeap st !! pd) ->
     exists c d, ClassHeap st !! c = Some d /\ pd ∈ Properties d) /\
  (forall fn, is_Some (FuncHeap st !! fn) ->
     exists c d, ClassHeap st !! c = Some d /\ fn ∈ Functions d).
Proof.
  intros HR. pose proof (Reachable_Inv _ _ HR) as [_ HO].
  pose proof (Reachable_HeapInv _ _ HR) as [HF HP HFn _ _].
  split; [exact HO|].
  split; [apply (ow_live _ _ _ HP)|].
  split; [apply (ow_live _ _ _ HFn)|].
  split; [|split; [apply (ow_used _ _ _ HP) | apply (ow_used _ _ _ HFn)]].
  intros fp fd Hfd.
  destruct (ow_used _ _ _ HF fp (ex_intro _ fd Hfd)) as (c & d & Hd & Hin).
  apply elem_of_field_ptrs in Hin as (name & Hn).
  destruct (HO _ _ _ _ Hd Hn) as (fd' & Hfd' & Hoc).
  assert (fd' = fd) by congruence. subst fd'.
  exists d, name. rewrite Hoc. auto.
Qed.

Lemma Reachable_no_dangling_no_leak_witness :
  exists d fd, ClassHeap Demo.ChainState1 !! 0 = Some d /\
    Fields d !! FName.key "Health" = Some 0 /\
    FieldHeap Demo.ChainState1 !! 0 = Some fd /\ OuterClass fd = 0.
Proof.
  destruct (Reachable_no_dangling_no_leak Demo.ChainHost Demo.ChainState1
              ChainState1_Reachable) as (H & _).
  edestruct H with (c := 0) (name := FName.key "Health") (fp := 0)
    as (fd & Hfd & Hoc);
    [vm_compute; reflexivity | vm_compute; reflexivity |].
  eexists _, fd. split; [vm_compute; reflexivity|].
  split; [vm_compute; reflexivity|]. auto.
Defined.

(** X2: in every reachable state every owned object is owned once:
    [Properties] and [Functions] hold no pointer twice, two names of
    a descriptor never share a field descriptor, and two descriptors
    never share a field, property or function descriptor.  So the
    [delete] loops of [UnLoad] and of the destructor delete each
    object once. *)
Theorem Reachable_single_owner h st :
  Reachable h st ->
  forall c1 d1, ClassHeap st !! c1 = Some d1 ->
    NoDup (Properties d1) /\ NoDup (Functions d1) /\
    (forall n1 n2 fp, Fields d1 !! n1 = Some fp -> Fields d1 !! n2 = Some fp ->
       n1 = n2) /\
    (forall c2 d2, ClassHeap st !! c2 = Some d2 -> c1 ≠ c2 ->
       (forall n1 n2 fp, Fields d1 !! n1 = Some fp ->
          Fields d2 !! n2 ≠ Some fp) /\
       (forall p, p ∈ Properties d1 -> p ∉ Properties d2) /\
       (forall p, p ∈ Functions d1 -> p ∉ Functions d2)).
Proof.
  intros HR c1 d1 Hd1.
  pose proof (Reachable_HeapInv _ _ HR) as [HF HP HFn _ _].
  split; [eapply (ow_nodup _ _ _ HP); eauto|].
  split; [eapply (ow_nodup _ _ _ HFn); eauto|].
  split.
  - intros n1 n2 fp E1 E2.
    pose proof (ow_nodup _ _ _ HF _ _ Hd1) as ND. unfold field_ptrs in ND.
    apply elem_of_map_to_list in E1, E2.
    apply list_elem_of_lookup in E1 as (i & Hi), E2 as (j & Hj).
    assert (i = j).
    { eapply NoDup_lookup; [exact ND| |];
        rewrite list_lookup_fmap; [rewrite Hi|rewrite Hj]; reflexivity. }
    subst j. congruence.
  - intros c2 d2 Hd2 Hne. split; [|split].
    + intros n1 n2 fp E1 E2. apply Hne.
      eapply (ow_owner _ _ _ HF); eauto; apply elem_of_field_ptrs; eauto.
    + intros p P1 P2. apply Hne. eapply (ow_owner _ _ _ HP); eauto.
    + intros p P1 P2. apply Hne. eapply (ow_owner _ _ _ HFn); eauto.
Qed.

Lemma Reachable_single_owner_witness :
  exists d1, ClassHeap Demo.ChainState1 !! 0 = Some d1 /\
    NoDup (Properties d1) /\ NoDup (Functions d1).
Proof.
  eexists. split; [vm_compute; reflexivity|].
  edestruct (Reachable_single_owner Demo.ChainHost Demo.ChainState1
               ChainState1_Reachable 0) as (H1 & H2 & _);
    [vm_compute; reflexivity|].
  split; [exact H1 | exact H2].
Defined.

(** X3: in every reachable state a descriptor has as many cached
    fields as property and function descriptors together, and an
    unloaded descriptor has none at all. *)
Theorem Reachable_field_count h st c d :
  Reachable h st -> ClassHeap st !! c = Some d ->
  size (Fields d) = length (Properties d) + length (Functions d) /\
  (Struct d = None ->
   Fields d = ∅ /\ Properties d = [] /\ Functions d = []).
Proof.
  intros HR Hd. pose proof (Reachable_HeapInv _ _ HR) as [_ _ _ HC HU].
  split; [eauto|]. intros Hs. eauto.
Qed.

Lemma Reachable_field_count_witness :
  exists d, ClassHeap Demo.ChainState1 !! 0 = Some d /\
    size (Fields d) = 1 /\ length (Properties d) + length (Functions d) = 1.
Proof.
  eexists. split; [vm_compute; reflexivity|].
  edestruct (Reachable_field_count Demo.ChainHost Demo.ChainState1 0)
    as [H _]; [apply ChainState1_Reachable | vm_compute; reflexivity |].
  split; [|rewrite <- H]; vm_compute; reflexivity.
Defined.

Lemma property_index_small k :
  (Z.of_nat k < INT32_MAX)%Z -> property_index k = (Z.of_nat k + 1)%Z.
Proof.
  unfold property_index, INT32_MAX. intros Hk.
  rewrite (wrap32_small (Z.of_nat k)) by lia. apply wrap32_small. lia.
Qed.

Lemma function_index_small k :
  (Z.of_nat k < INT32_MAX)%Z -> function_index k = (- (Z.of_nat k + 1))%Z.
Proof.
  unfold function_index. intros Hk. rewrite property_index_small by exact Hk.
  unfold INT32_MAX in Hk. apply wrap32_small. lia.
Qed.

Lemma HeroState1_Reachable : Reachable Demo2.HeroHost Demo2.HeroState1.
Proof.
  apply (Reach_RegisterField _ 2 2 "JUMP"%string 2 Demo2.HeroState (Some 0)).
  - apply (Reach_RegisterReflectedType _ 4 4 InitState 2); [constructor|].
    vm_compute. reflexivity.
  - vm_compute. reflexivity.
Qed.

Lemma HeroHost_CI : HostCI Demo2.HeroHost.
Proof.
  intros s n n' E. unfold Demo2.HeroHost.
  cbn [FindPropertyByName FindFunctionByName]. rewrite E. split; reflexivity.
Qed.

(** X4: in every reachable state a cached field resolves back.  It
    is stored under the key of a name that denotes a member of the
    descriptor's own type (and so does the queried spelling, against
    a host that compares [FName]s); for a property the index is
    positive and [Properties] holds at position index - 1 the
    descriptor built for that property; for a function the index is
    negative, the descriptor is a class, and [Functions] holds at
    position -index - 1 the descriptor built for that function, with
    the default parameters that the descriptor's table has for that
    [FName]. *)
Theorem Reachable_index_resolves h st c d name fp fd :
  Reachable h st ->
  ClassHeap st !! c = Some d -> Fields d !! FName.key name = Some fp ->
  FieldHeap st !! fp = Some fd ->
  (Z.of_nat (length (Properties d)) < INT32_MAX)%Z ->
  (Z.of_nat (length (Functions d)) < INT32_MAX)%Z ->
  exists name0 s m,
    FName.key name0 = FName.key name /\
    Struct d = Some s /\ ClassifyField h d s name0 = Some m /\
    (HostCI h -> ClassifyField h d s name = Some m) /\
    MemberOuter h m = Some s /\
    match m with
    | MProperty p =>
        (0 < FieldIndex fd)%Z /\
        exists pd, Properties d !! Z.to_nat (FieldIndex fd - 1) = Some pd /\
          PropHeap st !! pd = Some (mkPropertyDesc p)
    | MFunction f =>
        (FieldIndex fd < 0)%Z /\ bIsClass d = true /\
        exists fn, Functions d !! Z.to_nat (- FieldIndex fd - 1) = Some fn /\
          FuncHeap st !! fn = Some (mkFunctionDesc f (DefaultParamsOf d name))
    end.
Proof.
  intros HR Hd HF Hfd HP HFn.
  destruct (Reachable_all _ _ HR) as (_ & I & _).
  destruct (I _ _ _ _ _ Hd HF Hfd) as (n0 & s & m & K & A & B & C & D).
  exists n0, s, m. split; [exact K|]. split; [exact A|]. split; [exact B|].
  split; [intros CI; rewrite <- B; apply ClassifyField_key; auto|].
  split; [exact C|].
  destruct m as [p|f]; destruct D as (k & x & D1 & D2 & D3).
  - pose proof (lookup_lt_Some _ _ _ D1) as Hk.
    rewrite property_index_small in D3 by lia.
    split; [lia|]. exists x. split; [|exact D2].
    replace (Z.to_nat (FieldIndex fd - 1)) with k by lia. exact D1.
  - pose proof (lookup_lt_Some _ _ _ D1) as Hk.
    rewrite function_index_small in D3 by lia.
    split; [lia|]. split; [apply (ClassifyField_function _ _ _ _ _ B)|].
    exists x. split.
    + replace (Z.to_nat (- FieldIndex fd - 1)) with k by lia. exact D1.
    + rewrite D2. do 2 f_equal. unfold DefaultParamsOf.
      destruct (FunctionCollection d); [|reflexivity].
      apply find_key. exact K.
Qed.

Lemma Reachable_index_resolves_witness :
  exists d fd fn,
    ClassHeap Demo2.HeroState1 !! 2 = Some d /\
    Fields d !! FName.key "jump" = Some 0 /\
    FieldHeap Demo2.HeroState1 !! 0 = Some fd /\
    Functions d !! Z.to_nat (- FieldIndex fd - 1) = Some fn /\
    FuncHeap Demo2.HeroState1 !! fn = Some (mkFunctionDesc 20 (Some 99)).
Proof.
  edestruct (Reachable_index_resolves Demo2.HeroHost Demo2.HeroState1 2)
    with (name := "jump"%string) (fp := 0)
    as (n0 & s & m & _ & Hs & _ & Hm & _ & H).
  - apply HeroState1_Reachable.
  - vm_compute. reflexivity.
  - vm_compute. reflexivity.
  - vm_compute. reflexivity.
  - vm_compute. reflexivity.
  - vm_compute. reflexivity.
  - assert (m = MFunction 20) as ->.
    { specialize (Hm HeroHost_CI). vm_compute in Hs. inversion Hs; subst s.
      vm_compute in Hm. congruence. }
    destruct H as (_ & _ & fn & H1 & H2).
    eexists _, _, fn. split; [vm_compute; reflexivity|].
    split; [vm_compute; reflexivity|]. split; [vm_compute; reflexivity|].
    split; [exact H1|]. exact H2.
Defined.

(** X5: a descriptor that is not a class never holds a function
    descriptor: in every reachable state its [Functions] is empty. *)
Theorem Reachable_functions_only_on_classes h st c d :
  Reachable h st -> ClassHeap st !! c = Some d ->
  bIsClass d = false -> Functions d = [].
Proof.
  intros HR Hd Hc. destruct (Reachable_all _ _ HR) as (_ & _ & I).
  destruct (Functions d) as [|fn l] eqn:E; [reflexivity|].
  rewrite (I _ _ Hd) in Hc; [discriminate|]. rewrite E. discriminate.
Qed.

Lemma StructState_Reachable : Reachable Demo.StructHost Demo.StructState.
Proof.
  apply (Reach_RegisterReflectedType _ 4 5 InitState 0); [constructor|].
  vm_compute. reflexivity.
Qed.

Lemma Reachable_functions_only_on_classes_witness :
  exists d, ClassHeap Demo.StructState !! 0 = Some d /\ Functions d = [].
Proof.
  eexists. split; [vm_compute; reflexivity|].
  eapply (Reachable_functions_only_on_classes Demo.StructHost Demo.StructState 0).
  - apply StructState_Reachable.
  - vm_compute. reflexivity.
  - vm_compute. reflexivity.
Defined.

(** X6: [RegisterField] and [FindField] only ever add.  Every
    descriptor keeps its cached fields, and its [Properties] and
    [Functions] as prefixes of the new ones; every live field,
    property and function descriptor stays live and unchanged; so an
    index handed out stays valid as long as no [UnLoad] intervenes. *)
Theorem RegisterField_append_only fuel h this name Q st r st' :
  RegisterField fuel h this name Q st = Ok (r, st') ->
  grows st st' /\
  (forall c d n fp fd,
     ClassHeap st !! c = Some d -> Fields d !! n = Some fp ->
     FieldHeap st !! fp = Some fd ->
     exists d', ClassHeap st' !! c = Some d' /\ Fields d' !! n = Some fp /\
       FieldHeap st' !! fp = Some fd) /\
  (forall c d k pd x,
     ClassHeap st !! c = Some d -> Properties d !! k = Some pd ->
     PropHeap st !! pd = Some x ->
     exists d', ClassHeap st' !! c = Some d' /\ Properties d' !! k = Some pd /\
       PropHeap st' !! pd = Some x) /\
  (forall c d k fn x,
     ClassHeap st !! c = Some d -> Functions d !! k = Some fn ->
     FuncHeap st !! fn = Some x ->
     exists d', ClassHeap st' !! c = Some d' /\ Functions d' !! k = Some fn /\
       FuncHeap st' !! fn = Some x) /\
  (forall r2 st2, FindField h this name st' = Ok (r2, st2) -> grows st' st2).
Proof.
  intros H.
  pose proof (Grow_rtc_grows _ _ _ (RegisterField_steps _ _ _ _ _ _ _ _ H))
    as G.
  split; [exact G|]. destruct G as (G & G1 & G2 & G3).
  split; [|split; [|split]].
  - intros c d n fp fd Hd HF Hfd.
    destruct (G _ _ Hd) as (d' & Hd' & _ & F & _).
    exists d'. split; [exact Hd'|].
    split; eapply lookup_weaken; eauto.
  - intros c d k pd x Hd HP Hx.
    destruct (G _ _ Hd) as (d' & Hd' & _ & _ & P & _).
    exists d'. split; [exact Hd'|].
    split; [eapply prefix_lookup_Some; eauto | eapply lookup_weaken; eauto].
  - intros c d k fn x Hd HP Hx.
    destruct (G _ _ Hd) as (d' & Hd' & _ & _ & _ & P).
    exists d'. split; [exact Hd'|].
    split; [eapply prefix_lookup_Some; eauto | eapply lookup_weaken; eauto].
  - intros r2 st2 HFF. eapply Grow_rtc_grows, FindField_steps. exact HFF.
Qed.

Lemma RegisterField_append_only_witness :
  exists fp st',
    RegisterField 3 Demo.ChainHost 2 "Jump" 2 Demo.ChainState1
      = Ok (Some fp, st') /\
    grows Demo.ChainState1 st'.
Proof.
  exists 1, (Demo.state_of
               (RegisterField 3 Demo.ChainHost 2 "Jump" 2 Demo.ChainState1)).
  assert (H : RegisterField 3 Demo.ChainHost 2 "Jump" 2 Demo.ChainState1
    = Ok (Some 1, Demo.state_of
            (RegisterField 3 Demo.ChainHost 2 "Jump" 2 Demo.ChainState1)))
    by (vm_compute; reflexivity).
  split; [exact H|].
  exact (proj1 (RegisterField_append_only _ _ _ _ _ _ _ _ H)).
Defined.

(** ** [UnLoad] and the destructor *)

(** X7: [UnLoad] of a bound descriptor deletes every field, property
    and function descriptor the descriptor held, leaves it unbound
    with empty tables and all else as it was (name, flags,
    [SuperClasses], reference count, registry entry, every other
    descriptor), and a second [UnLoad] does nothing. *)
Theorem UnLoad_releases this st st' d :
  ClassHeap st !! this = Some d -> is_Some (Struct d) ->
  UnLoad this st = Ok st' ->
  ClassHeap st' !! this = Some (set_Struct None (set_tables ∅ [] [] d)) /\
  Classes st' = Classes st /\
  (forall c, c ≠ this -> ClassHeap st' !! c = ClassHeap st !! c) /\
  (forall name fp, Fields d !! name = Some fp -> FieldHeap st' !! fp = None) /\
  (forall pd, pd ∈ Properties d -> PropHeap st' !! pd = None) /\
  (forall fn, fn ∈ Functions d -> FuncHeap st' !! fn = None) /\
  (forall fp, (forall name, Fields d !! name ≠ Some fp) ->
     FieldHeap st' !! fp = FieldHeap st !! fp) /\
  UnLoad this st' = Ok st'.
Proof.
  intros Hd [s Hs] H.
  apply UnLoad_Ok_inv in H as (d0 & Hd0 & [[Hn _]|[_ ->]]); [congruence|].
  assert (d0 = d) by congruence. subst d0. simpl.
  split; [apply lookup_insert_eq|]. split; [reflexivity|].
  split; [intros c Hne; apply lookup_insert_ne; congruence|].
  split; [intros name fp HF; apply delete_all_in;
          apply (elem_of_field_ptrs d); eauto|].
  split; [intros pd Hp; apply delete_all_in; exact Hp|].
  split; [intros fn Hp; apply delete_all_in; exact Hp|].
  split.
  - intros fp Hfp. apply delete_all_notin. intros Hin.
    apply (elem_of_field_ptrs d) in Hin as (name & Hn). exact (Hfp _ Hn).
  - unfold UnLoad, deref. simpl. rewrite lookup_insert_eq. reflexivity.
Qed.

Lemma UnLoad_releases_witness :
  exists st', UnLoad 0 Demo.ChainState1 = Ok st' /\
    FieldHeap st' !! 0 = None /\ UnLoad 0 st' = Ok st'.
Proof.
  exists (Demo.state_of
            (match UnLoad 0 Demo.ChainState1 with
             | Ok s => Ok (tt, s) | Fatal => Fatal | OutOfFuel => OutOfFuel
             end)).
  assert (H : UnLoad 0 Demo.ChainState1 = Ok (Demo.state_of
            (match UnLoad 0 Demo.ChainState1 with
             | Ok s => Ok (tt, s) | Fatal => Fatal | OutOfFuel => OutOfFuel
             end))) by (vm_compute; reflexivity).
  split; [exact H|].
  edestruct (UnLoad_releases 0 Demo.ChainState1) as (_ & _ & _ & H4 & _ & _ & _ & H8);
    [vm_compute; reflexivity | vm_compute; eauto | exact H |].
  split; [|exact H8].
  apply (H4 (FName.key "Health")). vm_compute. reflexivity.
Defined.

Lemma Destructor_HeapInv this st st' :
  HeapInv st -> Destructor this st = Ok st' -> HeapInv st'.
Proof.
  unfold Destructor. intros I H. run_inv H. apply deref_Ok in E.
  inversion H; subst; clear H. revert I.
  apply (HeapInv_release _ _ this a); auto; simpl.
  - intros c0 Hne. apply lookup_delete_ne. congruence.
  - intros d'. rewrite lookup_delete_eq. discriminate.
Qed.

(** X8: the destructor, run in a reachable state, deletes exactly the
    field, property and function descriptors this object owns:
    afterwards none of them is live, every field, property and
    function descriptor that another descriptor holds is still live,
    and none is left without a holder.  On an unloaded descriptor it
    deletes nothing.  Pointers to the class descriptor itself are not
    its business: the registry entry stays, and a descriptor that
    lists this one in its [SuperClasses] still does, so that
    [GetInheritanceChain] on it still yields the pointer to the
    destroyed object. *)
Theorem Destructor_releases_own h this st d :
  Reachable h st -> ClassHeap st !! this = Some d ->
  exists st', Destructor this st = Ok st' /\
    ClassHeap st' !! this = None /\ Classes st' = Classes st /\
    (forall c, c ≠ this -> ClassHeap st' !! c = ClassHeap st !! c) /\
    (forall name fp, Fields d !! name = Some fp -> FieldHeap st' !! fp = None) /\
    (forall pd, pd ∈ Properties d -> PropHeap st' !! pd = None) /\
    (forall fn, fn ∈ Functions d -> FuncHeap st' !! fn = None) /\
    (forall c d0, c ≠ this -> ClassHeap st !! c = Some d0 ->
       (forall name fp, Fields d0 !! name = Some fp ->
          FieldHeap st' !! fp = FieldHeap st !! fp) /\
       (forall pd, pd ∈ Properties d0 -> PropHeap st' !! pd = PropHeap st !! pd) /\
       (forall fn, fn ∈ Functions d0 -> FuncHeap st' !! fn = FuncHeap st !! fn)) /\
    HeapInv st' /\
    (Struct d = None ->
     FieldHeap st' = FieldHeap st /\ PropHeap st' = PropHeap st /\
     FuncHeap st' = FuncHeap st) /\
    (forall T, Classes st !! T = Some this ->
       Classes st' !! T = Some this /\ deref this st' = Fatal) /\
    (forall c d0, c ≠ this -> ClassHeap st !! c = Some d0 ->
       this ∈ SuperClasses d0 ->
       exists chain, GetInheritanceChain c [] st' = Ok chain /\
         chain = c :: SuperClasses d0 /\ this ∈ chain /\
         ClassHeap st' !! this = None).
Proof.
  intros HR Hd. pose proof (Reachable_HeapInv _ _ HR) as I.
  eexists. split.
  { unfold Destructor. apply deref_Ok in Hd. rewrite Hd. reflexivity. }
  simpl. split; [apply lookup_delete_eq|]. split; [reflexivity|].
  split; [intros c Hne; apply lookup_delete_ne; congruence|].
  split; [intros name fp HF; apply delete_all_in;
          apply (elem_of_field_ptrs d); eauto|].
  split; [intros pd Hp; apply delete_all_in; exact Hp|].
  split; [intros fn Hp; apply delete_all_in; exact Hp|].
  split; [|split; [|split; [|split]]].
  - intros c d0 Hne Hd0. destruct I as [HF HP HFn _ _].
    split; [|split].
    + intros name fp E. apply delete_all_notin. intros Hin. apply Hne.
      eapply (ow_owner _ _ _ HF); eauto. apply elem_of_field_ptrs. eauto.
    + intros pd E. apply delete_all_notin. intros Hin. apply Hne.
      eapply (ow_owner _ _ _ HP); eauto.
    + intros fn E. apply delete_all_notin. intros Hin. apply Hne.
      eapply (ow_owner _ _ _ HFn); eauto.
  - eapply (Destructor_HeapInv this st); [exact I|].
    unfold Destructor. apply deref_Ok in Hd. rewrite Hd. reflexivity.
  - intros Hs. destruct (hi_unbound _ I _ _ Hd Hs) as (E1 & E2 & E3).
    unfold field_ptrs. rewrite E1, E2, E3, map_to_list_empty. auto.
  - intros T HT. split; [exact HT|].
    unfold deref. simpl. rewrite lookup_delete_eq. reflexivity.
  - intros c d0 Hne Hd0 Hin. eexists. split.
    + apply (GetInheritanceChain_Ok c d0). simpl.
      rewrite lookup_delete_ne by congruence. exact Hd0.
    + split; [reflexivity|]. split; [|apply lookup_delete_eq].
      apply elem_of_cons. right. exact Hin.
Qed.

Lemma Destructor_releases_own_witness :
  exists st', Destructor 0 Demo.ChainState1 = Ok st' /\
    ClassHeap st' !! 0 = None /\ FieldHeap st' !! 0 = None /\
    Classes st' !! 1 = Some 0 /\
    GetInheritanceChain 2 [] st' = Ok [2; 1; 0].
Proof.
  edestruct (Destructor_releases_own Demo.ChainHost 0 Demo.ChainState1)
    as (st' & H1 & H2 & H3 & _ & H5 & _ & _ & _ & _ & _ & _ & H12);
    [apply ChainState1_Reachable | vm_compute; reflexivity |].
  exists st'. split; [exact H1|]. split; [exact H2|].
  split; [apply (H5 (FName.key "Health")); vm_compute; reflexivity|].
  split; [rewrite H3; vm_compute; reflexivity|].
  edestruct (H12 2) as (chain & G1 & G2 & _);
    [discriminate | vm_compute; reflexivity | |].
  - vm_compute. apply elem_of_cons. right. apply elem_of_cons. left.
    reflexivity.
  - rewrite G1, G2. reflexivity.
Defined.

(** ** [AddRef] and [SubRef] *)

Lemma put_desc_same c d st :
  ClassHeap st !! c = Some d -> put_desc c d st = st.
Proof.
  intros Hd. destruct st as [C CH FH PH FnH]. unfold put_desc, set_ClassHeap.
  simpl in *. rewrite insert_id by exact Hd. reflexivity.
Qed.

Lemma put_desc_put c d1 d2 st :
  put_desc c d2 (put_desc c d1 st) = put_desc c d2 st.
Proof.
  unfold put_desc, set_ClassHeap. simpl. rewrite insert_insert_eq. reflexivity.
Qed.

(** X9: [AddRef] followed by [SubRef] restores the state exactly, and
    so does [SubRef] followed by [AddRef], as long as the counter
    does not leave the range of [int32] in between; in between, only
    the reference count of this descriptor differs. *)
Theorem AddRef_SubRef_roundtrip this st d :
  ClassHeap st !! this = Some d ->
  (- 2 ^ 31 <= RefCount d <= INT32_MAX)%Z ->
  ((RefCount d < INT32_MAX)%Z ->
   exists st1, AddRef this st = Ok st1 /\ SubRef this st1 = Ok st /\
     st1 = put_desc this (set_RefCount (RefCount d + 1) d) st) /\
  ((- 2 ^ 31 < RefCount d)%Z ->
   exists st1, SubRef this st = Ok st1 /\ AddRef this st1 = Ok st /\
     st1 = put_desc this (set_RefCount (RefCount d - 1) d) st).
Proof.
  intros Hd Hr. unfold INT32_MAX in *.
  assert (Hback : forall v, put_desc this
            (set_RefCount (RefCount d) (set_RefCount v d))
            (put_desc this (set_RefCount v d) st) = st).
  { intros v. rewrite put_desc_put.
    replace (set_RefCount (RefCount d) (set_RefCount v d)) with d
      by (destruct d; reflexivity).
    apply put_desc_same. exact Hd. }
  apply deref_Ok in Hd. split; intros Hlt.
  - exists (put_desc this (set_RefCount (RefCount d + 1) d) st).
    split; [|split; [|reflexivity]].
    + unfold AddRef. rewrite Hd. simpl.
      rewrite (wrap32_small (RefCount d + 1)) by lia. reflexivity.
    + unfold SubRef. rewrite deref_put_eq. simpl.
      replace (RefCount d + 1 - 1)%Z with (RefCount d) by lia.
      rewrite (wrap32_small (RefCount d)) by lia.
      rewrite Hback. reflexivity.
  - exists (put_desc this (set_RefCount (RefCount d - 1) d) st).
    split; [|split; [|reflexivity]].
    + unfold SubRef. rewrite Hd. simpl.
      rewrite (wrap32_small (RefCount d - 1)) by lia. reflexivity.
    + unfold AddRef. rewrite deref_put_eq. simpl.
      replace (RefCount d - 1 + 1)%Z with (RefCount d) by lia.
      rewrite (wrap32_small (RefCount d)) by lia.
      rewrite Hback. reflexivity.
Qed.

Lemma AddRef_SubRef_roundtrip_witness :
  exists st1, AddRef 0 Demo.ChainState1 = Ok st1 /\
    SubRef 0 st1 = Ok Demo.ChainState1.
Proof.
  edestruct (AddRef_SubRef_roundtrip 0 Demo.ChainState1) as [H _];
    [vm_compute; reflexivity | |].
  - vm_compute. split; discriminate.
  - destruct H as (st1 & H1 & H2 & _); [vm_compute; reflexivity|].
    exists st1. auto.
Defined.

(** ** Reloading *)

Lemma FindField_loaded h c name st d s :
  ClassHeap st !! c = Some d -> Struct d = Some s ->
  FindField h c name st = Ok (Fields d !! FName.key name, st).
Proof.
  intros Hd Hs. unfold FindField. rewrite (Load_loaded _ _ _ _ _ Hd Hs).
  simpl. apply deref_Ok in Hd. rewrite Hd. reflexivity.
Qed.

(** X10: after [Load(); UnLoad(); Load()] the descriptor is bound to
    the type its class name resolves to ([FindObject] first, then
    [LoadObject], under the name without its [U]/[A]/[F] prefix),
    whatever type it was bound to before.  On an unloaded descriptor
    whose name resolves to nothing, [Load], [FindField] and
    [RegisterField] are all fatal. *)
Theorem Load_rebinds_by_name h this st d :
  ClassHeap st !! this = Some d ->
  (forall st3, LoadUnLoadLoad h this st = Ok st3 ->
     exists n s, LoadName (ClassName d) = Ok n /\
       ResolveStruct h n = Some s /\
       ClassHeap st3 !! this
         = Some (set_Struct (Some s) (set_tables ∅ [] [] d))) /\
  (Struct d = None ->
   (forall n, LoadName (ClassName d) = Ok n -> ResolveStruct h n = None) ->
   Load h this st = Fatal /\
   (forall name, FindField h this name st = Fatal) /\
   (forall fuel name Q, RegisterField (S fuel) h this name Q st = Fatal)).
Proof.
  intros Hd. split.
  - intros st3 H. unfold LoadUnLoadLoad in H.
    run_inv H. rename a into st1. run_inv H. rename a into st2.
    apply Load_Ok_desc in E as (d0 & s0 & Hd0 & Hd1 & _).
    assert (d0 = d) by congruence. subst d0.
    eapply UnLoad_loaded_desc in E0; [|exact Hd1|simpl; eauto].
    apply Load_Ok_inv in H as (d2 & Hd2 & [[[x Hx] _]|(_ & n & s & Hn & Hr & ->)]).
    + rewrite E0 in Hd2. inversion Hd2; subst d2. discriminate.
    + rewrite E0 in Hd2. inversion Hd2; subst d2. simpl in Hn.
      exists n, s. split; [exact Hn|]. split; [exact Hr|].
      simpl. rewrite lookup_insert_eq. reflexivity.
  - intros Hs Hres.
    assert (HL : Load h this st = Fatal).
    { unfold Load. apply deref_Ok in Hd. rewrite Hd. simpl. rewrite Hs.
      destruct (LoadName (ClassName d)) as [n| |] eqn:Hn; simpl; auto.
      - rewrite (Hres n eq_refl). reflexivity.
      - unfold LoadName in Hn. destruct (ClassName d); [discriminate|].
        destruct (_ || _)%bool; discriminate. }
    split; [exact HL|]. split.
    + intros name. unfold FindField. rewrite HL. reflexivity.
    + intros fuel name Q. simpl. rewrite HL. reflexivity.
Qed.

Lemma Load_rebinds_by_name_witness :
  exists st3 d3, LoadUnLoadLoad Demo.ChainHost 0 Demo.ChainState1 = Ok st3 /\
    ClassHeap st3 !! 0 = Some d3 /\ Struct d3 = Some 1 /\
    ResolveStruct Demo.ChainHost "A" = Some 1.
Proof.
  edestruct (Load_rebinds_by_name Demo.ChainHost 0 Demo.ChainState1)
    as [H _]; [vm_compute; reflexivity|].
  assert (E : LoadUnLoadLoad Demo.ChainHost 0 Demo.ChainState1
              = Ok (Demo.state_of
                      (match LoadUnLoadLoad Demo.ChainHost 0 Demo.ChainState1
                       with Ok s => Ok (tt, s) | Fatal => Fatal
                       | OutOfFuel => OutOfFuel end)))
    by (vm_compute; reflexivity).
  destruct (H _ E) as (n & s & Hn & Hr & Hd3).
  eexists _, _. split; [exact E|]. split; [exact Hd3|].
  vm_compute in Hn. inversion Hn; subst n. vm_compute in Hr.
  inversion Hr; subst s. split; reflexivity.
Defined.

(** X11: a field registered again after [UnLoad] starts the numbering
    afresh.  The call re-binds the descriptor by name, classifies the
    name against the re-bound type, and returns a new field
    descriptor with index 1 (property) or -1 (function), the only
    entry of the tables. *)
Theorem RegisterField_after_UnLoad fuel h this name Q st d n s m :
  ClassHeap st !! this = Some d -> is_Some (Struct d) ->
  LoadName (ClassName d) = Ok n -> ResolveStruct h n = Some s ->
  ClassifyField h d s name = Some m -> MemberOuter h m = Some s ->
  exists st1 fp st2 d2 fd,
    UnLoad this st = Ok st1 /\
    RegisterField (S fuel) h this name Q st1 = Ok (Some fp, st2) /\
    ClassHeap st2 !! this = Some d2 /\ Struct d2 = Some s /\
    Fields d2 = {[FName.key name := fp]} /\
    FieldHeap st2 !! fp = Some fd /\
    QueryClass fd = Q /\ OuterClass fd = this /\
    match m with
    | MProperty _ =>
        FieldIndex fd = 1%Z /\ length (Properties d2) = 1 /\ Functions d2 = []
    | MFunction _ =>
        FieldIndex fd = (-1)%Z /\ length (Functions d2) = 1 /\ Properties d2 = []
    end.
Proof.
  intros Hd [s0 Hs0] Hn Hr HC HO.
  destruct (UnLoad_total _ _ _ Hd) as (st1 & HU).
  pose proof (UnLoad_loaded_desc _ _ _ _ Hd (ex_intro _ s0 Hs0) HU) as Hd1.
  exists st1.
  assert (HL : Load h this st1
               = Ok (put_desc this
                       (set_Struct (Some s) (set_tables ∅ [] [] d)) st1)).
  { unfold Load. apply deref_Ok in Hd1. rewrite Hd1. simpl.
    rewrite Hn. simpl. rewrite Hr. reflexivity. }
  simpl RegisterField. rewrite HL. simpl bindR. rewrite deref_put_eq.
  simpl. rewrite lookup_empty.
  rewrite (ClassifyField_flags h d _ s name) by reflexivity.
  rewrite HC, HO. rewrite decide_True by reflexivity.
  destruct m as [p|f]; simpl.
  - eexists _, _, _, _. split; [exact HU|]. split; [reflexivity|]. simpl.
    split; [apply lookup_insert_eq|]. simpl. split; [reflexivity|].
    split; [reflexivity|]. split; [apply lookup_insert_eq|]. simpl.
    repeat split.
  - eexists _, _, _, _. split; [exact HU|]. split; [reflexivity|]. simpl.
    split; [apply lookup_insert_eq|]. simpl. split; [reflexivity|].
    split; [reflexivity|]. split; [apply lookup_insert_eq|]. simpl.
    repeat split.
Qed.

Lemma RegisterField_after_UnLoad_witness :
  exists st1 fp st2 fd,
    UnLoad 0 Demo.ChainState1 = Ok st1 /\
    RegisterField 1 Demo.ChainHost 0 "Health" 0 st1 = Ok (Some fp, st2) /\
    FieldHeap st2 !! fp = Some fd /\ FieldIndex fd = 1%Z.
Proof.
  edestruct (RegisterField_after_UnLoad 0 Demo.ChainHost 0 "Health"%string 0
               Demo.ChainState1)
    with (n := "A"%string) (s := 1) (m := MProperty 10)
    as (st1 & fp & st2 & d2 & fd & H1 & H2 & _ & _ & _ & H6 & _ & _ & H9 & _).
  - vm_compute. reflexivity.
  - vm_compute. eauto.
  - vm_compute. reflexivity.
  - vm_compute. reflexivity.
  - vm_compute. reflexivity.
  - vm_compute. reflexivity.
  - exists st1, fp, st2, fd. auto.
Defined.

(** ** Registration followed by lookup *)

Lemma RegisterField_Some_cached fuel h c name Q st fp st' :
  RegisterField fuel h c name Q st = Ok (Some fp, st') ->
  exists c' d', ClassHeap st' !! c' = Some d' /\
    Fields d' !! FName.key name = Some fp.
Proof.
  revert c st. induction fuel as [|f IH]; intros c st H; [discriminate|].
  apply RegisterField_inv in H as (stL & d & s & HL & Hd & Hs & Hcase).
  inversion Hcase as [fp0 HF| | |m fp0 st2 HF HC HO HR
                      |m o oc st2 r st2' HF HC HO Hne HR HRF]; subst.
  - eauto.
  - apply RegisterLocal_desc in HR as (-> & _ & (P & Fn & RH) & _).
    exists c. eexists. rewrite RH, lookup_insert_eq.
    split; [reflexivity|]. simpl. apply lookup_insert_eq.
  - eapply IH; eauto.
Qed.

(** X12: the descriptor [RegisterField] returns is always the entry
    for that name in the [Fields] of its [OuterClass], so [FindField]
    on the [OuterClass] finds it; when the [OuterClass] is not the
    descriptor the call was made on (the member is inherited), the
    queried descriptor itself has no entry and [FindField] on it
    finds nothing. *)
Theorem RegisterField_then_FindField fuel h this name Q st fp st' :
  Reachable h st ->
  RegisterField fuel h this name Q st = Ok (Some fp, st') ->
  exists fd d',
    FieldHeap st' !! fp = Some fd /\
    ClassHeap st' !! OuterClass fd = Some d' /\
    Fields d' !! FName.key name = Some fp /\
    FindField h (OuterClass fd) name st' = Ok (Some fp, st') /\
    (OuterClass fd ≠ this -> FindField h this name st' = Ok (None, st')).
Proof.
  intros HR H.
  pose proof (Reachable_Inv _ _ (Reach_RegisterField _ _ _ _ _ _ _ _ HR H))
    as [HSd HOw].
  destruct (RegisterField_Some_cached _ _ _ _ _ _ _ _ H) as (c' & d' & Hd' & HF').
  destruct (HOw _ _ _ _ Hd' HF') as (fd & Hfd & Hoc). subst c'.
  destruct (HSd _ _ _ _ Hd' HF') as (n0 & s' & _ & _ & Hs' & _).
  exists fd, d'. split; [exact Hfd|]. split; [exact Hd'|]. split; [exact HF'|].
  split.
  { rewrite (FindField_loaded _ _ _ _ _ _ Hd' Hs'), HF'. reflexivity. }
  intros Hne.
  destruct fuel as [|f]; [discriminate|].
  apply RegisterField_inv in H as (stL & d & s & HL & Hd & Hs & Hcase).
  assert (Hmine : forall d0, ClassHeap st' !! this = Some d0 ->
            Fields d0 !! FName.key name ≠ Some fp).
  { intros d0 Hd0 HF0. destruct (HOw _ _ _ _ Hd0 HF0) as (fd0 & Hfd0 & Hoc0).
    congruence. }
  inversion Hcase as [fp0 HF| | |m fp0 st2 HF HC HO HRl
                      |m o oc st2 r st2' HF HC HO Hno HRR HRF]; subst.
  - exfalso. eapply Hmine; eauto.
  - exfalso. apply RegisterLocal_desc in HRl as (-> & _ & (P & Fn & RH) & _).
    eapply (Hmine _); [rewrite RH; apply lookup_insert_eq|].
    simpl. apply lookup_insert_eq.
  - apply RegisterReflectedType_spec in HRR as [(_ & X2 & _) _].
    destruct (RegisterField_frame _ _ _ _ _ _ _ _ HRF) as (_ & Y2 & _).
    destruct (Y2 _ _ (X2 _ _ Hd)) as (d1 & Hd1 & [_ K2] & E).
    rewrite (FindField_loaded _ _ _ _ _ _ Hd1 (K2 _ Hs)).
    destruct E as [E|(fp1 & E1 & _ & E2)].
    + apply tables_inv in E as (E & _). rewrite E, HF. reflexivity.
    + inversion E1; subst fp1. exfalso. eapply (Hmine _ Hd1).
      rewrite E2. apply lookup_insert_eq.
Qed.

Lemma RegisterField_then_FindField_witness :
  exists fp st',
    RegisterField 3 Demo.ChainHost 2 "Jump" 2 Demo.ChainState1
      = Ok (Some fp, st') /\
    FindField Demo.ChainHost 1 "Jump" st' = Ok (Some fp, st') /\
    FindField Demo.ChainHost 2 "Jump" st' = Ok (None, st').
Proof.
  exists 1, (Demo.state_of
               (RegisterField 3 Demo.ChainHost 2 "Jump" 2 Demo.ChainState1)).
  assert (H : RegisterField 3 Demo.ChainHost 2 "Jump" 2 Demo.ChainState1
    = Ok (Some 1, Demo.state_of
            (RegisterField 3 Demo.ChainHost 2 "Jump" 2 Demo.ChainState1)))
    by (vm_compute; reflexivity).
  split; [exact H|].
  destruct (RegisterField_then_FindField _ _ _ _ _ _ _ _
              ChainState1_Reachable H) as (fd & d' & H1 & _ & _ & H4 & H5).
  assert (E : OuterClass fd = 1).
  { vm_compute in H1. inversion H1. reflexivity. }
  rewrite E in H4, H5. split; [exact H4|]. apply H5. discriminate.
Defined.

(** ** Generated property names *)

Lemma string_length_app (a b : string) :
  String.length (a ++ b)%string = String.length a + String.length b.
Proof. induction a as [|x a IH]; simpl; [reflexivity|]. rewrite IH. reflexivity. Qed.

Lemma string_app_assoc (a b c : string) :
  ((a ++ b) ++ c)%string = (a ++ b ++ c)%string.
Proof.
  induction a as [|x a IH]; [reflexivity|].
  change (String x ((a ++ b) ++ c)%string = String x (a ++ b ++ c)%string).
  f_equal. exact IH.
Qed.

Lemma FString_Left_app (a b : string) :
  FString.Left (String.length a) (a ++ b)%string = a.
Proof. induction a as [|x a IH]; simpl; [destruct b; reflexivity|]. rewrite IH. reflexivity. Qed.

Lemma FindLastChar_absent ch (s : string) :
  ch ∉ list_ascii_of_string s -> FString.FindLastChar ch s = None.
Proof.
  induction s as [|x s IH]; simpl; intros Hn; [reflexivity|].
  apply not_elem_of_cons in Hn as [Hne Hn]. rewrite (IH Hn).
  destruct (Ascii.eqb_spec x ch); [congruence | reflexivity].
Qed.

Lemma FindLastChar_app ch (a b : string) :
  FString.FindLastChar ch b = None ->
  FString.FindLastChar ch (a ++ String ch b)%string = Some (String.length a).
Proof.
  intros Hb. induction a as [|x a IH]; simpl.
  - rewrite Hb. rewrite Ascii.eqb_refl. reflexivity.
  - rewrite IH. reflexivity.
Qed.

(** X13: the name recovery undoes the naming scheme of user-defined
    structs.  For a base name [B], an index [idx] without underscore
    and a 32-character identifier [guid], the display name of
    [B_idx_guid] is [B] (whatever underscores [B] itself has), as
    soon as [B] and [idx] together have two characters; below that
    the name is not longer than 35 characters and is left as it is. *)
Theorem RecoverDisplayName_generated (B idx guid : string) :
  String.length guid = 32 ->
  "_"%char ∉ list_ascii_of_string idx ->
  (2 <= String.length B + String.length idx ->
   RecoverDisplayName (B ++ "_" ++ idx ++ "_" ++ guid)%string = B) /\
  (String.length B + String.length idx < 2 ->
   RecoverDisplayName (B ++ "_" ++ idx ++ "_" ++ guid)%string
   = (B ++ "_" ++ idx ++ "_" ++ guid)%string).
Proof.
  intros Hg Hidx.
  assert (HLen : FString.Len (B ++ "_" ++ idx ++ "_" ++ guid)%string
                 = (Z.of_nat (String.length B + String.length idx) + 34)%Z).
  { unfold FString.Len. repeat (rewrite string_length_app; simpl).
    rewrite Hg. lia. }
  unfold RecoverDisplayName, MinimalPostfixlen, GuidStrLen. rewrite HLen.
  split; intros Hlen.
  - destruct (Z.gtb_spec (Z.of_nat (String.length B + String.length idx) + 34)
                         (32 + 3)) as [_|Hc]; [|lia].
    assert (HChop : FString.LeftChop (32 + 1)
                      (B ++ "_" ++ idx ++ "_" ++ guid)%string
                    = (B ++ String "_" idx)%string).
    { unfold FString.LeftChop. rewrite HLen.
      replace (Z.to_nat _) with (String.length (B ++ String "_" idx)%string)
        by (rewrite string_length_app; simpl; lia).
      replace (B ++ "_" ++ idx ++ "_" ++ guid)%string
        with ((B ++ String "_" idx) ++ String "_" guid)%string.
      - apply FString_Left_app.
      - rewrite string_app_assoc. reflexivity. }
    rewrite HChop.
    rewrite FindLastChar_app by (apply FindLastChar_absent; exact Hidx).
    unfold FString.Mid. simpl FString.RightChop.
    replace (FString.RightChop 0 (B ++ String "_" idx)%string)
      with (B ++ String "_" idx)%string
      by (destruct (B ++ String "_" idx)%string; reflexivity).
    apply FString_Left_app.
  - destruct (Z.gtb_spec (Z.of_nat (String.length B + String.length idx) + 34)
                         (32 + 3)) as [Hc|_]; [lia | reflexivity].
Qed.

Lemma RecoverDisplayName_generated_witness :
  RecoverDisplayName "Max_Health_12_0123456789ABCDEF0123456789ABCDEF"
  = "Max_Health"%string.
Proof.
  refine (proj1 (RecoverDisplayName_generated "Max_Health" "12"
                   "0123456789ABCDEF0123456789ABCDEF" _ _) _).
  - reflexivity.
  - vm_compute. intros H. repeat (apply elem_of_cons in H as [H|H];
      [discriminate|]). apply elem_of_nil in H. exact H.
  - vm_compute. lia.
Defined.

(** ** The constructor *)

Section ConstructorAncestors.
Variable reg : UStruct -> State -> Res (ClassPtr * State).
Variable h : Host.

Lemma WalkSupers_chain n sup acc st l st' :
  WalkSupers reg h n sup acc st = Ok (l, st') ->
  exists Ts cs, l = acc ++ cs /\ IsChain h sup Ts /\ length Ts <= n /\
    Forall2 (fun T c => exists sa sb, reg T sa = Ok (c, sb)) Ts cs.
Proof.
  revert sup acc st. induction n as [|n IH]; intros sup acc st H;
    destruct sup as [s|]; simpl in H; try discriminate.
  - inversion H; subst. exists [], []. rewrite app_nil_r.
    repeat split; try constructor.
  - run_inv H. destruct a as [c st1].
    apply IH in H as (Ts & cs & -> & Hch & Hlen & Hall).
    exists (s :: Ts), (c :: cs). rewrite <- app_assoc. simpl.
    repeat split; [constructor; exact Hch | lia |].
    constructor; [eauto | exact Hall].
  - inversion H; subst. exists [], []. rewrite app_nil_r.
    repeat split; try constructor. simpl. lia.
Qed.

Lemma WalkSupers_returns n sup Ts acc st :
  (forall T s, exists c s', reg T s = Ok (c, s')) ->
  IsChain h sup Ts -> length Ts <= n ->
  exists l st', WalkSupers reg h n sup acc st = Ok (l, st') /\
    length l = length acc + length Ts.
Proof.
  intros Hreg Hch. revert n acc st.
  induction Hch as [|s Ts Hch IH]; intros n acc st Hlen.
  - destruct n; simpl; do 2 eexists; split; try reflexivity; lia.
  - destruct n as [|n]; simpl in Hlen; [lia|]. simpl.
    destruct (Hreg s st) as (c & st1 & ->). simpl.
    destruct (IH n (acc ++ [c]) st1) as (l & st' & E & El); [lia|].
    exists l, st'. split; [exact E|]. rewrite El, length_app. simpl. lia.
Qed.

Lemma RegisterInterfaces_returns l st :
  (forall T s, exists c s', reg T s = Ok (c, s')) ->
  exists st', RegisterInterfaces reg l st = Ok st'.
Proof.
  intros Hreg. revert st. induction l as [|i l IH]; intros st; simpl; [eauto|].
  destruct (Hreg i st) as (c & st1 & ->). simpl. apply IH.
Qed.
End ConstructorAncestors.

(** X14: the constructor returns exactly for types with finitely many
    ancestors.  When it returns, the ancestor chain of the type ends,
    the type is not its own ancestor, and [SuperClasses] holds one
    entry for each ancestor, nearest first, each the registry's
    answer for that ancestor; when the chain ends within the bound of
    the loop and the registry answers, it returns. *)
Theorem FClassDesc_ctor_ancestors reg h n T name st :
  (forall d st', FClassDesc_ctor reg h n T name st = Ok (d, st') ->
     exists Ts, IsChain h (GetInheritanceSuper h T) Ts /\
       length Ts <= n /\ (T ∉ Ts) /\
       length (SuperClasses d) = length Ts /\
       Forall2 (fun A c => exists sa sb, reg A sa = Ok (c, sb))
         Ts (SuperClasses d)) /\
  (forall Ts, IsChain h (GetInheritanceSuper h T) Ts -> length Ts <= n ->
     (forall A s, exists c s', reg A s = Ok (c, s')) ->
     exists d st', FClassDesc_ctor reg h n T name st = Ok (d, st') /\
       length (SuperClasses d) = length Ts).
Proof.
  split.
  - intros d st' H. unfold FClassDesc_ctor in H.
    run_inv H. destruct a as [[[pad sz] fc] st1].
    run_inv H. destruct a as [supers st2].
    inversion H; subst; clear H. simpl.
    apply WalkSupers_chain in E0 as (Ts & cs & -> & Hch & Hlen & Hall).
    exists Ts. split; [exact Hch|]. split; [exact Hlen|].
    split; [eapply IsChain_no_self; eauto|].
    split; [symmetry; eapply Forall2_length; eauto | exact Hall].
  - intros Ts Hch Hlen Hreg. unfold FClassDesc_ctor.
    assert (exists x st1, (if IsA_UClass h T
             then run st1 <~ RegisterInterfaces reg (Interfaces h T) st;
                  Ok (0%Z, GetStructureSize h T,
                      FName.find (GDefaultParamCollection h) name, st1)
             else if IsA_UScriptStruct h T
             then Ok (CalcUserdataPadding h
                        match GetCppStructOps h T with
                        | Some (a, _) => a
                        | None => GetMinAlignment h T
                        end,
                      match GetCppStructOps h T with
                      | Some (_, sz) => sz
                      | None => GetStructureSize h T
                      end, None, st)
             else Ok (0%Z, 0%Z, None, st)) = Ok (x, st1))
      as ([[pad sz] fc] & st1 & ->).
    { destruct (IsA_UClass h T); [|destruct (IsA_UScriptStruct h T); eauto].
      destruct (RegisterInterfaces_returns reg (Interfaces h T) st Hreg)
        as (st1 & ->). simpl. eauto. }
    simpl.
    destruct (WalkSupers_returns reg h n _ Ts [] st1 Hreg Hch Hlen)
      as (l & st2 & -> & El).
    simpl. eexists _, _. split; [reflexivity|]. simpl. exact El.
Qed.

Lemma FClassDesc_ctor_ancestors_witness :
  exists d st',
    FClassDesc_ctor (RegisterReflectedType 3 Demo.ChainHost) Demo.ChainHost 3
      3 "UC" InitState = Ok (d, st') /\
    length (SuperClasses d) = 2.
Proof.
  destruct (FClassDesc_ctor_ancestors (RegisterReflectedType 3 Demo.ChainHost)
              Demo.ChainHost 3 3 "UC"%string InitState) as [H1 _].
  eexists _, _. split; [vm_compute; reflexivity|].
  edestruct H1 as (Ts & Hch & _ & _ & Hlen & _); [vm_compute; reflexivity|].
  vm_compute. reflexivity.
Defined.

Section ConstructorRegisters.
Variable reg : UStruct -> State -> Res (ClassPtr * State).
Variable h : Host.
Hypothesis reg_ok : forall T st c st',
  reg T st = Ok (c, st') -> extends st st' /\ Classes st' !! T = Some c.

Lemma RegisterInterfaces_registered l st st' :
  RegisterInterfaces reg l st = Ok st' ->
  forall i, i ∈ l -> is_Some (Classes st' !! i).
Proof.
  revert st. induction l as [|j l IH]; simpl; intros st H i Hi.
  - apply elem_of_nil in Hi. contradiction.
  - run_inv H. destruct a as [c st1].
    apply elem_of_cons in Hi as [->|Hi]; [|eauto].
    apply reg_ok in E as [_ Hc].
    apply (RegisterInterfaces_extends _ reg_ok) in H as (M & _).
    eauto.
Qed.
End ConstructorRegisters.

(** X15: with a registry that keeps what it has registered, the
    constructor leaves a registered descriptor for every interface a
    class implements and for every ancestor of the type, and changes
    no descriptor that existed. *)
Theorem FClassDesc_ctor_registers reg h n T name st d st' :
  (forall A s c s', reg A s = Ok (c, s') ->
     extends s s' /\ Classes s' !! A = Some c) ->
  FClassDesc_ctor reg h n T name st = Ok (d, st') ->
  extends st st' /\
  (IsA_UClass h T = true ->
   forall i, i ∈ Interfaces h T -> is_Some (Classes st' !! i)) /\
  (exists Ts, IsChain h (GetInheritanceSuper h T) Ts /\
     Forall2 (fun A c => Classes st' !! A = Some c) Ts (SuperClasses d)).
Proof.
  intros reg_ok H.
  pose proof (FClassDesc_ctor_spec _ h reg_ok _ _ _ _ _ _ H)
    as (Hext & _ & _ & _ & _ & _ & _ & _ & Ts & Hch & Hall).
  split; [exact Hext|]. split; [|eauto].
  intros Hc i Hi. unfold FClassDesc_ctor in H. rewrite Hc in H.
  run_inv H. destruct a as [[[pad sz] fc] st1].
  run_inv H. destruct a as [supers st2].
  run_inv E. inversion E; subst.
  pose proof (RegisterInterfaces_registered _ reg_ok _ _ _ E1 i Hi) as [c Hci].
  apply (WalkSupers_spec _ h reg_ok) in E0 as ((M & _) & _).
  inversion H; subst. eauto.
Qed.

Lemma FClassDesc_ctor_registers_witness :
  exists d st',
    FClassDesc_ctor (RegisterReflectedType 3 Demo2.HeroHost) Demo2.HeroHost 3
      4 "UHero" InitState = Ok (d, st') /\
    is_Some (Classes st' !! 6) /\ is_Some (Classes st' !! 7).
Proof.
  eexists _, _. split; [vm_compute; reflexivity|].
  edestruct (FClassDesc_ctor_registers (RegisterReflectedType 3 Demo2.HeroHost)
               Demo2.HeroHost 3 4 "UHero"%string InitState)
    as (_ & H & _).
  - intros A s c s'. apply RegisterReflectedType_spec.
  - vm_compute. reflexivity.
  - split; apply H; try reflexivity; vm_compute.
    + apply elem_of_cons. left. reflexivity.
    + apply elem_of_cons. right. apply elem_of_cons. left. reflexivity.
Defined.

(** ** Default parameters *)

Lemma CollectionBound_PrimStep h st st' :
  CollectionBound h st -> PrimStep h st st' -> CollectionBound h st'.
Proof.
  intros I [st2 [c d s Hd Hs|c d v Hd|c d s m name Q fp st3 Hd Hs HF HC HO HR
                 |T c d Hc HF HP HFn HS HFC]|c d Hd Hs];
    intros c0 d0 Hd0; simpl in *.
  - destruct (decide (c0 = c)) as [->|Hne].
    + rewrite lookup_insert_eq in Hd0. inversion Hd0; subst d0.
      apply (I _ _ Hd).
    + rewrite lookup_insert_ne in Hd0 by congruence. eauto.
  - destruct (decide (c0 = c)) as [->|Hne].
    + rewrite lookup_insert_eq in Hd0. inversion Hd0; subst d0.
      apply (I _ _ Hd).
    + rewrite lookup_insert_ne in Hd0 by congruence. eauto.
  - apply RegisterLocal_desc in HR as (_ & _ & (P & Fn & RH) & _).
    rewrite RH in Hd0. destruct (decide (c0 = c)) as [->|Hne].
    + rewrite lookup_insert_eq in Hd0. inversion Hd0; subst d0.
      apply (I _ _ Hd).
    + rewrite lookup_insert_ne in Hd0 by congruence. eauto.
  - destruct (decide (c0 = c)) as [->|Hne].
    + rewrite lookup_insert_eq in Hd0. inversion Hd0; subst d0. exact HFC.
    + rewrite lookup_insert_ne in Hd0 by congruence. eauto.
  - destruct (decide (c0 = c)) as [->|Hne].
    + rewrite lookup_insert_eq in Hd0. inversion Hd0; subst d0.
      apply (I _ _ Hd).
    + rewrite lookup_insert_ne in Hd0 by congruence. eauto.
Qed.

Lemma Reachable_CollectionBound h st : Reachable h st -> CollectionBound h st.
Proof.
  apply Reachable_invariant.
  - intros c d Hd. simpl in Hd. rewrite lookup_empty in Hd. discriminate.
  - intros s1 s2. apply CollectionBound_PrimStep.
Qed.

(** X16: in every state reached under a host that compares [FName]s,
    the function descriptor behind a cached function field carries
    the default parameters that the global collection has on record
    for the descriptor's class name and the field name, both looked
    up as [FName]s, and none when there is no such record. *)
Theorem Reachable_default_params h st c d name fp fd s f :
  Reachable h st -> HostCI h ->
  ClassHeap st !! c = Some d -> Fields d !! FName.key name = Some fp ->
  FieldHeap st !! fp = Some fd ->
  Struct d = Some s -> ClassifyField h d s name = Some (MFunction f) ->
  exists k fn, Functions d !! k = Some fn /\
    FieldIndex fd = function_index k /\
    FuncHeap st !! fn
    = Some (mkFunctionDesc f
              (FName.find (GDefaultParamCollection h) (ClassName d)
                 ≫= fun fc => FName.find fc name)).
Proof.
  intros HR CI Hd HF Hfd Hs HC.
  destruct (Reachable_all _ _ HR) as (_ & I & _).
  pose proof (Reachable_CollectionBound _ _ HR _ _ Hd) as HB.
  destruct (I _ _ _ _ _ Hd HF Hfd) as (n0 & s' & m & K & A & B & _ & D).
  assert (s' = s) by congruence. subst s'.
  rewrite (ClassifyField_key _ _ _ _ _ CI K) in B.
  assert (m = MFunction f) by congruence. subst m.
  destruct D as (k & fn & D1 & D2 & D3).
  exists k, fn. split; [exact D1|]. split; [exact D3|].
  rewrite D2. do 2 f_equal. unfold DefaultParamsOf. rewrite HB.
  rewrite (proj1 (ClassifyField_function _ _ _ _ _ HC)).
  destruct (FName.find (GDefaultParamCollection h) (ClassName d));
    [|reflexivity].
  simpl. apply find_key. exact K.
Qed.

Lemma Reachable_default_params_witness :
  exists fn,
    FName.find (GDefaultParamCollection Demo2.HeroHost) "UHero"
      ≫= (fun fc => FName.find fc "jump") = Some 99 /\
    FuncHeap Demo2.HeroState1 !! fn = Some (mkFunctionDesc 20 (Some 99)).
Proof.
  edestruct (Reachable_default_params Demo2.HeroHost Demo2.HeroState1 2)
    with (name := "jump"%string) (fp := 0) (s := 4) (f := 20)
    as (k & fn & _ & _ & H).
  - apply HeroState1_Reachable.
  - apply HeroHost_CI.
  - vm_compute. reflexivity.
  - vm_compute. reflexivity.
  - vm_compute. reflexivity.
  - vm_compute. reflexivity.
  - vm_compute. reflexivity.
  - exists fn. split; [vm_compute; reflexivity|].
    rewrite H. vm_compute. reflexivity.
Defined.

(** ** Properties before functions *)

(** X17: the table of functions is not consulted when a property of
    the name exists, nor on a descriptor that is no class: the name
    classifies the same under any other table of functions, and a
    call that does not redirect returns the same result and state. *)
Theorem RegisterField_ignores_functions fuel g h this name Q st d s :
  ClassHeap st !! this = Some d -> Struct d = Some s ->
  is_Some (FindPropertyByName h s name) \/ bIsClass d = false ->
  ClassifyField (with_functions g h) d s name = ClassifyField h d s name /\
  ((forall m o, ClassifyField h d s name = Some m ->
      MemberOuter h m = Some o -> o = s) ->
   RegisterField (S fuel) (with_functions g h) this name Q st
   = RegisterField (S fuel) h this name Q st).
Proof.
  intros Hd Hs Hcase.
  assert (HC : ClassifyField (with_functions g h) d s name
               = ClassifyField h d s name).
  { unfold ClassifyField. simpl. destruct Hcase as [[p Hp]|Hc].
    - rewrite Hp. reflexivity.
    - rewrite Hc. rewrite !andb_false_r. reflexivity. }
  split; [exact HC|]. intros Hlocal.
  rewrite !(RegisterField_step _ _ _ _ _ _ _ _ Hd Hs), HC.
  destruct (Fields d !! FName.key name); [reflexivity|].
  destruct (ClassifyField h d s name) as [m|] eqn:Hm; [|reflexivity].
  assert (HO : MemberOuter (with_functions g h) m = MemberOuter h m).
  { destruct m as [p|f]; [reflexivity|].
    destruct Hcase as [[p Hp]|Hc].
    - apply ClassifyField_function in Hm as (_ & Hn & _). congruence.
    - apply ClassifyField_function in Hm as (Hn & _). congruence. }
  rewrite HO. destruct (MemberOuter h m) as [o|] eqn:Ho; [|reflexivity].
  rewrite (Hlocal _ _ eq_refl Ho). rewrite !decide_True by reflexivity.
  reflexivity.
Qed.

Lemma RegisterField_ignores_functions_witness :
  RegisterField 1 (with_functions (fun _ _ => Some 20) Demo.ChainHost)
    0 "Health" 0 Demo.ChainState
  = RegisterField 1 Demo.ChainHost 0 "Health" 0 Demo.ChainState.
Proof.
  refine (proj2 (RegisterField_ignores_functions 0 (fun _ _ => Some 20)
                   Demo.ChainHost 0 "Health"%string 0 Demo.ChainState
                   _ 1 _ _ _) _).
  - vm_compute. reflexivity.
  - vm_compute. reflexivity.
  - left. vm_compute. eauto.
  - intros m o Hm Ho. vm_compute in Hm. inversion Hm; subst m.
    vm_compute in Ho. congruence.
Defined.

(** ** What no operation changes *)

Lemma PrimStep_static h st st' :
  PrimStep h st st' ->
  forall c d, ClassHeap st !! c = Some d ->
    exists d', ClassHeap st' !! c = Some d' /\ static_part d' = static_part d.
Proof.
  intros [st2 G|c0 d0 Hd0 Hs0] c d Hd.
  - destruct (Grow_grows _ _ _ G) as (A & _).
    destruct (A _ _ Hd) as (d' & Hd' & [K _] & _). eauto.
  - simpl. destruct (decide (c = c0)) as [->|Hne].
    + rewrite lookup_insert_eq. eexists. split; [reflexivity|].
      assert (d0 = d) by congruence. subst. reflexivity.
    + rewrite lookup_insert_ne by congruence. eauto.
Qed.

Lemma steps_static h st st' :
  rtc (PrimStep h) st st' ->
  forall c d, ClassHeap st !! c = Some d ->
    exists d', ClassHeap st' !! c = Some d' /\ static_part d' = static_part d.
Proof.
  induction 1 as [|x y z Hxy _ IH]; intros c d Hd; [eauto|].
  destruct (PrimStep_static _ _ _ Hxy _ _ Hd) as (d1 & Hd1 & E1).
  destruct (IH _ _ Hd1) as (d2 & Hd2 & E2).
  exists d2. split; [exact Hd2 | congruence].
Qed.

(** X18: no operation of the file makes the registry forget a type or
    changes the identity a descriptor was constructed with: the class
    name, the kind flags, size and padding, the default-parameter
    table and [SuperClasses] stay as the constructor set them, also
    when the descriptor is unloaded and bound again. *)
Theorem operations_keep_identity h st :
  (forall c st', Load h c st = Ok st' -> persists st st') /\
  (forall c st', UnLoad c st = Ok st' -> persists st st') /\
  (forall c name r st', FindField h c name st = Ok (r, st') ->
     persists st st') /\
  (forall c st', AddRef c st = Ok st' -> persists st st') /\
  (forall c st', SubRef c st = Ok st' -> persists st st') /\
  (forall fuel c name Q r st',
     RegisterField fuel h c name Q st = Ok (r, st') -> persists st st') /\
  (forall st3 c, LoadUnLoadLoad h c st = Ok st3 -> persists st st3).
Proof.
  assert (HLoad : forall s c s', Load h c s = Ok s' -> persists s s').
  { intros s c s' H. split.
    - destruct (Load_frame _ _ _ _ H) as (E & _). rewrite E. auto.
    - apply (steps_static h), Grow_PrimStep. eapply Load_steps; eauto. }
  assert (HUn : forall s c s', UnLoad c s = Ok s' -> persists s s').
  { intros s c s' H. split.
    - apply UnLoad_Ok_inv in H as (d & _ & [[_ ->]|[_ ->]]); auto.
    - apply (steps_static h). eapply UnLoad_steps; eauto. }
  assert (HRef : forall s c d v, ClassHeap s !! c = Some d ->
            persists s (put_desc c (set_RefCount v d) s)).
  { intros s c d v Hd. split; [auto|].
    apply (steps_static h), Grow_PrimStep, rtc_once.
    eapply Grow_ref; eauto. }
  repeat split.
  - intros T x. destruct (HLoad _ _ _ H) as [A _]. apply A.
  - apply (HLoad _ _ _ H).
  - apply (HUn _ _ _ H).
  - apply (HUn _ _ _ H).
  - unfold FindField in H. run_inv H. run_inv H. inversion H; subst.
    apply (HLoad _ _ _ E).
  - unfold FindField in H. run_inv H. run_inv H. inversion H; subst.
    apply (HLoad _ _ _ E).
  - unfold AddRef in H. run_inv H. inversion H; subst.
    apply deref_Ok in E. apply (HRef _ _ _ _ E).
  - unfold AddRef in H. run_inv H. inversion H; subst.
    apply deref_Ok in E. apply (HRef _ _ _ _ E).
  - unfold SubRef in H. run_inv H. inversion H; subst.
    apply deref_Ok in E. apply (HRef _ _ _ _ E).
  - unfold SubRef in H. run_inv H. inversion H; subst.
    apply deref_Ok in E. apply (HRef _ _ _ _ E).
  - apply (RegisterField_frame _ _ _ _ _ _ _ _ H).
  - apply (steps_static h), Grow_PrimStep.
    eapply RegisterField_steps; eauto.
  - unfold LoadUnLoadLoad in H. run_inv H. run_inv H.
    intros T x HT.
    apply (proj1 (HLoad _ _ _ H)), (proj1 (HUn _ _ _ E0)),
      (proj1 (HLoad _ _ _ E)). exact HT.
  - unfold LoadUnLoadLoad in H. run_inv H. run_inv H.
    intros c0 d0 Hd0.
    destruct (proj2 (HLoad _ _ _ E) _ _ Hd0) as (d1 & Hd1 & E1).
    destruct (proj2 (HUn _ _ _ E0) _ _ Hd1) as (d2 & Hd2 & E2).
    destruct (proj2 (HLoad _ _ _ H) _ _ Hd2) as (d3 & Hd3 & E3).
    exists d3. split; [exact Hd3 | congruence].
Qed.

Lemma operations_keep_identity_witness :
  exists st', UnLoad 2 Demo.ChainState1 = Ok st' /\
    persists Demo.ChainState1 st'.
Proof.
  destruct (UnLoad_total 2 Demo.ChainState1 _ ltac:(vm_compute; reflexivity))
    as (st' & H).
  exists st'. split; [exact H|].
  exact (proj1 (proj2 (operations_keep_identity Demo.ChainHost
                         Demo.ChainState1)) 2 st' H).
Defined.
